(** * PyFR CUDA backend types: device matrices, views and the kernel queue

    A shallow embedding of [pyfr/backends/cuda/types.py].  Python integers
    are [Z]; objects that the module mutates are explicit state; raised
    exceptions are values of [exn] returned next to the state that was
    reached when they were raised. *)

From Stdlib Require Import List ZArith Lia Bool String Arith PeanoNat.
From Stdlib.Strings Require Import Byte.
From Stdlib.Floats Require Import SpecFloat.
Import ListNotations.

Local Open Scope string_scope.
Local Open Scope list_scope.

(** Python exceptions raised by the module or by the built-ins it calls.
    The string of an [AttributeError] is the name of the missing
    attribute. *)
Inductive exn : Type :=
| ValueError (msg : string)
| IndexError (msg : string)
| ZeroDivisionError (msg : string)
| AttributeError (msg : string).

(* ===================================================================== *)
(** * Methods as state transformers *)
(* ===================================================================== *)

(** A method call starts in a state, ends in a state, returns or raises,
    and emits the calls it made to the outside world, in order.  A raised
    exception keeps the state reached so far, as in Python. *)
Module Eff.

Set Implicit Arguments.

Section Monad.
Variables St Ev : Type.

Record result (A : Type) : Type := Result {
  value : A + exn;
  final : St;
  emitted : list Ev
}.

Definition M (A : Type) : Type := St -> result A.

Definition ret {A} (a : A) : M A := fun s => Result (inl a) s [].
Definition raise {A} (e : exn) : M A := fun s => Result (inr e) s [].
Definition bind {A B} (m : M A) (f : A -> M B) : M B := fun s =>
  match m s with
  | Result (inl a) s1 ev1 =>
      match f a s1 with
      | Result r s2 ev2 => Result r s2 (ev1 ++ ev2)
      end
  | Result (inr e) s1 ev1 => Result (inr e) s1 ev1
  end.
Definition emit (e : Ev) : M unit := fun s => Result (inl tt) s [e].
Definition modify (f : St -> St) : M unit :=
  fun s => Result (inl tt) (f s) [].

(** [while cond: body], run for at most [fuel] iterations. *)
Fixpoint while (fuel : nat) (cond : St -> bool) (body : M unit)
  : M unit := fun s =>
  match fuel with
  | O => ret tt s
  | S n =>
      if cond s then bind body (fun _ => while n cond body) s
      else ret tt s
  end.
End Monad.

Arguments Result {St Ev A} _ _ _.
Arguments value {St Ev A} _.
Arguments final {St Ev A} _.
Arguments emitted {St Ev A} _.
Arguments ret {St Ev A} _ _.
Arguments raise {St Ev A} _ _.
Arguments bind {St Ev A B} _ _ _.
Arguments emit {St Ev} _ _.
Arguments modify {St Ev} _ _.
Arguments while {St Ev} _ _ _ _.

Unset Implicit Arguments.

End Eff.

Import Eff.

Notation "m1 ;; m2" := (bind m1 (fun _ => m2))
  (at level 61, right associativity).

(* ===================================================================== *)
(** * The kernel queue: [CUDAQueue] *)
(* ===================================================================== *)

Module Queue.

(** Modelled from the spec: the kernel classes of [pyfr.backends.base] are
    not part of [types.py].  A work item is a discriminated value, compute or
    communication (spec 3, 4.5); any other Python object can be put in the
    deque as well, which is the third constructor. *)
Inductive kernel_class : Type := ComputeKernel | MPIKernel | NotAKernel.

Definition request := nat.
Definition rtarg := Z.

(** A queued object.  [kposts] are the request handles that the [run] method
    of an MPI kernel appends to the list it is given (spec 4.5). *)
Record kernel : Type := Kernel {
  kid : nat;
  kclass : kernel_class;
  kposts : list request
}.

(** Modelled from the spec: [base.iscomputekernel] and [base.ismpikernel]
    are not part of [types.py]; they test the kind of an object and are
    called on [self._last], which may be [None]. *)
Definition iscomputekernel (o : option kernel) : bool :=
  match o with
  | Some k => match kclass k with ComputeKernel => true | _ => false end
  | None => false
  end.

Definition ismpikernel (o : option kernel) : bool :=
  match o with
  | Some k => match kclass k with MPIKernel => true | _ => false end
  | None => false
  end.

(** The two streams owned by a queue. *)
Inductive stream : Type := _stream_comp | _stream_copy.

(** Calls that block the controlling thread. *)
Inductive blocking : Type :=
| synchronize (s : stream)
| Waitall (reqs : list request).

(** What a queue does to the outside world: it calls [item.run], or it
    goes through the blocking calls of one [_wait]. *)
Inductive event : Type :=
| Run (item : kernel) (rtargs : list rtarg)
| Wait (calls : list blocking).

Record CUDAQueue : Type := MkQueue {
  _last : option kernel;
  _mpireqs : list request;
  _items : list (kernel * list rtarg)
}.

(** Methods of one queue. *)
Definition Method (A : Type) : Type := M CUDAQueue event A.

(** [CUDAQueue.__init__] *)
Definition __init__ : CUDAQueue :=
  {| _last := None; _mpireqs := []; _items := [] |}.

Definition set_last (o : option kernel) (q : CUDAQueue) : CUDAQueue :=
  {| _last := o; _mpireqs := _mpireqs q; _items := _items q |}.
Definition set_mpireqs (r : list request) (q : CUDAQueue) : CUDAQueue :=
  {| _last := _last q; _mpireqs := r; _items := _items q |}.
Definition set_items (l : list (kernel * list rtarg)) (q : CUDAQueue)
  : CUDAQueue :=
  {| _last := _last q; _mpireqs := _mpireqs q; _items := l |}.

(** [__lshift__] *)
Definition __lshift__ (items : list (kernel * list rtarg)) : Method unit :=
  modify (fun q => set_items (_items q ++ items) q).

(** [__nonzero__] *)
Definition __nonzero__ (self : CUDAQueue) : bool :=
  match _items self with [] => false | _ :: _ => true end.

(** [_exec_item] *)
Definition _exec_item (item : kernel) (rtargs : list rtarg) : Method unit :=
  (if iscomputekernel (Some item) then
     emit (Run item rtargs)
   else if ismpikernel (Some item) then
     emit (Run item rtargs) ;;
     modify (fun q => set_mpireqs (_mpireqs q ++ kposts item) q)
   else
     raise (ValueError "Non compute/MPI kernel in queue")) ;;
  modify (set_last (Some item)).

(** [_wait] *)
Definition _wait : Method unit := fun self =>
  ((if iscomputekernel (_last self) then
      emit (Wait [synchronize _stream_comp; synchronize _stream_copy])
    else if ismpikernel (_last self) then
      emit (Wait [Waitall (_mpireqs self)]) ;;
      modify (set_mpireqs [])
    else ret tt) ;;
   modify (set_last None)) self.

(** [_at_sequence_point] *)
Definition _at_sequence_point (self : CUDAQueue) (item : kernel) : bool :=
  let iscompute := iscomputekernel in
  let ismpi := ismpikernel in
  if (iscompute (_last self) && negb (iscompute (Some item)))
     || (ismpi (_last self) && negb (ismpi (Some item)))
  then true else false.

(** [self._items.popleft()] *)
Definition popleft : Method (kernel * list rtarg) := fun self =>
  match _items self with
  | [] => raise (IndexError "pop from an empty deque") self
  | x :: rest => Result (inl x) (set_items rest self) []
  end.

(** [_exec_next] *)
Definition _exec_next : Method unit :=
  bind popleft (fun '(item, rtargs) =>
  (fun self =>
     (if _at_sequence_point self item then _wait else ret tt) self) ;;
  _exec_item item rtargs).

(** [len(self._items)], the bound of the loops below: every iteration pops
    one item. *)
Definition len (q : CUDAQueue) : nat := List.length (_items q).

(** The loop test of [_exec_nowait]:
    [self._items and not self._at_sequence_point(self._items[0][0])]. *)
Definition nowait_cond (self : CUDAQueue) : bool :=
  match _items self with
  | [] => false
  | (item, _) :: _ => negb (_at_sequence_point self item)
  end.

(** The loop body of [_exec_nowait]: [_exec_item] on the pair that
    [popleft] returns. *)
Definition nowait_body : Method unit :=
  bind popleft (fun '(item, rtargs) => _exec_item item rtargs).

(** [_exec_nowait] *)
Definition _exec_nowait : Method unit := fun self =>
  while (len self) nowait_cond nowait_body self.

(** The loop of [run]: [while self._items: self._exec_next()]. *)
Definition steps : Method unit := fun self =>
  while (len self) __nonzero__ _exec_next self.

(** [run] *)
Definition run : Method unit := steps ;; _wait.

(** [__mod__] *)
Definition __mod__ (items : list (kernel * list rtarg)) : Method unit :=
  run ;; __lshift__ items ;; run.

(** ** Several queues: [runall]

    The argument of [runall] is a list of distinct queue objects.  The state
    is the list of their states; what they do is logged in one sequence,
    every event with the position of the queue it comes from. *)
Definition Driver (A : Type) : Type := M (list CUDAQueue) (nat * event) A.

Definition tag (i : nat) (evs : list event) : list (nat * event) :=
  map (pair i) evs.

(** [for q in queues: body(q)], the queues numbered from [i]. *)
Fixpoint for_each (body : Method unit) (i : nat) : Driver unit :=
  fun queues =>
  match queues with
  | [] => ret tt []
  | q :: rest =>
      match body q with
      | Result (inl _) q' evs =>
          match for_each body (S i) rest with
          | Result r rest' evs' => Result r (q' :: rest') (tag i evs ++ evs')
          end
      | Result (inr e) q' evs => Result (inr e) (q' :: rest) (tag i evs)
      end
  end.

(** [any(queues)] *)
Definition any (queues : list CUDAQueue) : bool := existsb __nonzero__ queues.

(** Number of items still in the deques: every iteration of the loop of
    [runall] pops at least one. *)
Definition pending (queues : list CUDAQueue) : nat :=
  list_sum (map len queues).

(** The body of [for q in it.ifilter(None, queues)]: the filter is lazy, it
    tests a queue when the loop reaches it. *)
Definition blocking_step : Method unit := fun q =>
  if __nonzero__ q then (_exec_next ;; _exec_nowait) q else ret tt q.

(** [runall] *)
Definition runall : Driver unit :=
  for_each _exec_nowait 0 ;;
  (fun queues =>
     while (pending queues) any (for_each blocking_step 0) queues) ;;
  for_each _wait 0.

(** ** Observations on logs and states *)

(** An object that [_exec_item] accepts. *)
Definition is_kernel (k : kernel) : bool :=
  iscomputekernel (Some k) || ismpikernel (Some k).

Definition valid_items (q : CUDAQueue) : Prop :=
  Forall (fun x => is_kernel (fst x) = true) (_items q).

(** The items whose [run] was called, in the order of the calls. *)
Fixpoint launched (evs : list event) : list (kernel * list rtarg) :=
  match evs with
  | [] => []
  | Run item rtargs :: evs' => (item, rtargs) :: launched evs'
  | Wait _ :: evs' => launched evs'
  end.

(** The log of calling [run] on each item of a list, with no wait. *)
Definition runs (l : list (kernel * list rtarg)) : list event :=
  map (fun x => Run (fst x) (snd x)) l.

(** The blocking waits, in order. *)
Fixpoint waits (evs : list event) : list (list blocking) :=
  match evs with
  | [] => []
  | Run _ _ :: evs' => waits evs'
  | Wait calls :: evs' => calls :: waits evs'
  end.

Definition is_run (e : event) : bool :=
  match e with Run _ _ => true | Wait _ => false end.

(** What queue number [i] did, out of the log of [runall]. *)
Definition project (i : nat) (log : list (nat * event)) : list event :=
  map snd (filter (fun p => Nat.eqb (fst p) i) log).

(** The log of [for_each body i queues] when no call raises. *)
Fixpoint for_each_log (body : Method unit) (i : nat)
  (queues : list CUDAQueue) : list (nat * event) :=
  match queues with
  | [] => []
  | q :: rest => tag i (emitted (body q)) ++ for_each_log body (S i) rest
  end.

(** [n] calls of [m] in a row. *)
Fixpoint iterate (n : nat) (m : Method unit) : Method unit :=
  match n with
  | O => ret tt
  | S k => m ;; iterate k m
  end.

(** Nothing pending, nothing outstanding. *)
Definition quiescent (q : CUDAQueue) : Prop :=
  _items q = [] /\ _last q = None /\ _mpireqs q = [].

(** The request list is used only while the last item is an MPI kernel. *)
Definition requests_tracked (q : CUDAQueue) : Prop :=
  _mpireqs q <> [] -> ismpikernel (_last q) = true.

(** [_last] is [None] or an item that [_exec_item] accepted. *)
Definition last_is_kernel (q : CUDAQueue) : Prop :=
  match _last q with Some k => is_kernel k = true | None => True end.

(** The invariant of a queue object. *)
Definition Inv (q : CUDAQueue) : Prop :=
  last_is_kernel q /\ requests_tracked q.

(** States of a queue object that its public and internal entry points can
    produce, starting from the constructor. *)
Inductive reachable : CUDAQueue -> Prop :=
| reach_init : reachable __init__
| reach_lshift q items :
    reachable q -> reachable (final (__lshift__ items q))
| reach_exec_next q :
    reachable q -> reachable (final (_exec_next q))
| reach_exec_nowait q :
    reachable q -> reachable (final (_exec_nowait q))
| reach_wait q :
    reachable q -> reachable (final (_wait q))
| reach_run q :
    reachable q -> reachable (final (run q))
| reach_mod q items :
    reachable q -> reachable (final (__mod__ items q))
| reach_runall queues q :
    (forall q0, In q0 queues -> reachable q0) ->
    In q (final (runall queues)) -> reachable q.

(** States in which the public interface, [<<], [%], [run] and [runall],
    leaves a queue that is given kernels only. *)
Inductive between_calls : CUDAQueue -> Prop :=
| rest_init : between_calls __init__
| rest_lshift q items :
    between_calls q -> Forall (fun x => is_kernel (fst x) = true) items ->
    between_calls (final (__lshift__ items q))
| rest_run q :
    between_calls q -> between_calls (final (run q))
| rest_mod q items :
    between_calls q -> Forall (fun x => is_kernel (fst x) = true) items ->
    between_calls (final (__mod__ items q))
| rest_runall queues q :
    (forall q0, In q0 queues -> between_calls q0) ->
    In q (final (runall queues)) -> between_calls q.

(** ** Further observations *)

Definition class_eqb (a b : kernel_class) : bool :=
  match a, b with
  | ComputeKernel, ComputeKernel | MPIKernel, MPIKernel
  | NotAKernel, NotAKernel => true
  | _, _ => false
  end.

(** Kind of the last item, if any. *)
Definition last_class (q : CUDAQueue) : option kernel_class :=
  option_map kclass (_last q).

(** A log in which a run never follows a run of another kind without a
    wait in between; [prev] is the kind of the run still outstanding when
    the log starts. *)
Fixpoint synced (prev : option kernel_class) (evs : list event) : bool :=
  match evs with
  | [] => true
  | Run item _ :: evs' =>
      match prev with
      | Some c => class_eqb c (kclass item)
      | None => true
      end && synced (Some (kclass item)) evs'
  | Wait _ :: evs' => synced None evs'
  end.

(** The kind outstanding at the end of a log. *)
Fixpoint track (prev : option kernel_class) (evs : list event)
  : option kernel_class :=
  match evs with
  | [] => prev
  | Run item _ :: evs' => track (Some (kclass item)) evs'
  | Wait _ :: evs' => track None evs'
  end.

(** The requests that the waits of a log waited for, in order. *)
Fixpoint waited (evs : list event) : list request :=
  match evs with
  | [] => []
  | Run _ _ :: evs' => waited evs'
  | Wait calls :: evs' =>
      flat_map (fun c => match c with
                         | Waitall reqs => reqs
                         | synchronize _ => []
                         end) calls
      ++ waited evs'
  end.

(** The requests that the MPI kernels of a list post, in order. *)
Definition posted (items : list (kernel * list rtarg)) : list request :=
  flat_map (fun x => if ismpikernel (Some (fst x)) then kposts (fst x)
                     else []) items.

(** Number of items of a list whose kind differs from that of the item
    before; [prev] is the kind before the first. *)
Fixpoint kind_changes (prev : option kernel_class)
  (items : list (kernel * list rtarg)) : nat :=
  match items with
  | [] => O
  | (item, _) :: rest =>
      match prev with
      | Some c => if class_eqb c (kclass item) then O else 1%nat
      | None => O
      end + kind_changes (Some (kclass item)) rest
  end.

(** The maximal same-kind prefix of a pending list, in the words of
    spec 4.6 and 4.7: the items at the front that share the kind of the item
    before them, [prev] being the kind of the last item executed, if any.  It
    is defined from the kinds alone, to be compared with what [_exec_nowait]
    does. *)
Fixpoint maximal_same_kind_prefix (prev : option kernel_class)
  (items : list (kernel * list rtarg)) : list (kernel * list rtarg) :=
  match items with
  | [] => []
  | (item, rtargs) :: rest =>
      if match prev with
         | Some c => class_eqb c (kclass item)
         | None => true
         end
      then (item, rtargs) :: maximal_same_kind_prefix (Some (kclass item)) rest
      else []
  end.

(** The state after [_exec_next] has taken the kernel [item] from the
    front of the deque, [rest] being what is left. *)
Definition next_state (q : CUDAQueue) (item : kernel)
  (rest : list (kernel * list rtarg)) : CUDAQueue :=
  {| _last := Some item;
     _mpireqs :=
       (if _at_sequence_point q item && ismpikernel (_last q) then []
        else _mpireqs q)
       ++ (if ismpikernel (Some item) then kposts item else []);
     _items := rest |}.

(** What [_exec_next] emits for the kernel [item]. *)
Definition next_events (q : CUDAQueue) (item : kernel)
  (rtargs : list rtarg) : list event :=
  (if _at_sequence_point q item then
     [Wait (if iscomputekernel (_last q)
            then [synchronize _stream_comp; synchronize _stream_copy]
            else [Waitall (_mpireqs q)])]
   else [])
  ++ [Run item rtargs].

(** ** Sample kernels and queues *)

Definition comp (n : nat) : kernel := Kernel n ComputeKernel [].
Definition mpi (n : nat) (posts : list request) : kernel :=
  Kernel n MPIKernel posts.
Definition stray (n : nat) : kernel := Kernel n NotAKernel [].

(** A fresh queue with [items] put in by [<<]. *)
Definition fresh (items : list (kernel * list rtarg)) : CUDAQueue :=
  final (__lshift__ items __init__).

Definition queue_CCMMC : CUDAQueue :=
  fresh [(comp 1, [10%Z]); (comp 2, []); (mpi 3 [30; 31], [7%Z]);
         (mpi 4 [40], []); (comp 5, [])].

Definition queue_CCC : CUDAQueue :=
  fresh [(comp 1, []); (comp 2, [2%Z]); (comp 3, [])].

Definition queue_MM : CUDAQueue :=
  fresh [(mpi 6 [60], []); (mpi 7 [70; 71], [])].

(** A queue whose last item was an MPI kernel and whose next is a compute
    kernel. *)
Definition queue_after_mpi : CUDAQueue :=
  final (_exec_next (fresh [(mpi 3 [30; 31], [7%Z]); (comp 5, [])])).

Definition queue_stray : CUDAQueue :=
  final (_exec_next (fresh [(comp 1, []); (stray 9, [])])).

End Queue.

(* ===================================================================== *)
(** * Device matrices: [CUDAMatrixBase] *)
(* ===================================================================== *)

Module Matrix.

Local Open Scope Z_scope.

(** The NumPy data types that the backend uses: [backend.fpdtype] is one of
    the floating point types, views use [np.int32]. *)
Inductive dtype : Type := float32 | float64 | int32 | int64.

(** [np.dtype(dtype).itemsize] *)
Definition np_itemsize (dt : dtype) : Z :=
  match dt with
  | float32 | int32 => 4
  | float64 | int64 => 8
  end.

Definition dtype_eqb (a b : dtype) : bool :=
  match a, b with
  | float32, float32 | float64, float64 | int32, int32 | int64, int64 => true
  | _, _ => false
  end.

(** NumPy's numbers and their representation in memory.  [encode dt v] is
    the [np_itemsize dt] bytes that hold the number [v] in an array of type
    [dt], after the conversion to [dt]; [decode dt] reads such bytes back;
    [int] is the number of a Python integer. *)
Class Scalars : Type := {
  scalar : Type;
  encode : dtype -> scalar -> list byte;
  decode : dtype -> list byte -> scalar;
  int : Z -> scalar;
  encode_length : forall dt v,
    List.length (encode dt v) = Z.to_nat (np_itemsize dt)
}.

(** Device memory, byte addressed. *)
Definition memory : Type := Z -> byte.

Section Arrays.
Context {numpy : Scalars}.

(** A host array in C order. *)
Record ndarray : Type := NDArray {
  shape : list Z;
  arr_dtype : dtype;
  data : list scalar
}.

(** [np.prod(shape)], the number of elements. *)
Definition size (shp : list Z) : Z := fold_right Z.mul 1 shp.

Definition well_formed (a : ndarray) : Prop :=
  List.length (data a) = Z.to_nat (size (shape a)).

(** Comparison of two shape tuples. *)
Definition shape_eqb (s1 s2 : list Z) : bool :=
  if list_eq_dec Z.eq_dec s1 s2 then true else false.

(** [a.reshape(newshape)] *)
Definition reshape (a : ndarray) (newshape : list Z) : ndarray + exn :=
  if size newshape =? size (shape a) then
    inl {| shape := newshape; arr_dtype := arr_dtype a; data := data a |}
  else inr (ValueError "total size of new array must be unchanged").

(** [np.asanyarray(ary, dtype=dt, order='C')]: the array itself when it has
    the type already, a converted copy otherwise. *)
Definition asanyarray (ary : ndarray) (dt : dtype) : ndarray :=
  if dtype_eqb (arr_dtype ary) dt then ary
  else {| shape := shape ary; arr_dtype := dt;
          data := map (fun v => decode dt (encode dt v)) (data ary) |}.

(** [np.empty(shape, dtype=dt)]: the contents are whatever the allocator
    left there, [junk]. *)
Definition np_empty (junk : nat -> scalar) (shp : list Z) (dt : dtype)
  : ndarray :=
  {| shape := shp; arr_dtype := dt;
     data := map junk (seq 0 (Z.to_nat (size shp))) |}.

(** The bytes of a host array. *)
Definition tobytes (a : ndarray) : list byte :=
  flat_map (encode (arr_dtype a)) (data a).

(** [count] pieces of [n] bytes. *)
Fixpoint chunks (count n : nat) (bs : list byte) : list (list byte) :=
  match count with
  | O => []
  | S k => firstn n bs :: chunks k n (skipn n bs)
  end.

(** The host array of shape [shp] and type [dt] over the bytes [bs]. *)
Definition frombytes (shp : list Z) (dt : dtype) (bs : list byte) : ndarray :=
  {| shape := shp; arr_dtype := dt;
     data := map (decode dt)
               (chunks (Z.to_nat (size shp)) (Z.to_nat (np_itemsize dt)) bs) |}.

(** ** Strided copies *)

Definition write_bytes (mem : memory) (addr : Z) (bs : list byte) : memory :=
  fun a =>
    if (addr <=? a) && (a <? addr + Z.of_nat (List.length bs))
    then nth (Z.to_nat (a - addr)) bs x00
    else mem a.

Definition read_bytes (mem : memory) (addr : Z) (n : nat) : list byte :=
  map (fun j => mem (addr + Z.of_nat j)) (seq 0 n).

(** [n] bytes of a host buffer from position [start]. *)
Definition slice (bs : list byte) (start n : nat) : list byte :=
  firstn n (skipn start bs).

(** A host buffer with the bytes [bs] written at position [start]. *)
Definition splice (buf : list byte) (start : nat) (bs : list byte)
  : list byte :=
  firstn start buf ++ bs ++ skipn (start + List.length bs) buf.

(** Rows [0 .. n-1] of a 2-D copy from a host buffer to the device. *)
Fixpoint copy_rows_htod (n : nat) (dest : Z) (src : list byte)
  (spitch dpitch width : Z) (mem : memory) : memory :=
  match n with
  | O => mem
  | S k =>
      write_bytes (copy_rows_htod k dest src spitch dpitch width mem)
        (dest + Z.of_nat k * dpitch)
        (slice src (Z.to_nat (Z.of_nat k * spitch)) (Z.to_nat width))
  end.

(** Rows [0 .. n-1] of a 2-D copy from the device to a host buffer. *)
Fixpoint copy_rows_dtoh (n : nat) (dest : list byte) (src : Z)
  (spitch dpitch width : Z) (mem : memory) : list byte :=
  match n with
  | O => dest
  | S k =>
      splice (copy_rows_dtoh k dest src spitch dpitch width mem)
        (Z.to_nat (Z.of_nat k * dpitch))
        (read_bytes mem (src + Z.of_nat k * spitch) (Z.to_nat width))
  end.

(** Modelled from the spec: [memcpy2d_htod] of [pyfr.backends.cuda.util] is
    not part of [types.py].  It is the strided transfer primitive of spec 6,
    host to device: [height] rows of [width] bytes, read [spitch] bytes
    apart and written [dpitch] bytes apart. *)
Definition memcpy2d_htod (dest : Z) (src : ndarray)
  (spitch dpitch width height : Z) (mem : memory) : memory :=
  copy_rows_htod (Z.to_nat height) dest (tobytes src) spitch dpitch width mem.

(** Modelled from the spec: [memcpy2d_dtoh] of [pyfr.backends.cuda.util] is
    not part of [types.py].  It is the strided transfer primitive of spec 6,
    device to host; the host array is filled in place. *)
Definition memcpy2d_dtoh (dest : ndarray) (src : Z)
  (spitch dpitch width height : Z) (mem : memory) : ndarray :=
  frombytes (shape dest) (arr_dtype dest)
    (copy_rows_dtoh (Z.to_nat height) (tobytes dest) src spitch dpitch width
       mem).

(** ** The backend and the matrix object *)

(** What the module uses of the backend object.  [compact_shape] is the
    backend's method, taken as it is. *)
Record Backend : Type := MkBackend {
  alignb : Z;
  fpdtype : dtype;
  compact_shape : list Z -> Z * Z
}.

(** Modelled from the spec: [backend.compact_arr] is not part of [types.py];
    it brings an array to its canonical 2-D shape (spec 4.1, glossary). *)
Definition compact_arr (backend : Backend) (a : ndarray) : ndarray + exn :=
  let (nrow, ncol) := compact_shape backend (shape a) in
  reshape a [nrow; ncol].

(** The request that the constructor hands to [backend.malloc]. *)
Definition malloc_request : Type := (Z * option string)%type.

(** The attributes of a matrix.  An attribute that the object does not have
    is [None]: [basedata], [data] and [offset] exist once [onalloc] has run;
    [_initval], whose value is an array or Python's [None], exists until
    [onalloc] deletes it. *)
Record CUDAMatrixBase : Type := MkMatrix {
  backend : Backend;
  ioshape : list Z;
  tags : list string;
  dtype_ : dtype;
  itemsize : Z;
  nrow : Z;
  ncol : Z;
  leaddim : Z;
  leadsubdim : Z;
  _initval : option (option ndarray);
  basedata : option Z;
  data_ : option Z;
  offset : option Z
}.

(** Modelled from the spec: the property [pitch] belongs to
    [base.MatrixBase], which is not part of [types.py]; it is the byte stride
    between rows, [leaddim*itemsize] (spec 3). *)
Definition pitch (self : CUDAMatrixBase) : Z := leaddim self * itemsize self.

(** ['align' in tags] *)
Definition has_align (tags : list string) : bool :=
  existsb (String.eqb "align") tags.

(** The alignment requirement of the constructor. *)
Definition ldmod_of (backend : Backend) (dt : dtype) (tags : list string) : Z :=
  if has_align tags then alignb backend / np_itemsize dt else 1.

(** [ncol - (ncol % -ldmod)]; [%] takes the sign of the divisor, as
    [Z.modulo] does. *)
Definition leaddim_of (ncol ldmod : Z) : Z := ncol - (ncol mod (- ldmod)).

(** [CUDAMatrixBase.__init__] *)
Definition __init__ (backend : Backend) (dt : dtype) (ioshape : list Z)
  (initval : option ndarray) (extent : option string) (tags : list string)
  : (CUDAMatrixBase * malloc_request) + exn :=
  let itemsize := np_itemsize dt in
  let ldmod := if has_align tags then alignb backend / itemsize else 1 in
  let (nrow, ncol) := compact_shape backend ioshape in
  if ldmod =? 0 then
    inr (ZeroDivisionError "integer division or modulo by zero")
  else
    let leaddim := ncol - (ncol mod (- ldmod)) in
    match rev ioshape with
    | [] => inr (IndexError "tuple index out of range")
    | lsd :: _ =>
        inl ({| backend := backend; ioshape := ioshape; tags := tags;
                dtype_ := dt; itemsize := itemsize;
                nrow := nrow; ncol := ncol; leaddim := leaddim;
                leadsubdim := lsd; _initval := Some initval;
                basedata := None; data_ := None; offset := None |},
             (nrow * leaddim * itemsize, extent))
    end.

(** [get] *)
Definition get (junk : nat -> scalar) (self : CUDAMatrixBase) (mem : memory)
  : ndarray + exn :=
  let buf := np_empty junk [nrow self; ncol self] (dtype_ self) in
  match data_ self with
  | None => inr (AttributeError "data")
  | Some d =>
      let buf :=
        memcpy2d_dtoh buf d (pitch self) (ncol self * itemsize self)
          (ncol self * itemsize self) (nrow self) mem in
      reshape buf (ioshape self)
  end.

(** [set] *)
Definition set (self : CUDAMatrixBase) (ary : ndarray) (mem : memory)
  : (unit + exn) * memory :=
  if negb (shape_eqb (shape ary) (ioshape self)) then
    (inr (ValueError "Invalid matrix shape"), mem)
  else
    let nary := asanyarray ary (dtype_ self) in
    match compact_arr (backend self) nary with
    | inr e => (inr e, mem)
    | inl nary =>
        match data_ self with
        | None => (inr (AttributeError "data"), mem)
        | Some d =>
            (inl tt,
             memcpy2d_htod d nary (ncol self * itemsize self) (pitch self)
               (ncol self * itemsize self) (nrow self) mem)
        end
    end.

Definition with_placement (self : CUDAMatrixBase) (b d o : Z)
  : CUDAMatrixBase :=
  {| backend := backend self; ioshape := ioshape self; tags := tags self;
     dtype_ := dtype_ self; itemsize := itemsize self;
     nrow := nrow self; ncol := ncol self; leaddim := leaddim self;
     leadsubdim := leadsubdim self; _initval := _initval self;
     basedata := Some b; data_ := Some d; offset := Some o |}.

Definition del_initval (self : CUDAMatrixBase) : CUDAMatrixBase :=
  {| backend := backend self; ioshape := ioshape self; tags := tags self;
     dtype_ := dtype_ self; itemsize := itemsize self;
     nrow := nrow self; ncol := ncol self; leaddim := leaddim self;
     leadsubdim := leadsubdim self; _initval := None;
     basedata := basedata self; data_ := data_ self; offset := offset self |}.

(** [onalloc]: the object after the call, what the call returned, and the
    device memory.  The placement is assigned before [self._initval] is
    read. *)
Definition onalloc (self : CUDAMatrixBase) (basedata offset : Z)
  (mem : memory) : CUDAMatrixBase * (unit + exn) * memory :=
  let self :=
    with_placement self basedata (basedata + offset)
      (offset / itemsize self) in
  match _initval self with
  | None => (self, inr (AttributeError "_initval"), mem)
  | Some (Some initval) =>
      match set self initval mem with
      | (inl _, mem') => (del_initval self, inl tt, mem')
      | (inr e, mem') => (self, inr e, mem')
      end
  | Some None => (del_initval self, inl tt, mem)
  end.

(** [CUDAMatrix.__init__] *)
Definition CUDAMatrix__init__ (backend : Backend) (ioshape : list Z)
  (initval : option ndarray) (extent : option string) (tags : list string) :=
  __init__ backend (fpdtype backend) ioshape initval extent tags.

(** [CUDAConstMatrix.__init__] *)
Definition CUDAConstMatrix__init__ (backend : Backend) (initval : ndarray)
  (extent : option string) (tags : list string) :=
  let ioshape := shape initval in
  __init__ backend (fpdtype backend) ioshape (Some initval) extent tags.

(** ** Observations *)

(** The addresses of the elements of a placed matrix: [ncol*itemsize] bytes
    at the start of every row; the rest of a row is padding. *)
Definition in_rows (self : CUDAMatrixBase) (d a : Z) : Prop :=
  exists r j, 0 <= r < nrow self /\ 0 <= j < ncol self * itemsize self /\
              a = d + r * pitch self + j.

(** Two host arrays with the same shape and the same numbers. *)
Definition array_equal (a b : ndarray) : Prop :=
  shape a = shape b /\ data a = data b.

(** Every number of the array is kept by storage in the type [dt]. *)
Definition representable (dt : dtype) (a : ndarray) : Prop :=
  Forall (fun v => decode dt (encode dt v) = v) (data a).

(** What the constructor establishes, for a backend whose [compact_shape]
    keeps the number of elements. *)
Definition consistent (self : CUDAMatrixBase) : Prop :=
  compact_shape (backend self) (ioshape self) = (nrow self, ncol self) /\
  0 <= nrow self /\ 0 <= ncol self /\
  nrow self * ncol self = size (ioshape self) /\
  itemsize self = np_itemsize (dtype_ self) /\
  ncol self <= leaddim self.

(** ** Kernel arguments and row slices *)

(** [CUDAMatrixBase._as_parameter_] and [__long__]: [self.data]. *)
Definition _as_parameter_ (self : CUDAMatrixBase) : Z + exn :=
  match data_ self with
  | Some d => inl d
  | None => inr (AttributeError "data")
  end.

(** Modelled from the spec: [base.MatrixRSlice.__init__] is not part of
    [types.py]; it keeps the parent matrix and the row range [p, q) (spec 3,
    4.2).  [_soffset] is what [CUDAMatrixRSlice.__init__] adds. *)
Record CUDAMatrixRSlice : Type := MkRSlice {
  parent : CUDAMatrixBase;
  slice_p : Z;
  slice_q : Z;
  _soffset : Z
}.

(** [CUDAMatrixRSlice.__init__] *)
Definition RSlice__init__ (mat : CUDAMatrixBase) (p q : Z)
  : CUDAMatrixRSlice :=
  {| parent := mat; slice_p := p; slice_q := q; _soffset := p * pitch mat |}.

(** [CUDAMatrixRSlice._as_parameter_] *)
Definition RSlice_as_parameter_ (self : CUDAMatrixRSlice) : Z + exn :=
  match data_ (parent self) with
  | Some d => inl (d + _soffset self)
  | None => inr (AttributeError "data")
  end.

(** The bytes that [set] sends to the device. *)
Definition sent (self : CUDAMatrixBase) (A : ndarray) : list byte :=
  flat_map (encode (dtype_ self)) (data (asanyarray A (dtype_ self))).

(** The bytes of the rows of a placed matrix, in order. *)
Definition row_bytes (self : CUDAMatrixBase) (d : Z) (mem : memory)
  : list byte :=
  List.concat
    (map (fun k =>
            read_bytes mem (d + Z.of_nat k * pitch self)
              (Z.to_nat (ncol self * itemsize self)))
       (seq 0 (Z.to_nat (nrow self)))).

End Arrays.

(** ** A sample interpretation of the numbers

    The elements of an integer array are numbers, stored little-endian in
    two's complement.  The elements of a floating point array are IEEE 754
    binary32 and binary64 numbers, kept as their bit patterns and stored
    little-endian.  The conversions are the C conversions that NumPy compiles
    to on x86-64: numbers wrap around, an integer becomes the nearest
    float, ties to even, and a float becomes an integer by truncation, or
    the most negative integer when it has none in range. *)

Definition byte_of_Z (z : Z) : byte :=
  match Byte.of_N (Z.to_N (z mod 256)) with Some b => b | None => x00 end.

Fixpoint le_bytes (n : nat) (z : Z) : list byte :=
  match n with
  | O => []
  | S k => byte_of_Z z :: le_bytes k (z / 256)
  end.

Fixpoint le_value (bs : list byte) : Z :=
  match bs with
  | [] => 0
  | b :: rest => Z.of_N (Byte.to_N b) + 256 * le_value rest
  end.

Definition signed (bits : Z) (z : Z) : Z :=
  if z <? 2 ^ (bits - 1) then z else z - 2 ^ bits.

Fixpoint le_bytes_length (n : nat) (z : Z)
  : List.length (le_bytes n z) = n :=
  match n with
  | O => eq_refl
  | S k => f_equal S (le_bytes_length k (z / 256))
  end.

Inductive number : Type :=
| Int (z : Z)
| Float32 (bits : Z)
| Float64 (bits : Z).

(** A binary format is given by its precision [prec], the implicit bit
    counted, and the exponent [emax] of its infinities: 24 and 128 for
    binary32, 53 and 1024 for binary64.  The bit pattern is the sign, the
    exponent field and the [prec - 1] bits of the fraction. *)
Definition join_bits (prec emax : Z) (s : bool) (e m : Z) : Z :=
  ((if s then 2 * emax else 0) + e) * 2 ^ (prec - 1) + m.

Definition sign_bit (prec emax : Z) (b : Z) : bool :=
  Z.odd (b / (2 ^ (prec - 1) * (2 * emax))).

Definition float_of_bits (prec emax : Z) (b : Z) : spec_float :=
  let m := b mod 2 ^ (prec - 1) in
  let e := (b / 2 ^ (prec - 1)) mod (2 * emax) in
  let s := sign_bit prec emax b in
  if e =? 0 then
    match m with
    | Zpos p => S754_finite s p (emin prec emax)
    | _ => S754_zero s
    end
  else if e =? 2 * emax - 1 then
    if m =? 0 then S754_infinity s else S754_nan
  else
    match m + 2 ^ (prec - 1) with
    | Zpos p => S754_finite s p (e + emin prec emax - 1)
    | _ => S754_nan
    end.

Definition bits_of_float (prec emax : Z) (x : spec_float) (nan : Z) : Z :=
  match x with
  | S754_zero s => join_bits prec emax s 0 0
  | S754_infinity s => join_bits prec emax s (2 * emax - 1) 0
  | S754_nan => nan
  | S754_finite s m e =>
      let f := Zpos m - 2 ^ (prec - 1) in
      if 0 <=? f then join_bits prec emax s (e - emin prec emax + 1) f
      else join_bits prec emax s 0 (Zpos m)
  end.

(** An integer to a float: the nearest one, ties to even. *)
Definition float_of_Z (prec emax : Z) (z : Z) : Z :=
  bits_of_float prec emax (binary_normalize prec emax z 0 false) 0.

(** A float to a float of another format: the nearest one, ties to even; a
    NaN keeps its sign and the leading bits of its fraction and becomes
    quiet. *)
Definition convert (prec emax prec' emax' : Z) (b : Z) : Z :=
  match float_of_bits prec emax b with
  | S754_nan =>
      let frac := b mod 2 ^ (prec - 1) in
      let frac' := if prec <=? prec' then frac * 2 ^ (prec' - prec)
                   else frac / 2 ^ (prec - prec') in
      join_bits prec' emax' (sign_bit prec emax b) (2 * emax' - 1)
        (Z.lor frac' (2 ^ (prec' - 2)))
  | S754_finite s m e =>
      bits_of_float prec' emax'
        (binary_normalize prec' emax' (cond_Zopp s (Zpos m)) e s) 0
  | x => bits_of_float prec' emax' x 0
  end.

(** A float to an integer of [width] bits: truncation towards zero; the
    most negative integer for a NaN, an infinity and a number out of
    range. *)
Definition Z_of_float (width : Z) (x : spec_float) : Z :=
  match x with
  | S754_zero _ => 0
  | S754_finite s m e =>
      let a := if 0 <=? e then Zpos m * 2 ^ e else Zpos m / 2 ^ (- e) in
      let v := if s then - a else a in
      if (- 2 ^ (width - 1) <=? v) && (v <? 2 ^ (width - 1)) then v
      else - 2 ^ (width - 1)
  | _ => - 2 ^ (width - 1)
  end.

(** The bit pattern of the number [v] after its conversion to [dt]. *)
Definition to_bits (dt : dtype) (v : number) : Z :=
  match dt, v with
  | int32, Int z | int64, Int z => z
  | int32, Float32 b => Z_of_float 32 (float_of_bits 24 128 b)
  | int32, Float64 b => Z_of_float 32 (float_of_bits 53 1024 b)
  | int64, Float32 b => Z_of_float 64 (float_of_bits 24 128 b)
  | int64, Float64 b => Z_of_float 64 (float_of_bits 53 1024 b)
  | float32, Int z => float_of_Z 24 128 z
  | float32, Float32 b => b
  | float32, Float64 b => convert 53 1024 24 128 b
  | float64, Int z => float_of_Z 53 1024 z
  | float64, Float32 b => convert 24 128 53 1024 b
  | float64, Float64 b => b
  end.

Definition of_bits (dt : dtype) (b : Z) : number :=
  match dt with
  | int32 => Int (signed 32 b)
  | int64 => Int (signed 64 b)
  | float32 => Float32 b
  | float64 => Float64 b
  end.

Definition numbers : Scalars :=
  {| scalar := number;
     encode := fun dt v => le_bytes (Z.to_nat (np_itemsize dt)) (to_bits dt v);
     decode := fun dt bs => of_bits dt (le_value bs);
     int := Int;
     encode_length := fun dt v =>
       le_bytes_length (Z.to_nat (np_itemsize dt)) (to_bits dt v) |}.

(** ** A sample backend, matrix and array *)

Definition sample_backend : Backend :=
  {| alignb := 16; fpdtype := float32;
     compact_shape := fun shp =>
       match shp with
       | [] => (1, 1)
       | [n] => (1, n)
       | n :: rest => (n, fold_right Z.mul 1 rest)
       end |}.

(** An [int32] matrix of logical shape 2 x 3, rows padded to 4 elements,
    placed 64 bytes into an allocation at address 4096. *)
Definition sample_matrix : @CUDAMatrixBase numbers :=
  @MkMatrix numbers sample_backend [2; 3] ["align"%string] int32 4 2 3 4 3
    None (Some 4096) (Some 4160) (Some 16).

Definition sample_array : @ndarray numbers :=
  @NDArray numbers [2; 3] int32
    (map Int [1; -2; 3; 40000; -50000; 2147483647]).

Definition wrong_shape_array : @ndarray numbers :=
  @NDArray numbers [3; 2] int32 (map Int [1; 2; 3; 4; 5; 6]).

(** A [float32] array: 1.5, -2.0, 16777216.0 and 0.0. *)
Definition sample_floats : @ndarray numbers :=
  @NDArray numbers [2; 2] float32
    [Float32 1069547520; Float32 3221225472; Float32 1266679808; Float32 0].

Definition sample_memory : memory := fun _ => xff.

(** [sample_matrix] before its placement, a second matrix placed right
    after the block of [sample_matrix], and a backend whose alignment is
    smaller than an item. *)
Definition sample_unplaced : @CUDAMatrixBase numbers :=
  @MkMatrix numbers sample_backend [2; 3] ["align"%string] int32 4 2 3 4 3
    (Some None) None None None.

Definition second_matrix : @CUDAMatrixBase numbers :=
  @MkMatrix numbers sample_backend [2; 3] ["align"%string] int32 4 2 3 4 3
    None (Some 4096) (Some 4192) (Some 24).

Definition narrow_backend : Backend :=
  {| alignb := 2; fpdtype := float32;
     compact_shape := compact_shape sample_backend |}.

End Matrix.

(* ===================================================================== *)
(** * Indexed views: [CUDAView] *)
(* ===================================================================== *)

Module View.
Import Matrix.

Local Open Scope Z_scope.

(** A reference to a matrix object; [matmap == m] compares references. *)
Definition objref : Type := nat.

(** The value that ends up in an [np.int32] element: the low 32 bits, in
    two's complement. *)
Definition wrap32 (z : Z) : Z := (z + 2 ^ 31) mod 2 ^ 32 - 2 ^ 31.

(** The range of a C long, which holds the elements of NumPy's default
    integer type and the Python integers that NumPy takes as such. *)
Definition int64_range (z : Z) : Prop := - 2 ^ 63 <= z < 2 ^ 63.

(** The array of matrices of a view: its shape, and its elements in C
    order. *)
Record objarray : Type := ObjArray {
  oshape : list Z;
  oitems : list objref
}.

(** The row/column map, an array of NumPy's default integer type, of 64
    bits: [rcshape] is its shape without the last axis, of length two; [rc]
    holds the pairs [(rcmap[..., 0], rcmap[..., 1])], in C order. *)
Record rcarray : Type := RCArray {
  rcshape : list Z;
  rc : list (Z * Z)
}.

(** The indices, one for every axis of an array of shape [shp], of the
    element at position [p] in C order. *)
Fixpoint unravel (shp : list Z) (p : Z) : list Z :=
  match shp with
  | [] => []
  | _ :: rest => p / size rest :: unravel rest (p mod size rest)
  end.

(** The positions of [m] in a list, in order. *)
Definition positions (items : list objref) (m : objref) : list nat :=
  filter (fun i => match nth_error items i with
                   | Some m' => Nat.eqb m' m
                   | None => false
                   end)
         (seq 0 (List.length items)).

(** The axes that [np.where] sees: an array without axes counts as one of
    shape [(1,)]. *)
Definition where_shape (matmap : objarray) : list Z :=
  match oshape matmap with
  | [] => [1]
  | shp => shp
  end.

(** [np.where(matmap == m)]: the elements of [matmap] that are [m], in C
    order, each given by its indices along the axes of [matmap]. *)
Definition where_eq (matmap : objarray) (m : objref) : list (list Z) :=
  map (fun p => unravel (where_shape matmap) (Z.of_nat p))
      (positions (oitems matmap) m).

(** The elements that the indices [idx] select in an array of shape [shp]:
    the position of the first one in C order, and their number, which is one
    when there is an index for every axis and that of a sub-array when the
    last axes have none.  There is no selection, [None], when there are more
    indices than axes or an index is not below the length of its axis. *)
Fixpoint select (shp idx : list Z) : option (Z * Z) :=
  match idx, shp with
  | [], _ => Some (0, size shp)
  | _ :: _, [] => None
  | i :: idx', n :: shp' =>
      if (0 <=? i) && (i <? n) then
        match select shp' idx' with
        | Some (start, count) => Some (i * size shp' + start, count)
        | None => None
        end
      else None
  end.

(** The positions of the elements that the index tuples [ix] select in an
    array of shape [shp], tuple after tuple; [IndexError] when one of them
    selects nothing. *)
Fixpoint selected (shp : list Z) (ix : list (list Z)) : list nat + exn :=
  match ix with
  | [] => inl []
  | idx :: ix' =>
      match select shp idx with
      | None => inr (IndexError "index out of bounds")
      | Some (start, count) =>
          match selected shp ix' with
          | inr e => inr e
          | inl ps => inl (seq (Z.to_nat start) (Z.to_nat count) ++ ps)
          end
      end
  end.

(** [a[ix]] for an array [a] of shape [shp] and a tuple [ix] of [naxes]
    index arrays, as [np.where] returns it: the positions of the elements
    that are selected.  More index arrays than [a] has axes raise
    [IndexError] also when the index arrays are empty. *)
Definition getitem (shp : list Z) (naxes : nat) (ix : list (list Z))
  : list nat + exn :=
  if (List.length shp <? naxes)%nat then inr (IndexError "too many indices")
  else selected shp ix.

(** [offmap[ix] += off + r[ix]*ld] on an [np.int32] array, [ps] being the
    positions that [ix] selects: every selected element gets the low 32 bits
    of the sum.  The Python integers [off] and [ld] and the elements of [r]
    are taken in [int64_range], where the sum is computed in 64 bits and cut
    to 32. *)
Definition add_at (ps : list nat) (off ld : Z) (r offmap : list Z) : list Z :=
  map (fun po => if existsb (Nat.eqb (fst po)) ps
                 then wrap32 (snd po + (off + nth (fst po) r 0 * ld))
                 else snd po)
      (combine (seq 0 (List.length offmap)) offmap).

Section Views.
Context {numpy : Scalars}.

(** The matrix objects behind the references. *)
Variable heap : objref -> CUDAMatrixBase.

(** The loop [for m in self._mats] of the constructor; [shp] is the shape
    of [offmap] and of [r].  The statement [offmap[ix] += ...] looks up
    [offmap[ix]] before it evaluates [m.offset]. *)
Fixpoint offsets_loop (mats : list objref) (matmap : objarray)
  (shp : list Z) (r offmap : list Z) : list Z + exn :=
  match mats with
  | [] => inl offmap
  | m :: rest =>
      let ix := where_eq matmap m in
      match getitem shp (List.length (where_shape matmap)) ix with
      | inr e => inr e
      | inl ps =>
          match offset (heap m) with
          | None => inr (AttributeError "offset")
          | Some off =>
              offsets_loop rest matmap shp r
                (add_at ps off (leaddim (heap m)) r offmap)
          end
      end
  end.

(** An [np.int32] array with the given elements. *)
Definition int32_array (shp : list Z) (l : list Z) : ndarray :=
  {| shape := shp; arr_dtype := int32; data := map int l |}.

Record CUDAView : Type := MkView {
  view_nrow : Z;
  view_ncol : Z;
  vlen : Z;
  _mats : list objref;
  mapping : CUDAMatrixBase;
  strides : CUDAMatrixBase
}.

(** What [base.View.__init__], which is not in this module, leaves in the
    object: [self.nrow], [self.ncol] and [self._mats]. *)
Definition view_base : Type := (Z * Z * list objref)%type.

(** The constructor of the base class, as the backend package provides
    it. *)
Variable base_init : objarray -> view_base + exn.

(** [CUDAView.__init__]; next to the view, the two requests made to
    [backend.malloc]. *)
Definition __init__ (backend : Backend) (matmap : objarray) (rcmap : rcarray)
  (stridemap : ndarray) (vlen : Z) (tags : list string)
  : (CUDAView * list malloc_request) + exn :=
  match base_init matmap with
  | inr e => inr e
  | inl (nrow, ncol, mats) =>
      let r := map fst (rc rcmap) in
      let c := map snd (rc rcmap) in
      let offmap := map wrap32 c in
      match offsets_loop mats matmap (rcshape rcmap) r offmap with
      | inr e => inr e
      | inl offmap =>
          let shape := [nrow; ncol] in
          match Matrix.__init__ backend int32 shape
                  (Some (int32_array (rcshape rcmap) offmap)) None tags with
          | inr e => inr e
          | inl (mapping, req1) =>
              match Matrix.__init__ backend int32 shape (Some stridemap)
                      None tags with
              | inr e => inr e
              | inl (strides, req2) =>
                  inl ({| view_nrow := nrow; view_ncol := ncol;
                          vlen := vlen; _mats := mats;
                          mapping := mapping; strides := strides |},
                       [req1; req2])
              end
          end
      end
  end.

End Views.

(** Modelled from the spec: [base.View.__init__] is not part of this
    module.  It records the shape of the view, which is that of [matmap],
    and the matrices that the view refers to, each of them once (spec 3,
    4.4). *)
Definition base_View__init__ (matmap : objarray)
  : (Z * Z * list objref) + exn :=
  match oshape matmap with
  | [nrow; ncol] => inl (nrow, ncol, nodup Nat.eq_dec (oitems matmap))
  | _ => inr (ValueError "need more than 1 value to unpack")
  end.

(** ** A sample view *)

(** A heap whose matrices have not been placed. *)
Definition unplaced_heap (m : objref) : @CUDAMatrixBase numbers :=
  sample_unplaced.

(** A heap of two matrices in one allocation. *)
Definition shared_heap (m : objref) : @CUDAMatrixBase numbers :=
  match m with
  | O => sample_matrix
  | _ => second_matrix
  end.

(** One matrix, placed [2^31] elements into its allocation. *)
Definition far_matrix : @CUDAMatrixBase numbers :=
  @MkMatrix numbers sample_backend [4; 4] [] float32 4 4 4 4 4 None
    (Some 4096) (Some 8589938688) (Some 2147483648).

Definition sample_heap (m : objref) : @CUDAMatrixBase numbers :=
  match m with
  | O => sample_matrix
  | _ => far_matrix
  end.

Definition sample_strides : @ndarray numbers :=
  @NDArray numbers [1; 2] int32 (map Int [4; 4]).

(** A view of two elements: row 1, column 2 of [sample_matrix], and row 0,
    column 0 of [far_matrix]. *)
Definition sample_matmap : objarray := ObjArray [1; 2] [0%nat; 1%nat].
Definition sample_rcmap : rcarray := RCArray [1; 2] [(1, 2); (0, 0)].

(** The same two matrices in an array of shape 2 x 1, which does not fit
    the row/column map of shape 1 x 2, over a heap whose second matrix has
    not been placed. *)
Definition tall_matmap : objarray := ObjArray [2; 1] [0%nat; 1%nat].

Definition half_placed_heap (m : objref) : @CUDAMatrixBase numbers :=
  match m with
  | O => sample_matrix
  | _ => sample_unplaced
  end.

End View.

(* ===================================================================== *)
(** * Laws of the method monad *)
(* ===================================================================== *)

Module EffFacts.

Section Laws.
Context {St Ev : Type}.

Lemma bind_assoc {A B C} (m : M St Ev A) (f : A -> M St Ev B)
  (g : B -> M St Ev C) (s : St) :
  bind (bind m f) g s = bind m (fun a => bind (f a) g) s.
Proof.
  unfold bind. destruct (m s) as [[a|e] s1 ev1]; [|reflexivity].
  destruct (f a s1) as [[b|e] s2 ev2]; [|reflexivity].
  destruct (g b s2) as [r s3 ev3]. now rewrite app_assoc.
Qed.

Lemma bind_ret_l {A B} (a : A) (f : A -> M St Ev B) (s : St) :
  bind (ret a) f s = f a s.
Proof. unfold bind, ret. now destruct (f a s). Qed.

Lemma bind_ret_r (m : M St Ev unit) (s : St) :
  bind m (fun _ => ret tt) s = m s.
Proof.
  unfold bind, ret. destruct (m s) as [[[]|e] s1 ev1]; [|reflexivity].
  now rewrite app_nil_r.
Qed.

Lemma bind_ext {A B} (m : M St Ev A) (f g : A -> M St Ev B) (s : St) :
  (forall a s', f a s' = g a s') -> bind m f s = bind m g s.
Proof.
  intros H. unfold bind. destruct (m s) as [[a|e] s1 ev1]; [|reflexivity].
  now rewrite H.
Qed.

Lemma bind_congr {A B} (m m' : M St Ev A) (f : A -> M St Ev B) (s : St) :
  m s = m' s -> bind m f s = bind m' f s.
Proof. intros H. unfold bind. now rewrite H. Qed.

Lemma bind_ext_at {A B} (m : M St Ev A) (f g : A -> M St Ev B) (s : St) :
  (forall a, value (m s) = inl a ->
             f a (final (m s)) = g a (final (m s))) ->
  bind m f s = bind m g s.
Proof.
  intros H. unfold bind.
  destruct (m s) as [[a|e] s1 ev1]; [|reflexivity].
  simpl in H. now rewrite (H a eq_refl).
Qed.

(** What a sequence of two calls returns, reaches and emits. *)
Lemma bind_ok {A B} (m : M St Ev A) (f : A -> M St Ev B) (s : St) a :
  value (m s) = inl a ->
  bind m f s =
  Result (value (f a (final (m s)))) (final (f a (final (m s))))
         (emitted (m s) ++ emitted (f a (final (m s)))).
Proof.
  unfold bind. destruct (m s) as [[a'|e] s1 ev1]; simpl; [|discriminate].
  intros [= ->]. now destruct (f a s1).
Qed.

Lemma bind_raise {A B} (m : M St Ev A) (f : A -> M St Ev B) (s : St) e :
  value (m s) = inr e ->
  bind m f s = Result (inr e) (final (m s)) (emitted (m s)).
Proof.
  unfold bind. destruct (m s) as [[a'|e'] s1 ev1]; simpl; [discriminate|].
  now intros [= ->].
Qed.

Lemma bind_post {A B} (Q P : St -> Prop) (m : M St Ev A)
  (f : A -> M St Ev B) (s : St) :
  Q (final (m s)) -> (forall s', Q s' -> P s') ->
  (forall a s', Q s' -> P (final (f a s'))) ->
  P (final (bind m f s)).
Proof.
  intros Hm Hq Hf. unfold bind.
  destruct (m s) as [[a|e] s1 ev1]; simpl in *.
  - specialize (Hf a s1 Hm). now destruct (f a s1).
  - now apply Hq.
Qed.

Lemma bind_preserves {A B} (P : St -> Prop) (m : M St Ev A)
  (f : A -> M St Ev B) (s : St) :
  P (final (m s)) -> (forall a s', P s' -> P (final (f a s'))) ->
  P (final (bind m f s)).
Proof. intros Hm Hf. now apply bind_post with (Q := P). Qed.

(** A property of the state kept by the body of a loop, under its test,
    is kept by the loop, however the loop ends. *)
Lemma while_preserves (P : St -> Prop) (cond : St -> bool)
  (body : M St Ev unit) :
  (forall s, P s -> cond s = true -> P (final (body s))) ->
  forall n s, P s -> P (final (while n cond body s)).
Proof.
  intros Hbody n. induction n as [|n IH]; intros s Hs; simpl; [exact Hs|].
  destruct (cond s) eqn:Hc; [|exact Hs].
  specialize (Hbody s Hs Hc). unfold bind.
  destruct (body s) as [[[]|e] s1 ev1]; simpl in *; [|exact Hbody].
  specialize (IH s1 Hbody).
  destruct (while n cond body s1) as [r s2 ev2]. exact IH.
Qed.

Section Fuel.
Variables (mu : St -> nat) (cond : St -> bool) (body : M St Ev unit).
Hypothesis cond_pos : forall s, cond s = true -> 0 < mu s.
Hypothesis body_dec : forall s, cond s = true ->
  value (body s) = inl tt -> mu (final (body s)) < mu s.

(** Fuel beyond the measure is never used. *)
Lemma while_fuel n : forall m s, mu s <= n -> mu s <= m ->
  while n cond body s = while m cond body s.
Proof.
  induction n as [|n IH]; intros m s Hn Hm.
  - destruct m as [|m]; [reflexivity|]. simpl.
    destruct (cond s) eqn:Hc; [|reflexivity].
    apply cond_pos in Hc. lia.
  - simpl. destruct (cond s) eqn:Hc.
    + destruct m as [|m]; [apply cond_pos in Hc; lia|]. simpl. rewrite Hc.
      pose proof (body_dec s Hc) as Hd. unfold bind.
      destruct (body s) as [[[]|e] s1 ev1]; simpl in *; [|reflexivity].
      specialize (Hd eq_refl).
      rewrite (IH m s1) by lia. reflexivity.
    + destruct m as [|m]; [reflexivity|]. simpl. now rewrite Hc.
Qed.

Lemma while_unfold s : cond s = true ->
  while (mu s) cond body s =
  bind body (fun _ s' => while (mu s') cond body s') s.
Proof.
  intros Hc. pose proof (cond_pos s Hc) as Hpos.
  destruct (mu s) as [|k] eqn:Hk; [lia|]. simpl. rewrite Hc.
  pose proof (body_dec s Hc) as Hd. unfold bind.
  destruct (body s) as [[[]|e] s1 ev1]; simpl in *; [|reflexivity].
  specialize (Hd eq_refl).
  rewrite (while_fuel k (mu s1) s1) by lia. reflexivity.
Qed.

Lemma while_done s : cond s = false ->
  while (mu s) cond body s = ret tt s.
Proof.
  intros Hc. destruct (mu s); simpl; [reflexivity|now rewrite Hc].
Qed.

(** With the measure as fuel, a loop that returns has left by its
    test. *)
Lemma while_exit n : forall s, mu s <= n ->
  value (while n cond body s) = inl tt ->
  cond (final (while n cond body s)) = false.
Proof.
  induction n as [|n IH]; intros s Hn Hv; simpl in *.
  - destruct (cond s) eqn:Hc; [apply cond_pos in Hc; lia|reflexivity].
  - destruct (cond s) eqn:Hc; simpl; [|exact Hc].
    pose proof (body_dec s Hc) as Hd. unfold bind in *.
    destruct (body s) as [[[]|e] s1 ev1]; simpl in *; [|discriminate].
    specialize (Hd eq_refl). specialize (IH s1).
    destruct (while n cond body s1) as [r s2 ev2]; simpl in *.
    apply IH; [lia|exact Hv].
Qed.
End Fuel.
End Laws.

End EffFacts.

(* ===================================================================== *)
(** * The queue: what each method does *)
(* ===================================================================== *)

Module QueueFacts.
Import Queue EffFacts.

Ltac by_class k :=
  destruct k as [? [] ?]; simpl in *; try discriminate; try reflexivity.

Lemma exec_item_kernel item rtargs q :
  is_kernel item = true ->
  _exec_item item rtargs q =
  Result (inl tt)
    (set_last (Some item)
       (if ismpikernel (Some item)
        then set_mpireqs (_mpireqs q ++ kposts item) q else q))
    [Run item rtargs].
Proof. intros H. by_class item. Qed.

Lemma exec_item_other item rtargs q :
  is_kernel item = false ->
  _exec_item item rtargs q =
  Result (inr (ValueError "Non compute/MPI kernel in queue")) q [].
Proof. intros H. by_class item. Qed.

Lemma wait_spec q :
  _wait q =
  Result (inl tt)
    (set_last None (if ismpikernel (_last q) then set_mpireqs [] q else q))
    (if iscomputekernel (_last q)
     then [Wait [synchronize _stream_comp; synchronize _stream_copy]]
     else if ismpikernel (_last q) then [Wait [Waitall (_mpireqs q)]]
     else []).
Proof.
  unfold _wait. destruct q as [[k|] reqs items]; [|reflexivity].
  by_class k.
Qed.

Lemma exec_next_empty q :
  _items q = [] ->
  _exec_next q = Result (inr (IndexError "pop from an empty deque")) q [].
Proof. intros H. unfold _exec_next, bind, popleft. now rewrite H. Qed.

(** [_exec_next] on a non-empty deque: the optional wait, then the item. *)
Lemma exec_next_cons q item rtargs rest :
  _items q = (item, rtargs) :: rest ->
  _exec_next q =
  ((if _at_sequence_point (set_items rest q) item then _wait else ret tt) ;;
   _exec_item item rtargs) (set_items rest q).
Proof.
  intros H. unfold _exec_next, popleft, bind. rewrite H. cbv beta iota.
  destruct (_at_sequence_point (set_items rest q) item).
  - destruct (_wait (set_items rest q)) as [[[]|e] s1 ev1]; [|reflexivity].
    destruct (_exec_item item rtargs s1). reflexivity.
  - unfold ret. destruct (_exec_item item rtargs (set_items rest q)).
    reflexivity.
Qed.

Lemma nowait_body_cons q item rtargs rest :
  _items q = (item, rtargs) :: rest ->
  nowait_body q = _exec_item item rtargs (set_items rest q).
Proof.
  intros H. unfold nowait_body, popleft, bind. rewrite H.
  destruct (_exec_item item rtargs (set_items rest q)). reflexivity.
Qed.

Lemma at_sequence_point_last q q' item :
  _last q = _last q' ->
  _at_sequence_point q item = _at_sequence_point q' item.
Proof. unfold _at_sequence_point. now intros ->. Qed.

(** Without a sequence point, [_exec_next] is the body of the loop of
    [_exec_nowait]. *)
Lemma exec_next_nowait q :
  nowait_cond q = true -> _exec_next q = nowait_body q.
Proof.
  unfold nowait_cond. destruct (_items q) as [|[item rtargs] rest] eqn:H;
    [discriminate|]. intros Hc.
  rewrite (exec_next_cons q _ _ _ H), (nowait_body_cons q _ _ _ H).
  rewrite (at_sequence_point_last (set_items rest q) q item eq_refl).
  apply negb_true_iff in Hc. rewrite Hc.
  exact (bind_ret_l tt (fun _ => _exec_item item rtargs) _).
Qed.

Lemma exec_item_items item rtargs q :
  _items (final (_exec_item item rtargs q)) = _items q.
Proof.
  destruct (is_kernel item) eqn:H.
  - rewrite exec_item_kernel by exact H. cbn [final].
    destruct (ismpikernel (Some item)); reflexivity.
  - now rewrite exec_item_other.
Qed.

Lemma wait_items q : _items (final (_wait q)) = _items q.
Proof.
  rewrite wait_spec. cbn [final].
  destruct (ismpikernel (_last q)); reflexivity.
Qed.

Lemma exec_next_items q item rtargs rest :
  _items q = (item, rtargs) :: rest ->
  _items (final (_exec_next q)) = rest.
Proof.
  intros H. rewrite (exec_next_cons q _ _ _ H).
  destruct (_at_sequence_point (set_items rest q) item).
  - rewrite (bind_ok _wait (fun _ => _exec_item item rtargs) _ tt)
      by now rewrite wait_spec.
    simpl. now rewrite exec_item_items, wait_items.
  - rewrite bind_ret_l. now rewrite exec_item_items.
Qed.

Lemma nowait_body_items q item rtargs rest :
  _items q = (item, rtargs) :: rest ->
  _items (final (nowait_body q)) = rest.
Proof.
  intros H. rewrite (nowait_body_cons q _ _ _ H). now rewrite exec_item_items.
Qed.

Lemma nonzero_len q : __nonzero__ q = true -> 0 < len q.
Proof.
  unfold __nonzero__, len. destruct (_items q); [discriminate|simpl; lia].
Qed.

Lemma nowait_cond_len q : nowait_cond q = true -> 0 < len q.
Proof.
  unfold nowait_cond, len. destruct (_items q); [discriminate|simpl; lia].
Qed.

Lemma exec_next_dec q :
  __nonzero__ q = true -> value (_exec_next q) = inl tt ->
  len (final (_exec_next q)) < len q.
Proof.
  unfold __nonzero__, len.
  destruct (_items q) as [|[item rtargs] rest] eqn:H; [discriminate|].
  intros _ _. rewrite (exec_next_items q _ _ _ H). simpl. lia.
Qed.

Lemma nowait_body_dec q :
  nowait_cond q = true -> value (nowait_body q) = inl tt ->
  len (final (nowait_body q)) < len q.
Proof.
  unfold nowait_cond, len.
  destruct (_items q) as [|[item rtargs] rest] eqn:H; [discriminate|].
  intros _ _. rewrite (nowait_body_items q _ _ _ H). simpl. lia.
Qed.

Lemma steps_unfold q :
  __nonzero__ q = true -> steps q = (_exec_next ;; steps) q.
Proof.
  intros H. unfold steps at 1.
  apply (while_unfold len __nonzero__ _exec_next nonzero_len exec_next_dec).
  exact H.
Qed.

Lemma steps_done q : __nonzero__ q = false -> steps q = ret tt q.
Proof. intros H. unfold steps. now apply while_done. Qed.

Lemma exec_nowait_unfold q :
  nowait_cond q = true -> _exec_nowait q = (nowait_body ;; _exec_nowait) q.
Proof.
  intros H.
  apply (while_unfold len nowait_cond nowait_body
           nowait_cond_len nowait_body_dec).
  exact H.
Qed.

Lemma exec_nowait_done q : nowait_cond q = false -> _exec_nowait q = ret tt q.
Proof.
  intros H. unfold _exec_nowait. now apply (while_done len).
Qed.

Lemma nowait_cond_nonzero q : nowait_cond q = true -> __nonzero__ q = true.
Proof.
  unfold nowait_cond, __nonzero__. now destruct (_items q) as [|[] ?].
Qed.

(** Draining without a wait first, then running the loop of [run], is the
    loop of [run]: the drained items are those that [_exec_next] executes
    without a wait. *)
Lemma exec_nowait_steps q : (_exec_nowait ;; steps) q = steps q.
Proof.
  remember (len q) as n eqn:Hn. assert (len q <= n) as Hle by lia.
  clear Hn. revert q Hle.
  induction n as [|n IH]; intros q Hle.
  - rewrite (bind_congr _exec_nowait (ret tt)).
    + apply bind_ret_l.
    + apply exec_nowait_done. destruct (nowait_cond q) eqn:Hc; [|reflexivity].
      apply nowait_cond_len in Hc. lia.
  - destruct (nowait_cond q) eqn:Hc.
    + rewrite (bind_congr _exec_nowait (nowait_body ;; _exec_nowait))
        by now apply exec_nowait_unfold.
      rewrite bind_assoc.
      rewrite (steps_unfold q (nowait_cond_nonzero q Hc)).
      rewrite (bind_congr _exec_next nowait_body)
        by now apply exec_next_nowait.
      apply bind_ext_at. intros [] Hv. apply IH.
      pose proof (nowait_body_dec q Hc Hv). lia.
    + rewrite (bind_congr _exec_nowait (ret tt))
        by now apply exec_nowait_done.
      apply bind_ret_l.
Qed.

(** ** The invariant of a queue *)

Lemma Inv_init : Inv __init__.
Proof. split; [exact I|]. intros H. now contradiction H. Qed.

Lemma Inv_set_items l q : Inv q -> Inv (set_items l q).
Proof. intros H. exact H. Qed.

Lemma Inv_lshift items q : Inv q -> Inv (final (__lshift__ items q)).
Proof. intros H. exact H. Qed.

Lemma Inv_wait q : Inv q -> Inv (final (_wait q)).
Proof.
  intros [Hl Hr]. rewrite wait_spec. cbn [final]. split; [exact I|].
  unfold requests_tracked in *. cbn.
  destruct (ismpikernel (_last q)) eqn:Hm; cbn; intros H.
  - now contradiction H.
  - apply Hr in H. congruence.
Qed.

Lemma wait_last q : _last (final (_wait q)) = None.
Proof. rewrite wait_spec. reflexivity. Qed.

Lemma at_sequence_point_None q item :
  _last q = None -> _at_sequence_point q item = false.
Proof. unfold _at_sequence_point. now intros ->. Qed.

Lemma Inv_exec_item item rtargs q :
  Inv q -> _at_sequence_point q item = false ->
  Inv (final (_exec_item item rtargs q)).
Proof.
  intros [Hl Hr] Hs. destruct (is_kernel item) eqn:Hk.
  - rewrite exec_item_kernel by exact Hk. cbn [final]. split.
    + unfold last_is_kernel. destruct (ismpikernel (Some item)); exact Hk.
    + unfold requests_tracked in *.
      destruct (ismpikernel (Some item)) eqn:Hm; cbn; [intros _; exact Hm|].
      intros H. apply Hr in H. unfold _at_sequence_point in Hs.
      rewrite H, Hm in Hs. rewrite andb_true_l, orb_true_r in Hs.
      discriminate Hs.
  - rewrite exec_item_other by exact Hk. now split.
Qed.

Lemma Inv_exec_next q : Inv q -> Inv (final (_exec_next q)).
Proof.
  intros H. destruct (_items q) as [|[item rtargs] rest] eqn:Hi.
  - now rewrite exec_next_empty.
  - rewrite (exec_next_cons q _ _ _ Hi).
    destruct (_at_sequence_point (set_items rest q) item) eqn:Hs.
    + apply bind_post with (Q := fun s => Inv s /\ _last s = None).
      * split; [apply Inv_wait; exact H|apply wait_last].
      * now intros s' [Hs' _].
      * intros [] s' [Hs' Hn]. apply Inv_exec_item; [exact Hs'|].
        now apply at_sequence_point_None.
    + rewrite bind_ret_l. now apply Inv_exec_item.
Qed.

Lemma Inv_nowait_body q :
  Inv q -> nowait_cond q = true -> Inv (final (nowait_body q)).
Proof.
  intros H Hc. unfold nowait_cond in Hc.
  destruct (_items q) as [|[item rtargs] rest] eqn:Hi; [discriminate|].
  rewrite (nowait_body_cons q _ _ _ Hi). apply Inv_exec_item; [exact H|].
  apply negb_true_iff in Hc. exact Hc.
Qed.

Lemma Inv_exec_nowait q : Inv q -> Inv (final (_exec_nowait q)).
Proof.
  intros H. unfold _exec_nowait.
  apply while_preserves; [apply Inv_nowait_body|exact H].
Qed.

Lemma Inv_steps q : Inv q -> Inv (final (steps q)).
Proof.
  intros H. unfold steps.
  apply while_preserves; [intros s Hs _; now apply Inv_exec_next|exact H].
Qed.

Lemma Inv_run q : Inv q -> Inv (final (run q)).
Proof.
  intros H. unfold run. apply bind_preserves.
  - now apply Inv_steps.
  - intros _ s' Hs'. now apply Inv_wait.
Qed.

Lemma Inv_mod items q : Inv q -> Inv (final (__mod__ items q)).
Proof.
  intros H. unfold __mod__. apply bind_preserves; [now apply Inv_run|].
  intros _ s1 H1. apply bind_preserves; [now apply Inv_lshift|].
  intros _ s2 H2. now apply Inv_run.
Qed.

Lemma Inv_blocking_step q : Inv q -> Inv (final (blocking_step q)).
Proof.
  intros H. unfold blocking_step. destruct (__nonzero__ q); [|exact H].
  apply bind_preserves; [now apply Inv_exec_next|].
  intros _ s' Hs'. now apply Inv_exec_nowait.
Qed.

(** A property kept by the body is kept for every queue of the list,
    also when the loop is left by an exception. *)
Lemma for_each_preserves (P : CUDAQueue -> Prop) (body : Method unit) :
  (forall q, P q -> P (final (body q))) ->
  forall queues i, Forall P queues ->
  Forall P (final (for_each body i queues)).
Proof.
  intros Hb queues. induction queues as [|q rest IH]; intros i H; simpl.
  - constructor.
  - inversion H as [|? ? Hq Hrest]; subst.
    specialize (Hb q Hq). destruct (body q) as [[[]|e] q' evs]; simpl in *.
    + specialize (IH (S i) Hrest).
      destruct (for_each body (S i) rest) as [r rest' evs']; simpl in *.
      now constructor.
    + now constructor.
Qed.

Lemma Inv_runall queues :
  Forall Inv queues -> Forall Inv (final (runall queues)).
Proof.
  intros H. unfold runall. apply bind_preserves.
  - apply for_each_preserves; [apply Inv_exec_nowait|exact H].
  - intros _ s1 H1. apply bind_preserves.
    + apply while_preserves; [|exact H1].
      intros s Hs _. apply for_each_preserves; [apply Inv_blocking_step|].
      exact Hs.
    + intros _ s2 H2. apply for_each_preserves; [apply Inv_wait|exact H2].
Qed.

Lemma reachable_Inv q : reachable q -> Inv q.
Proof.
  induction 1 as [|q items _ IH|q _ IH|q _ IH|q _ IH|q _ IH|q items _ IH
                 |queues q _ IH Hin].
  - apply Inv_init.
  - now apply Inv_lshift.
  - now apply Inv_exec_next.
  - now apply Inv_exec_nowait.
  - now apply Inv_wait.
  - now apply Inv_run.
  - now apply Inv_mod.
  - assert (Forall Inv queues) as HF by (apply Forall_forall; exact IH).
    apply Inv_runall in HF. rewrite Forall_forall in HF. now apply HF.
Qed.

(** ** Queues that hold kernels only *)

Lemma launched_app evs evs' :
  launched (evs ++ evs') = launched evs ++ launched evs'.
Proof.
  induction evs as [|[item rtargs|calls] evs IH]; simpl; [reflexivity| |];
    now rewrite IH.
Qed.

Lemma waits_app evs evs' : waits (evs ++ evs') = waits evs ++ waits evs'.
Proof.
  induction evs as [|[item rtargs|calls] evs IH]; simpl; [reflexivity| |];
    now rewrite IH.
Qed.

Lemma launched_wait q : launched (emitted (_wait q)) = [].
Proof.
  rewrite wait_spec. cbn [emitted].
  destruct (iscomputekernel (_last q)); [reflexivity|].
  destruct (ismpikernel (_last q)); reflexivity.
Qed.

Lemma wait_ok q : value (_wait q) = inl tt.
Proof. now rewrite wait_spec. Qed.

Lemma wait_emitted_items l q :
  emitted (_wait (set_items l q)) = emitted (_wait q).
Proof. now rewrite !wait_spec. Qed.

(** [_exec_next] on a kernel: it returns, having waited if the item is at a
    sequence point, and having run the item. *)
Lemma exec_next_kernel q item rtargs rest :
  _items q = (item, rtargs) :: rest -> is_kernel item = true ->
  value (_exec_next q) = inl tt /\
  _items (final (_exec_next q)) = rest /\
  emitted (_exec_next q) =
    (if _at_sequence_point q item then emitted (_wait q) else [])
    ++ [Run item rtargs].
Proof.
  intros Hi Hk. split; [|split; [exact (exec_next_items q _ _ _ Hi)|]];
    rewrite (exec_next_cons q _ _ _ Hi);
    rewrite (at_sequence_point_last (set_items rest q) q item eq_refl);
    destruct (_at_sequence_point q item).
  - rewrite (bind_ok _wait (fun _ => _exec_item item rtargs) _ tt)
      by apply wait_ok.
    cbn [value]. now rewrite exec_item_kernel.
  - rewrite bind_ret_l. now rewrite exec_item_kernel.
  - rewrite (bind_ok _wait (fun _ => _exec_item item rtargs) _ tt)
      by apply wait_ok.
    cbn [emitted]. rewrite wait_emitted_items. now rewrite exec_item_kernel.
  - rewrite bind_ret_l. now rewrite exec_item_kernel.
Qed.

Lemma valid_items_cons q x rest :
  _items q = x :: rest -> valid_items q ->
  is_kernel (fst x) = true /\ Forall (fun x => is_kernel (fst x) = true) rest.
Proof.
  unfold valid_items. intros -> H. now inversion H.
Qed.

(** [_exec_nowait] on kernels returns after running a prefix of the deque,
    with no wait, and stops only at the end of the deque or in front of an
    item that is at a sequence point. *)
Lemma exec_nowait_valid q :
  valid_items q ->
  exists pre,
    _items q = pre ++ _items (final (_exec_nowait q)) /\
    value (_exec_nowait q) = inl tt /\
    emitted (_exec_nowait q) = runs pre /\
    nowait_cond (final (_exec_nowait q)) = false.
Proof.
  remember (len q) as n eqn:Hn. assert (len q <= n) as Hle by lia.
  clear Hn. revert q Hle.
  induction n as [|n IH]; intros q Hle Hv.
  - assert (nowait_cond q = false) as Hc.
    { destruct (nowait_cond q) eqn:Hc; [|reflexivity].
      apply nowait_cond_len in Hc. lia. }
    exists []. rewrite (exec_nowait_done q Hc). now cbn.
  - destruct (nowait_cond q) eqn:Hc.
    + rewrite (exec_nowait_unfold q Hc).
      pose proof Hc as Hc'. unfold nowait_cond in Hc'.
      destruct (_items q) as [|[item rtargs] rest] eqn:Hi; [discriminate|].
      destruct (valid_items_cons q _ _ Hi Hv) as [Hk Hrest]. cbn in Hk.
      pose proof (nowait_body_cons q _ _ _ Hi) as Hb.
      rewrite (exec_item_kernel _ _ _ Hk) in Hb.
      rewrite (bind_ok nowait_body (fun _ => _exec_nowait) q tt)
        by now rewrite Hb.
      rewrite Hb. cbn [final emitted value].
      match goal with |- context [_exec_nowait ?s] => set (q1 := s) end.
      assert (_items q1 = rest) as Hi1.
      { unfold q1. now destruct (ismpikernel (Some item)). }
      destruct (IH q1) as (pre & H1 & H2 & H3 & H4).
      * unfold len in *. rewrite Hi1. rewrite Hi in Hle. simpl in Hle. lia.
      * unfold valid_items. now rewrite Hi1.
      * exists ((item, rtargs) :: pre). rewrite Hi1 in H1.
        repeat split; [now rewrite H1|exact H2|now rewrite H3|exact H4].
    + exists []. rewrite (exec_nowait_done q Hc). now cbn.
Qed.

(** The loop of [run] on kernels returns, has called [run] on every item in
    the order of the deque, and leaves the deque empty. *)
Lemma steps_valid q :
  valid_items q ->
  value (steps q) = inl tt /\
  launched (emitted (steps q)) = _items q /\
  _items (final (steps q)) = [].
Proof.
  remember (len q) as n eqn:Hn. assert (len q <= n) as Hle by lia.
  clear Hn. revert q Hle.
  induction n as [|n IH]; intros q Hle Hv.
  - assert (_items q = []) as Hi.
    { unfold len in Hle. destruct (_items q); [reflexivity|simpl in Hle; lia]. }
    rewrite steps_done by (unfold __nonzero__; now rewrite Hi). now cbn.
  - destruct (_items q) as [|[item rtargs] rest] eqn:Hi.
    + rewrite steps_done by (unfold __nonzero__; now rewrite Hi). now cbn.
    + destruct (valid_items_cons q _ _ Hi Hv) as [Hk Hrest]. cbn in Hk.
      destruct (exec_next_kernel q _ _ _ Hi Hk) as (E1 & E2 & E3).
      rewrite steps_unfold by (unfold __nonzero__; now rewrite Hi).
      rewrite (bind_ok _exec_next (fun _ => steps) q tt) by exact E1.
      cbn [value final emitted].
      destruct (IH (final (_exec_next q))) as (S1 & S2 & S3).
      * unfold len in *. rewrite E2. rewrite Hi in Hle. simpl in Hle. lia.
      * unfold valid_items. now rewrite E2.
      * repeat split; [exact S1| |exact S3].
        rewrite launched_app, S2, E2, E3, launched_app.
        destruct (_at_sequence_point q item);
          [rewrite launched_wait|]; reflexivity.
Qed.

Lemma run_steps q : run q = (steps ;; _wait) q.
Proof. reflexivity. Qed.

(** [run] on kernels, from a state of the invariant: it returns, every item
    has been run in the order of the deque, and nothing is left pending or
    outstanding. *)
Lemma run_valid q :
  valid_items q -> Inv q ->
  value (run q) = inl tt /\
  launched (emitted (run q)) = _items q /\
  quiescent (final (run q)).
Proof.
  intros Hv HI. destruct (steps_valid q Hv) as (S1 & S2 & S3).
  rewrite run_steps.
  rewrite (bind_ok steps (fun _ => _wait) q tt) by exact S1.
  cbn [value final emitted]. split; [apply wait_ok|]. split.
  - now rewrite launched_app, S2, launched_wait, app_nil_r.
  - pose proof (Inv_steps q HI) as [_ Hr]. unfold quiescent.
    rewrite wait_items, wait_last. repeat split; [exact S3|].
    rewrite wait_spec. cbn [final].
    destruct (ismpikernel (_last (final (steps q)))) eqn:Hm; [reflexivity|].
    cbn. destruct (_mpireqs (final (steps q))) eqn:Hq; [reflexivity|].
    unfold requests_tracked in Hr. rewrite Hq in Hr.
    assert (false = true) by (rewrite <- Hm; now apply Hr). discriminate.
Qed.

(** ** Several queues *)

Lemma project_app i log log' :
  project i (log ++ log') = project i log ++ project i log'.
Proof. unfold project. now rewrite filter_app, map_app. Qed.

Lemma project_tag i j evs :
  project i (tag j evs) = if Nat.eqb j i then evs else [].
Proof.
  unfold project, tag. induction evs as [|e evs IH]; simpl.
  - now destruct (Nat.eqb j i).
  - destruct (Nat.eqb j i) eqn:E; simpl; [now rewrite IH|exact IH].
Qed.

(** Out of the log of a loop over the queues, the part of queue [k]. *)
Lemma project_for_each_log body queues : forall i k,
  project k (for_each_log body i queues) =
  if Nat.leb i k then
    match nth_error queues (k - i) with
    | Some q => emitted (body q)
    | None => []
    end
  else [].
Proof.
  induction queues as [|q rest IH]; intros i k; simpl.
  - destruct (Nat.leb i k); [|reflexivity]. now destruct (k - i).
  - rewrite project_app, project_tag, IH.
    destruct (Nat.eqb i k) eqn:E.
    + apply Nat.eqb_eq in E. subst k.
      assert (Nat.leb (S i) i = false) as -> by (apply Nat.leb_gt; lia).
      rewrite Nat.leb_refl, Nat.sub_diag. simpl. apply app_nil_r.
    + apply Nat.eqb_neq in E. cbn [app]. destruct (Nat.leb i k) eqn:L.
      * apply Nat.leb_le in L.
        assert (Nat.leb (S i) k = true) as -> by (apply Nat.leb_le; lia).
        replace (k - i) with (S (k - S i)) by lia. reflexivity.
      * apply Nat.leb_gt in L.
        assert (Nat.leb (S i) k = false) as -> by (apply Nat.leb_gt; lia).
        reflexivity.
Qed.

Lemma project_for_each_log_0 body queues k q :
  nth_error queues k = Some q ->
  project k (for_each_log body 0 queues) = emitted (body q).
Proof.
  intros H. rewrite project_for_each_log. simpl.
  now rewrite Nat.sub_0_r, H.
Qed.

(** A loop over the queues in which no call raises. *)
Lemma for_each_ok body queues : forall i,
  (forall q, In q queues -> value (body q) = inl tt) ->
  for_each body i queues =
  Result (inl tt) (map (fun q => final (body q)) queues)
         (for_each_log body i queues).
Proof.
  induction queues as [|q rest IH]; intros i H; simpl; [reflexivity|].
  pose proof (H q (or_introl eq_refl)) as Hq.
  destruct (body q) as [[[]|e] q' evs]; simpl in *; [|discriminate].
  rewrite IH by (intros q0 H0; apply H; now right). reflexivity.
Qed.

Lemma valid_items_suffix q q' pre :
  _items q = pre ++ _items q' -> valid_items q -> valid_items q'.
Proof.
  unfold valid_items. intros -> H. apply Forall_app in H. tauto.
Qed.

Lemma exec_nowait_len q :
  valid_items q -> len (final (_exec_nowait q)) <= len q.
Proof.
  intros Hv. destruct (exec_nowait_valid q Hv) as (pre & H & _).
  unfold len. apply (f_equal (@List.length _)) in H.
  rewrite length_app in H. lia.
Qed.

(** One turn of a queue in the loop of [runall], on kernels. *)
Lemma blocking_step_valid q :
  valid_items q ->
  value (blocking_step q) = inl tt /\
  valid_items (final (blocking_step q)) /\
  len (final (blocking_step q)) <= len q /\
  (__nonzero__ q = true -> len (final (blocking_step q)) < len q).
Proof.
  intros Hv. unfold blocking_step.
  destruct (__nonzero__ q) eqn:Hnz.
  - unfold __nonzero__ in Hnz.
    destruct (_items q) as [|[item rtargs] rest] eqn:Hi; [discriminate|].
    destruct (valid_items_cons q _ _ Hi Hv) as [Hk Hrest]. cbn in Hk.
    destruct (exec_next_kernel q _ _ _ Hi Hk) as (E1 & E2 & E3).
    rewrite (bind_ok _exec_next (fun _ => _exec_nowait) q tt) by exact E1.
    cbn [value final].
    assert (valid_items (final (_exec_next q))) as Hv1
      by (unfold valid_items; now rewrite E2).
    destruct (exec_nowait_valid _ Hv1) as (pre & H1 & H2 & _).
    pose proof (exec_nowait_len _ Hv1) as Hl.
    assert (len (final (_exec_next q)) < len q) as Hlt
      by (unfold len; rewrite E2, Hi; simpl; lia).
    repeat split; [exact H2|exact (valid_items_suffix _ _ _ H1 Hv1)|lia|lia].
  - cbn. repeat split; [exact Hv|lia|discriminate].
Qed.

Lemma pending_cons q queues : pending (q :: queues) = len q + pending queues.
Proof. reflexivity. Qed.

Lemma any_false_pending queues : any queues = false -> pending queues = 0.
Proof.
  induction queues as [|q rest IH]; [reflexivity|]. simpl.
  intros H. apply orb_false_iff in H as [Hq Hr]. rewrite pending_cons.
  rewrite (IH Hr). unfold __nonzero__ in Hq. unfold len.
  destruct (_items q); [reflexivity|discriminate].
Qed.

Lemma any_pending queues : any queues = true -> 0 < pending queues.
Proof.
  induction queues as [|q rest IH]; [discriminate|]. simpl.
  intros H. rewrite pending_cons. apply orb_true_iff in H as [Hq|Hr].
  - apply nonzero_len in Hq. lia.
  - apply IH in Hr. lia.
Qed.

Lemma pending_step queues :
  Forall valid_items queues ->
  pending (map (fun q => final (blocking_step q)) queues) <= pending queues /\
  (any queues = true ->
   pending (map (fun q => final (blocking_step q)) queues) < pending queues).
Proof.
  induction 1 as [|q rest Hq Hrest IH]; [split; [cbn; lia|discriminate]|].
  simpl map. rewrite !pending_cons.
  destruct (blocking_step_valid q Hq) as (_ & _ & Hle & Hlt).
  destruct IH as [IH1 IH2]. split; [lia|]. simpl.
  intros H. destruct (__nonzero__ q) eqn:Hnz.
  - specialize (Hlt eq_refl). lia.
  - simpl in H. specialize (IH2 H). lia.
Qed.

Lemma iterate_S_ok k m q :
  value (m q) = inl tt ->
  iterate (S k) m q =
  Result (value (iterate k m (final (m q))))
         (final (iterate k m (final (m q))))
         (emitted (m q) ++ emitted (iterate k m (final (m q)))).
Proof. intros H. exact (bind_ok m (fun _ => iterate k m) q tt H). Qed.

(** The loop of [runall] on kernels: it returns when no queue has an item
    left, every queue has taken the same number of turns, and the log holds,
    for every queue, what its turns emitted. *)
Lemma runall_loop_spec n : forall queues,
  Forall valid_items queues -> pending queues <= n ->
  exists k log,
    while n any (for_each blocking_step 0) queues =
      Result (inl tt)
        (map (fun q => final (iterate k blocking_step q)) queues) log /\
    (forall j q, nth_error queues j = Some q ->
       project j log = emitted (iterate k blocking_step q) /\
       value (iterate k blocking_step q) = inl tt /\
       __nonzero__ (final (iterate k blocking_step q)) = false).
Proof.
  assert (forall n queues, any queues = false ->
    exists k log,
      while n any (for_each blocking_step 0) queues =
        Result (inl tt)
          (map (fun q => final (iterate k blocking_step q)) queues) log /\
      (forall j q, nth_error queues j = Some q ->
         project j log = emitted (iterate k blocking_step q) /\
         value (iterate k blocking_step q) = inl tt /\
         __nonzero__ (final (iterate k blocking_step q)) = false)) as Hstop.
  { intros m queues Hany. exists 0, []. split.
    - cbn [iterate ret final]. rewrite map_id.
      destruct m; simpl; [reflexivity|now rewrite Hany].
    - intros j q Hj. cbn. repeat split.
      apply nth_error_In in Hj. unfold any in Hany.
      destruct (__nonzero__ q) eqn:Hq; [|reflexivity].
      assert (existsb __nonzero__ queues = true) as Ht
        by (apply existsb_exists; now exists q).
      congruence. }
  induction n as [|n IH]; intros queues Hv Hle.
  - apply Hstop. destruct (any queues) eqn:Hany; [|reflexivity].
    apply any_pending in Hany. lia.
  - destruct (any queues) eqn:Hany; [|now apply Hstop].
    assert (forall q, In q queues -> value (blocking_step q) = inl tt) as Hok.
    { intros q Hq. rewrite Forall_forall in Hv.
      now destruct (blocking_step_valid q (Hv q Hq)). }
    destruct (pending_step queues Hv) as [_ Hlt]. specialize (Hlt Hany).
    destruct (IH (map (fun q => final (blocking_step q)) queues))
      as (k & log & Hw & Hq).
    + apply Forall_map. rewrite Forall_forall in *. intros q Hin.
      now destruct (blocking_step_valid q (Hv q Hin)) as (_ & ? & _).
    + lia.
    + exists (S k), (for_each_log blocking_step 0 queues ++ log). split.
      * simpl while. rewrite Hany.
        rewrite (bind_ok (for_each blocking_step 0) _ queues tt)
          by now rewrite for_each_ok.
        rewrite (for_each_ok _ _ _ Hok). cbn [final emitted].
        rewrite Hw. cbn [value final emitted]. f_equal.
        rewrite map_map. apply map_ext_in. intros q Hin.
        now rewrite (iterate_S_ok k _ q (Hok q Hin)).
      * intros j q Hj.
        pose proof (Hok q (nth_error_In _ _ Hj)) as Hqok.
        destruct (Hq j (final (blocking_step q))) as (P1 & P2 & P3).
        { exact (map_nth_error (fun q => final (blocking_step q)) _ _ Hj). }
        rewrite (iterate_S_ok k _ q Hqok). cbn [value final emitted].
        repeat split; [|exact P2|exact P3].
        rewrite project_app, P1.
        now rewrite (project_for_each_log_0 _ _ _ _ Hj).
Qed.

(** Turns of the loop of [runall] that empty a queue are the loop of
    [run]. *)
Lemma iterate_steps k : forall q,
  value (iterate k blocking_step q) = inl tt ->
  __nonzero__ (final (iterate k blocking_step q)) = false ->
  iterate k blocking_step q = steps q.
Proof.
  induction k as [|k IH]; intros q Hv Hnz.
  - cbn in Hnz. now rewrite steps_done.
  - destruct (__nonzero__ q) eqn:Hq.
    + assert (blocking_step q = (_exec_next ;; _exec_nowait) q) as Hb
        by (unfold blocking_step; now rewrite Hq).
      cbn [iterate] in *.
      rewrite (bind_congr _ _ _ q Hb) in Hv, Hnz |- *.
      destruct (value ((_exec_next ;; _exec_nowait) q)) as [[]|e] eqn:Hs.
      * rewrite (bind_ok _ _ q tt Hs) in Hv, Hnz. cbn in Hv, Hnz.
        rewrite (bind_ext_at _ _ (fun _ => steps) q)
          by (intros [] _; now apply IH).
        rewrite bind_assoc.
        rewrite (bind_ext _exec_next _ (fun _ => steps) q)
          by (intros _ s'; apply exec_nowait_steps).
        symmetry. now apply steps_unfold.
      * rewrite (bind_raise _ _ q e Hs) in Hv. discriminate.
    + assert (blocking_step q = ret tt q) as Hb
        by (unfold blocking_step; now rewrite Hq).
      cbn [iterate] in *.
      rewrite (bind_congr _ _ _ q Hb) in Hv, Hnz |- *.
      rewrite bind_ret_l in Hv, Hnz |- *. now apply IH.
Qed.

(** What [runall] does on kernels, phase by phase. *)
Lemma runall_phases queues :
  Forall valid_items queues ->
  exists k log,
    let drained := map (fun q => final (_exec_nowait q)) queues in
    let emptied := map (fun q => final (iterate k blocking_step q)) drained in
    runall queues =
      Result (inl tt) (map (fun q => final (_wait q)) emptied)
        (for_each_log _exec_nowait 0 queues
         ++ log ++ for_each_log _wait 0 emptied) /\
    (forall j q, nth_error drained j = Some q ->
       project j log = emitted (iterate k blocking_step q) /\
       iterate k blocking_step q = steps q /\
       value (steps q) = inl tt).
Proof.
  intros Hv.
  assert (forall q, In q queues -> value (_exec_nowait q) = inl tt) as Hok.
  { intros q Hq. rewrite Forall_forall in Hv.
    now destruct (exec_nowait_valid q (Hv q Hq)) as (? & _ & ? & _). }
  assert (Forall valid_items (map (fun q => final (_exec_nowait q)) queues))
    as Hv1.
  { apply Forall_map. rewrite Forall_forall in *. intros q Hq.
    destruct (exec_nowait_valid q (Hv q Hq)) as (pre & H & _).
    exact (valid_items_suffix _ _ _ H (Hv q Hq)). }
  destruct (runall_loop_spec _ _ Hv1 (le_n _)) as (k & log & Hw & Hq).
  exists k, log. cbv zeta. split.
  - unfold runall.
    rewrite (bind_ok (for_each _exec_nowait 0) _ queues tt)
      by now rewrite for_each_ok.
    rewrite (for_each_ok _ _ _ Hok). cbn [value final emitted].
    match goal with |- context [bind ?m ?f ?s] =>
      rewrite (bind_ok m f s tt) by (cbv beta; now rewrite Hw) end.
    cbv beta. rewrite Hw. cbn [value final emitted].
    rewrite for_each_ok by (intros q _; apply wait_ok). reflexivity.
  - intros j q Hj. destruct (Hq j q Hj) as (P1 & P2 & P3).
    pose proof (iterate_steps k q P2 P3) as E.
    repeat split; [exact P1|exact E|now rewrite <- E].
Qed.

(** [run], split at the end of the first drain. *)
Lemma run_split q :
  value (_exec_nowait q) = inl tt ->
  value (steps (final (_exec_nowait q))) = inl tt ->
  let q1 := final (_exec_nowait q) in
  let q2 := final (steps q1) in
  run q =
  Result (inl tt) (final (_wait q2))
    (emitted (_exec_nowait q) ++ emitted (steps q1) ++ emitted (_wait q2)).
Proof.
  intros H1 H2 q1 q2. rewrite run_steps.
  assert (steps q =
          Result (inl tt) q2 (emitted (_exec_nowait q) ++ emitted (steps q1)))
    as Hs.
  { rewrite <- exec_nowait_steps.
    rewrite (bind_ok _exec_nowait (fun _ => steps) q tt H1).
    subst q1 q2. now rewrite H2. }
  rewrite (bind_ok steps (fun _ => _wait) q tt) by now rewrite Hs.
  rewrite Hs. cbn [value final emitted]. rewrite wait_ok.
  now rewrite <- app_assoc.
Qed.

(** [runall] on kernels leaves every queue as [run] leaves it. *)
Lemma runall_final_states queues :
  Forall valid_items queues ->
  value (runall queues) = inl tt /\
  final (runall queues) = map (fun q => final (run q)) queues.
Proof.
  intros Hv. destruct (runall_phases queues Hv) as (k & log & Hrun & Hper).
  cbv zeta in Hrun, Hper. rewrite Hrun. cbn [value final].
  split; [reflexivity|]. rewrite !map_map. apply map_ext_in. intros q Hin.
  destruct (In_nth_error _ _ Hin) as [j Hj].
  pose proof (map_nth_error (fun q => final (_exec_nowait q)) _ _ Hj) as H1.
  destruct (Hper j _ H1) as (_ & P2 & P3).
  rewrite Forall_forall in Hv.
  destruct (exec_nowait_valid q (Hv q Hin)) as (pre & _ & Hok & _).
  pose proof (run_split q Hok P3) as Hs. cbv zeta in Hs.
  now rewrite Hs, P2.
Qed.

(** Between two calls of the public interface, a queue that was given
    kernels only holds kernels only, has no last item and no request. *)
Lemma between_calls_rest q :
  between_calls q -> valid_items q /\ _last q = None /\ _mpireqs q = [].
Proof.
  assert (forall q, valid_items q /\ _last q = None /\ _mpireqs q = [] ->
                    Inv q) as HInv.
  { intros q0 (_ & Hl & Hr). split.
    - unfold last_is_kernel. now rewrite Hl.
    - intros H. now rewrite Hr in H. }
  assert (forall q, valid_items q /\ _last q = None /\ _mpireqs q = [] ->
            value (run q) = inl tt /\
            (valid_items (final (run q)) /\ _last (final (run q)) = None /\
             _mpireqs (final (run q)) = [])) as Hrun.
  { intros q0 H0. destruct (run_valid q0 (proj1 H0) (HInv q0 H0))
      as (Hv & _ & Hi & Hl & Hr).
    split; [exact Hv|]. unfold valid_items. rewrite Hi.
    repeat split; [constructor|exact Hl|exact Hr]. }
  induction 1 as [|q items _ IH Hitems|q _ IH|q items _ IH Hitems
                 |queues q _ IH Hin].
  - repeat split. constructor.
  - destruct IH as (Hv & Hl & Hr). repeat split; [|exact Hl|exact Hr].
    unfold valid_items. cbn. apply Forall_app. now split.
  - now apply Hrun.
  - destruct (Hrun q IH) as (Hv1 & H1). unfold __mod__.
    rewrite (bind_ok run _ q tt Hv1). cbn [final].
    rewrite (bind_ok (__lshift__ items) (fun _ => run) _ tt eq_refl).
    cbn [final]. apply Hrun.
    destruct H1 as (Hv & Hl & Hr). repeat split; [|exact Hl|exact Hr].
    unfold valid_items. cbn. apply Forall_app. now split.
  - assert (Forall valid_items queues) as Hv
      by (apply Forall_forall; intros q0 H0; now apply IH).
    destruct (runall_final_states queues Hv) as [_ Hf]. rewrite Hf in Hin.
    apply in_map_iff in Hin as (q0 & <- & H0). now apply Hrun, IH.
Qed.

Lemma between_calls_reachable q : between_calls q -> reachable q.
Proof.
  induction 1 as [|q items _ IH _|q _ IH|q items _ IH _|queues q _ IH Hin].
  - apply reach_init.
  - now apply reach_lshift.
  - now apply reach_run.
  - now apply reach_mod.
  - now apply (reach_runall queues).
Qed.

(** ** The loops leave by their tests

    The bounds given to the three loops are never what stops them: a loop
    that returns has found its test false. *)

Lemma steps_exit q :
  value (steps q) = inl tt -> __nonzero__ (final (steps q)) = false.
Proof.
  unfold steps.
  apply (while_exit len __nonzero__ _exec_next nonzero_len exec_next_dec).
  apply le_n.
Qed.

Lemma exec_nowait_exit q :
  value (_exec_nowait q) = inl tt ->
  nowait_cond (final (_exec_nowait q)) = false.
Proof.
  unfold _exec_nowait.
  apply (while_exit len nowait_cond nowait_body
           nowait_cond_len nowait_body_dec).
  apply le_n.
Qed.

Lemma exec_nowait_len_le q : len (final (_exec_nowait q)) <= len q.
Proof.
  unfold _exec_nowait.
  apply (while_preserves (fun s => len s <= len q)); [|apply le_n].
  intros s Hs Hc. unfold nowait_cond in Hc.
  destruct (_items s) as [|[item rtargs] rest] eqn:Hi; [discriminate|].
  unfold len in *. rewrite (nowait_body_items s _ _ _ Hi).
  rewrite Hi in Hs. simpl in Hs. lia.
Qed.

Lemma blocking_step_len q :
  len (final (blocking_step q)) <= len q /\
  (__nonzero__ q = true -> len (final (blocking_step q)) < len q).
Proof.
  unfold blocking_step. destruct (__nonzero__ q) eqn:Hnz.
  - assert (len (final ((_exec_next ;; _exec_nowait) q)) < len q);
      [|split; [lia|now intros _]].
    unfold __nonzero__ in Hnz.
    destruct (_items q) as [|[item rtargs] rest] eqn:Hi; [discriminate|].
    assert (len (final (_exec_next q)) < len q) as Hlt
      by (unfold len; rewrite (exec_next_items q _ _ _ Hi), Hi; simpl; lia).
    apply (bind_post (fun s => len s < len q)); [exact Hlt|now intros|].
    intros _ s' Hs'. pose proof (exec_nowait_len_le s'). lia.
  - split; [apply le_n|discriminate].
Qed.

Lemma for_each_pending queues : forall i,
  pending (final (for_each blocking_step i queues)) <= pending queues /\
  (any queues = true -> value (for_each blocking_step i queues) = inl tt ->
   pending (final (for_each blocking_step i queues)) < pending queues).
Proof.
  induction queues as [|q rest IH]; intros i;
    [split; [apply le_n|discriminate]|].
  simpl. destruct (blocking_step_len q) as [Hle Hlt].
  destruct (blocking_step q) as [[[]|e] q' evs]; simpl in *.
  - destruct (IH (S i)) as [IH1 IH2].
    destruct (for_each blocking_step (S i) rest) as [r rest' evs'].
    simpl in *. rewrite !pending_cons. split; [lia|].
    intros Hany Hv. destruct (__nonzero__ q); simpl in Hany.
    + specialize (Hlt eq_refl). lia.
    + specialize (IH2 Hany Hv). lia.
  - rewrite !pending_cons. split; [lia|discriminate].
Qed.

Lemma runall_loop_exit queues :
  value (while (pending queues) any (for_each blocking_step 0) queues)
    = inl tt ->
  any (final (while (pending queues) any (for_each blocking_step 0) queues))
    = false.
Proof.
  apply (while_exit pending any (for_each blocking_step 0) any_pending).
  - intros s Hany Hv. now apply for_each_pending.
  - apply le_n.
Qed.

Lemma waits_runs l : waits (runs l) = [].
Proof. induction l as [|[k a] l IH]; [reflexivity|exact IH]. Qed.

(** The first loop of [runall] on kernels blocks nowhere. *)
Lemma first_drain_no_wait queues : forall i,
  Forall valid_items queues ->
  waits (map snd (for_each_log _exec_nowait i queues)) = [].
Proof.
  induction queues as [|q rest IH]; intros i Hv; [reflexivity|].
  inversion Hv as [|? ? Hq Hrest]; subst. simpl.
  rewrite map_app, waits_app, (IH (S i) Hrest), app_nil_r.
  destruct (exec_nowait_valid q Hq) as (pre & _ & _ & He & _).
  unfold tag. rewrite map_map. cbn [snd]. rewrite map_id, He.
  apply waits_runs.
Qed.

(** ** Fresh queues *)

Lemma reachable_fresh items : reachable (fresh items).
Proof. unfold fresh. apply reach_lshift, reach_init. Qed.

Lemma between_calls_fresh items :
  Forall (fun x => is_kernel (fst x) = true) items ->
  between_calls (fresh items).
Proof.
  intros H. unfold fresh. apply rest_lshift; [apply rest_init|exact H].
Qed.

Lemma last_cons {A} (a d : A) (l : list A) : last (a :: l) d = last l a.
Proof.
  revert a d. induction l as [|b l IH]; intros a d; [reflexivity|].
  change (last (a :: b :: l) d) with (last (b :: l) d).
  now rewrite (IH b d), (IH b a).
Qed.

(** For kernels, a sequence point is a change of kind. *)
Lemma at_sequence_point_kernel q item :
  last_is_kernel q -> is_kernel item = true ->
  _at_sequence_point q item =
  match last_class q with
  | Some c => negb (class_eqb c (kclass item))
  | None => false
  end.
Proof.
  unfold last_is_kernel, last_class, _at_sequence_point.
  destruct (_last q) as [[il [] pl]|]; destruct item as [ii [] pi];
    cbn; intros; try discriminate; reflexivity.
Qed.

(** [_exec_next] on a kernel, in full. *)
Lemma exec_next_full q item rtargs rest :
  _items q = (item, rtargs) :: rest ->
  is_kernel item = true -> last_is_kernel q ->
  _exec_next q =
  Result (inl tt) (next_state q item rest) (next_events q item rtargs).
Proof.
  intros Hi Hk Hl. rewrite (exec_next_cons q _ _ _ Hi).
  unfold next_state, next_events, last_is_kernel in *.
  destruct q as [[l|] reqs items]; cbn [_last _mpireqs _items] in *.
  - destruct l as [il [] pl], item as [ii [] pi]; cbn in *;
      try discriminate; rewrite ?app_nil_r; reflexivity.
  - destruct item as [ii [] pi]; cbn in *; try discriminate;
      rewrite ?app_nil_r; reflexivity.
Qed.

Lemma next_state_kernel q item rest :
  is_kernel item = true -> last_is_kernel (next_state q item rest).
Proof. intros H. exact H. Qed.

(** The rule of [_exec_next] for a kernel at the front of the deque: it
    waits first exactly when [_last] is an item of the other kind. *)
Lemma exec_next_rule q item rtargs rest :
  last_is_kernel q -> is_kernel item = true ->
  _items q = (item, rtargs) :: rest ->
  (_at_sequence_point q item = true <->
   exists l, _last q = Some l /\ kclass l <> kclass item) /\
  ((exists calls, emitted (_exec_next q) = [Wait calls; Run item rtargs]) <->
   exists l, _last q = Some l /\ kclass l <> kclass item) /\
  (emitted (_exec_next q) = [Run item rtargs] <->
   ~ exists l, _last q = Some l /\ kclass l <> kclass item) /\
  ((exists l, _last q = Some l /\ kclass l <> kclass item) ->
   emitted (_exec_next q) = emitted (_wait q) ++ [Run item rtargs]).
Proof.
  intros Hl Hk Hi.
  destruct (exec_next_kernel q _ _ _ Hi Hk) as (_ & _ & He).
  unfold last_is_kernel in Hl.
  rewrite He. rewrite !wait_spec. clear He Hi.
  unfold _at_sequence_point.
  destruct q as [[l|] reqs items]; cbn [_last _mpireqs _items] in *.
  - destruct l as [il [] pl], item as [ii [] pi]; cbn in *;
      try discriminate;
      (repeat split;
       try solve
         [ intros; try discriminate; try reflexivity; eauto
         | intros _; eexists; split; [reflexivity|]; cbn; discriminate
         | intros (? & [= <-] & ?); cbn in *; congruence
         | intros _; eexists; reflexivity
         | intros (? & [=])
         | intros [=]
         | intros _ (? & [= <-] & ?); cbn in *; congruence
         | intros ? ?; apply H; eexists; split; [reflexivity|];
           cbn; discriminate
         | intros H; exfalso; apply H; eexists; split; [reflexivity|];
           cbn; discriminate ]).
  - cbn. repeat split;
      try solve [ intros; try discriminate; try reflexivity
                | intros (? & [=] & _) | intros (? & [=])
                | intros _ (? & [=] & _) ].
Qed.

(** [_exec_nowait] on kernels runs the maximal same-kind prefix of the
    deque, and nothing else. *)
Lemma exec_nowait_prefix items : forall q,
  _items q = items -> valid_items q -> last_is_kernel q ->
  let pre := maximal_same_kind_prefix (last_class q) items in
  value (_exec_nowait q) = inl tt /\
  emitted (_exec_nowait q) = runs pre /\
  items = pre ++ _items (final (_exec_nowait q)) /\
  _last (final (_exec_nowait q))
    = last (map (fun x => Some (fst x)) pre) (_last q) /\
  last_is_kernel (final (_exec_nowait q)).
Proof.
  induction items as [|[item rtargs] rest IH]; intros q Hi Hv Hl.
  - assert (nowait_cond q = false) as Hc
      by (unfold nowait_cond; now rewrite Hi).
    rewrite (exec_nowait_done q Hc). cbn.
    repeat split; [now symmetry|exact Hl].
  - destruct (valid_items_cons q _ _ Hi Hv) as [Hk Hrest]. cbn in Hk.
    pose proof (at_sequence_point_kernel q item Hl Hk) as Hs.
    cbn [maximal_same_kind_prefix].
    destruct (nowait_cond q) eqn:Hc.
    + pose proof Hc as Hc'. unfold nowait_cond in Hc'. rewrite Hi in Hc'.
      apply negb_true_iff in Hc'. rewrite Hc' in Hs.
      assert (match last_class q with
              | Some c => class_eqb c (kclass item)
              | None => true
              end = true) as Ht.
      { destruct (last_class q); [|reflexivity].
        symmetry in Hs. now apply negb_false_iff in Hs. }
      rewrite Ht.
      rewrite (exec_nowait_unfold q Hc).
      pose proof (nowait_body_cons q _ _ _ Hi) as Hb.
      rewrite (exec_item_kernel _ _ _ Hk) in Hb.
      rewrite (bind_ok nowait_body (fun _ => _exec_nowait) q tt)
        by now rewrite Hb.
      rewrite Hb. cbn [final emitted value].
      match goal with |- context [_exec_nowait ?s] => set (q1 := s) end.
      assert (_items q1 = rest) as Hi1
        by (unfold q1; now destruct (ismpikernel (Some item))).
      assert (_last q1 = Some item) as Hl1 by reflexivity.
      destruct (IH q1 Hi1) as (H1 & H2 & H3 & H4 & H5).
      * unfold valid_items. now rewrite Hi1.
      * unfold last_is_kernel. now rewrite Hl1.
      * unfold last_class in H2, H3, H4. rewrite Hl1 in H2, H3, H4.
        cbn [option_map] in H2, H3, H4.
        repeat split;
          [exact H1|now rewrite H2|cbn [app]; f_equal; exact H3| |exact H5].
        rewrite H4. cbn [map fst]. symmetry. apply last_cons.
    + pose proof Hc as Hc'. unfold nowait_cond in Hc'. rewrite Hi in Hc'.
      apply negb_false_iff in Hc'. rewrite Hc' in Hs.
      assert (match last_class q with
              | Some c => class_eqb c (kclass item)
              | None => true
              end = false) as Ht.
      { destruct (last_class q); [|discriminate].
        symmetry in Hs. now apply negb_true_iff in Hs. }
      rewrite Ht. rewrite (exec_nowait_done q Hc). cbn.
      repeat split; [now symmetry|exact Hl].
Qed.

End QueueFacts.

(* ===================================================================== *)
(** * The queue: the properties of the specification *)
(* ===================================================================== *)

Module QueueSpec.
Import Queue EffFacts QueueFacts.

(** C3, as stated, fails: a full run of a queue of kinds
    [Compute, Compute, MPI, MPI, Compute] does not perform exactly two
    blocking waits; the wait that ends [run] is a third one. *)
Lemma run_CCMMC_not_two_waits :
  List.length (waits (emitted (run queue_CCMMC))) <> 2.
Proof. vm_compute. discriminate. Qed.

(** C3, amended: a full run of a queue, as the public interface leaves it,
    whose items have kinds [Compute, Compute, MPI, MPI, Compute] returns,
    runs the items in the order of the deque, and performs exactly three
    blocking waits: one before the first MPI item, one before the last
    compute item, and the wait that ends the run. *)
Theorem run_CCMMC_waits (q : CUDAQueue) k1 a1 k2 a2 k3 a3 k4 a4 k5 a5 :
  between_calls q ->
  _items q = [(k1, a1); (k2, a2); (k3, a3); (k4, a4); (k5, a5)] ->
  map kclass [k1; k2; k3; k4; k5] =
    [ComputeKernel; ComputeKernel; MPIKernel; MPIKernel; ComputeKernel] ->
  value (run q) = inl tt /\
  launched (emitted (run q)) = _items q /\
  List.length (waits (emitted (run q))) = 3 /\
  emitted (run q) =
    [Run k1 a1; Run k2 a2;
     Wait [synchronize _stream_comp; synchronize _stream_copy];
     Run k3 a3; Run k4 a4;
     Wait [Waitall (kposts k3 ++ kposts k4)];
     Run k5 a5;
     Wait [synchronize _stream_comp; synchronize _stream_copy]].
Proof.
  intros Hq. destruct (between_calls_rest q Hq) as (_ & Hl & Hr). clear Hq.
  destruct q as [last reqs items]. cbn [_last _items _mpireqs] in *.
  subst last reqs. intros -> Hk.
  destruct k1 as [i1 c1 p1], k2 as [i2 c2 p2], k3 as [i3 c3 p3],
    k4 as [i4 c4 p4], k5 as [i5 c5 p5].
  cbn in Hk. injection Hk as -> -> -> -> ->.
  repeat split.
Qed.

Lemma run_CCMMC_waits_witness :
  between_calls queue_CCMMC /\
  List.length (waits (emitted (run queue_CCMMC))) = 3 /\
  launched (emitted (run queue_CCMMC)) = _items queue_CCMMC.
Proof.
  assert (between_calls queue_CCMMC) as Hq
    by (apply between_calls_fresh; repeat constructor).
  split; [exact Hq|].
  destruct (run_CCMMC_waits queue_CCMMC
              (comp 1) [10%Z] (comp 2) [] (mpi 3 [30; 31]) [7%Z]
              (mpi 4 [40]) [] (comp 5) [] Hq eq_refl eq_refl)
    as (_ & Hl & Hw & _).
  split; [exact Hw|exact Hl].
Defined.

(** C6: a full run of a queue, as the public interface leaves it, whose
    items have kinds [Compute, Compute, Compute] performs exactly one
    blocking wait, the wait that ends the run, after the three items and
    none between them. *)
Theorem run_CCC_one_wait (q : CUDAQueue) k1 a1 k2 a2 k3 a3 :
  between_calls q ->
  _items q = [(k1, a1); (k2, a2); (k3, a3)] ->
  map kclass [k1; k2; k3] = [ComputeKernel; ComputeKernel; ComputeKernel] ->
  value (run q) = inl tt /\
  List.length (waits (emitted (run q))) = 1 /\
  emitted (run q) =
    [Run k1 a1; Run k2 a2; Run k3 a3;
     Wait [synchronize _stream_comp; synchronize _stream_copy]].
Proof.
  intros Hq. destruct (between_calls_rest q Hq) as (_ & Hl & Hr). clear Hq.
  destruct q as [last reqs items]. cbn [_last _items _mpireqs] in *.
  subst last reqs. intros -> Hk.
  destruct k1 as [i1 c1 p1], k2 as [i2 c2 p2], k3 as [i3 c3 p3].
  cbn in Hk. injection Hk as -> -> ->.
  repeat split.
Qed.

Lemma run_CCC_one_wait_witness :
  between_calls queue_CCC /\
  List.length (waits (emitted (run queue_CCC))) = 1.
Proof.
  assert (between_calls queue_CCC) as Hq
    by (apply between_calls_fresh; repeat constructor).
  split; [exact Hq|].
  destruct (run_CCC_one_wait queue_CCC (comp 1) [] (comp 2) [2%Z] (comp 3) []
              Hq eq_refl eq_refl) as (_ & Hw & _).
  exact Hw.
Defined.

(** C1: in a reachable state of a queue that holds kernels only, the next
    item is at a sequence point, and [_exec_next] waits before it runs the
    item, if and only if [_last] is defined and of the other kind; without
    that, the item is run with no wait.  [_last] is the item executed most
    recently: [_exec_next] returns with the item it has run in [_last], so
    that the item after it is run behind a wait if and only if the two differ
    in kind, and a wait clears [_last], so that the item is run with no wait
    right after one.  A wait after a compute kernel synchronizes the compute
    and the copy stream and clears [_last]; a wait after an MPI kernel waits
    for all the requests of the list, empties the list and clears
    [_last]. *)
Theorem sequence_point_rule (q : CUDAQueue) item rtargs rest :
  reachable q -> valid_items q -> _items q = (item, rtargs) :: rest ->
  let differs := exists l, _last q = Some l /\ kclass l <> kclass item in
  (_at_sequence_point q item = true <-> differs) /\
  ((exists calls, emitted (_exec_next q) = [Wait calls; Run item rtargs])
   <-> differs) /\
  (emitted (_exec_next q) = [Run item rtargs] <-> ~ differs) /\
  (differs ->
   emitted (_exec_next q) = emitted (_wait q) ++ [Run item rtargs]) /\
  (iscomputekernel (_last q) = true ->
   _wait q =
   Result (inl tt) (set_last None q)
     [Wait [synchronize _stream_comp; synchronize _stream_copy]]) /\
  (ismpikernel (_last q) = true ->
   _wait q =
   Result (inl tt) (set_last None (set_mpireqs [] q))
     [Wait [Waitall (_mpireqs q)]]) /\
  value (_exec_next q) = inl tt /\
  launched (emitted (_exec_next q)) = [(item, rtargs)] /\
  _last (final (_exec_next q)) = Some item /\
  _items (final (_exec_next q)) = rest /\
  (forall item' rtargs' rest', rest = (item', rtargs') :: rest' ->
     ((exists calls,
         emitted (_exec_next (final (_exec_next q)))
         = [Wait calls; Run item' rtargs'])
      <-> kclass item <> kclass item') /\
     (emitted (_exec_next (final (_exec_next q))) = [Run item' rtargs']
      <-> kclass item = kclass item')) /\
  _last (final (_wait q)) = None /\
  emitted (_exec_next (final (_wait q))) = [Run item rtargs].
Proof.
  intros Hr Hv Hi differs.
  destruct (valid_items_cons q _ _ Hi Hv) as [Hk Hrest]. cbn in Hk.
  destruct (reachable_Inv q Hr) as [Hl _].
  destruct (exec_next_rule q item rtargs rest Hl Hk Hi) as (R1 & R2 & R3 & R4).
  pose proof (exec_next_full q item rtargs rest Hi Hk Hl) as Hfull.
  split; [exact R1|]. split; [exact R2|]. split; [exact R3|].
  split; [exact R4|]. split; [|split].
  - intros Hc. rewrite wait_spec, Hc.
    destruct (_last q) as [[? [] ?]|]; cbn in *; try discriminate.
    reflexivity.
  - intros Hm. rewrite wait_spec, Hm.
    destruct (_last q) as [[? [] ?]|]; cbn in *; try discriminate.
    reflexivity.
  - rewrite Hfull. cbn [value final emitted next_state _last _items].
    split; [reflexivity|]. split.
    { unfold next_events. rewrite launched_app.
      destruct (_at_sequence_point q item); reflexivity. }
    split; [reflexivity|]. split; [reflexivity|]. split; [|split].
    + intros item' rtargs' rest' ->.
      assert (is_kernel item' = true) as Hk'
        by (inversion Hrest; assumption).
      destruct (exec_next_rule
                  (next_state q item ((item', rtargs') :: rest'))
                  item' rtargs' rest' Hk Hk' eq_refl)
        as (_ & S2 & S3 & _).
      cbn [next_state _last] in S2, S3. split.
      * rewrite S2. split.
        -- intros (l & [= <-] & Hne). exact Hne.
        -- intros Hne. exists item. split; [reflexivity|exact Hne].
      * rewrite S3. split.
        -- intros Hn.
           destruct item as [? [] ?], item' as [? [] ?]; cbn in *;
             try discriminate; try reflexivity;
             exfalso; apply Hn; eexists; (split; [reflexivity|]);
             cbn; discriminate.
        -- intros He (l & [= <-] & Hne). contradiction.
    + apply wait_last.
    + assert (_items (final (_wait q)) = (item, rtargs) :: rest) as Hi'
        by (now rewrite wait_items).
      assert (last_is_kernel (final (_wait q))) as Hl'
        by (unfold last_is_kernel; now rewrite wait_last).
      destruct (exec_next_rule (final (_wait q)) item rtargs rest Hl' Hk Hi')
        as (_ & _ & S3 & _).
      apply S3. intros (l & E & _). rewrite wait_last in E. discriminate.
Qed.

Lemma sequence_point_rule_witness :
  reachable queue_after_mpi /\
  _at_sequence_point queue_after_mpi (comp 5) = true /\
  emitted (_exec_next queue_after_mpi)
  = emitted (_wait queue_after_mpi) ++ [Run (comp 5) []] /\
  _last (final (_exec_next queue_after_mpi)) = Some (comp 5).
Proof.
  assert (reachable queue_after_mpi) as Hr
    by (unfold queue_after_mpi; apply reach_exec_next, reachable_fresh).
  assert (valid_items queue_after_mpi) as Hv
    by (repeat constructor).
  assert (exists l, _last queue_after_mpi = Some l /\
                    kclass l <> kclass (comp 5)) as Hd
    by (eexists; split; [reflexivity|discriminate]).
  split; [exact Hr|].
  destruct (sequence_point_rule queue_after_mpi (comp 5) [] [] Hr Hv eq_refl)
    as (H1 & _ & _ & H4 & _ & _ & _ & _ & H9 & _).
  split; [exact (proj2 H1 Hd)|]. split; [exact (H4 Hd)|exact H9].
Defined.

(** C9: an object that is neither a compute nor an MPI kernel makes
    [_exec_item] raise [ValueError] with the queue unchanged and nothing
    emitted; when [_exec_next] takes such an object from the deque of a
    reachable queue, the call raises, [run] is called on no item, and the
    object is not recorded in [_last]. *)
Theorem stray_item_raises (item : kernel) (rtargs : list rtarg) :
  iscomputekernel (Some item) = false -> ismpikernel (Some item) = false ->
  (forall q,
     _exec_item item rtargs q =
     Result (inr (ValueError "Non compute/MPI kernel in queue")) q []) /\
  (forall q rest,
     reachable q -> _items q = (item, rtargs) :: rest ->
     value (_exec_next q) =
       inr (ValueError "Non compute/MPI kernel in queue") /\
     launched (emitted (_exec_next q)) = [] /\
     _last (final (_exec_next q)) <> Some item /\
     _mpireqs (final (_exec_next q)) = []).
Proof.
  intros Hc Hm.
  assert (is_kernel item = false) as Hk
    by (unfold is_kernel; now rewrite Hc, Hm).
  split; [intros q; now apply exec_item_other|].
  intros q rest Hr Hi. rewrite (exec_next_cons q _ _ _ Hi).
  rewrite (at_sequence_point_last (set_items rest q) q item eq_refl).
  destruct (reachable_Inv q Hr) as [Hl Ht].
  assert (_last q <> Some item) as Hne.
  { intros E. unfold last_is_kernel in Hl. rewrite E in Hl. congruence. }
  destruct (_at_sequence_point q item) eqn:Hs.
  - rewrite (bind_ok _wait (fun _ => _exec_item item rtargs) _ tt)
      by apply wait_ok.
    rewrite exec_item_other by exact Hk. cbn [value final emitted].
    rewrite app_nil_r, launched_wait, wait_last.
    repeat split; [discriminate|].
    rewrite wait_spec. cbn.
    destruct (ismpikernel (_last q)) eqn:E; [reflexivity|]. cbn.
    destruct (_mpireqs q) eqn:Hq; [reflexivity|].
    unfold requests_tracked in Ht. rewrite Hq in Ht.
    assert (false = true) by (rewrite <- E; now apply Ht). discriminate.
  - rewrite bind_ret_l. rewrite exec_item_other by exact Hk.
    cbn. repeat split; [exact Hne|].
    destruct (_mpireqs q) eqn:Hq; [reflexivity|].
    unfold requests_tracked in Ht. rewrite Hq in Ht.
    assert (ismpikernel (_last q) = true) as E by now apply Ht.
    unfold _at_sequence_point in Hs. rewrite E, Hm in Hs.
    rewrite orb_true_r in Hs. discriminate.
Qed.

Lemma stray_item_raises_witness :
  value (_exec_next (fresh [(stray 9, [])])) =
    inr (ValueError "Non compute/MPI kernel in queue") /\
  _last (final (_exec_next (fresh [(stray 9, [])]))) <> Some (stray 9).
Proof.
  destruct (stray_item_raises (stray 9) [] eq_refl eq_refl) as [_ H].
  destruct (H (fresh [(stray 9, [])]) [] (reachable_fresh _) eq_refl)
    as (Hv & _ & Hl & _).
  split; [exact Hv|exact Hl].
Defined.

(** C10: in every state that a queue can reach from its constructor
    through [<<], [_exec_next], [_exec_nowait], [_wait], [run], [%] and
    [runall], the list of MPI requests is non-empty only if the last item is
    an MPI kernel.  Hence the list is empty whenever [_wait] takes its
    compute branch, which leaves the list as it is, and no request is
    outstanding after any [_wait]. *)
Theorem requests_only_after_mpi (q : CUDAQueue) :
  reachable q ->
  (_mpireqs q <> [] -> ismpikernel (_last q) = true) /\
  (iscomputekernel (_last q) = true ->
   _mpireqs q = [] /\ _mpireqs (final (_wait q)) = _mpireqs q) /\
  _mpireqs (final (_wait q)) = [].
Proof.
  intros Hr. destruct (reachable_Inv q Hr) as [Hl Ht].
  assert (ismpikernel (_last q) = false -> _mpireqs q = []) as Hnil.
  { intros E. destruct (_mpireqs q) eqn:Hq; [reflexivity|].
    unfold requests_tracked in Ht. rewrite Hq in Ht.
    assert (false = true) by (rewrite <- E; now apply Ht). discriminate. }
  split; [exact Ht|]. split.
  - intros Hc.
    assert (ismpikernel (_last q) = false) as E.
    { destruct (_last q) as [[? [] ?]|]; cbn in *; congruence. }
    split; [now apply Hnil|]. rewrite wait_spec. cbn. now rewrite E.
  - rewrite wait_spec. cbn.
    destruct (ismpikernel (_last q)) eqn:E; [reflexivity|]. now apply Hnil.
Qed.

Lemma requests_only_after_mpi_witness :
  _mpireqs queue_after_mpi <> [] /\
  ismpikernel (_last queue_after_mpi) = true /\
  _mpireqs (final (_wait queue_after_mpi)) = [].
Proof.
  assert (reachable queue_after_mpi) as Hr
    by (unfold queue_after_mpi; apply reach_exec_next, reachable_fresh).
  destruct (requests_only_after_mpi queue_after_mpi Hr) as (H1 & _ & H3).
  assert (_mpireqs queue_after_mpi <> []) as Hne by (cbv; discriminate).
  split; [exact Hne|]. split; [exact (H1 Hne)|exact H3].
Defined.

(** C5: for queues that hold kernels only, in any states that queues can
    reach, [runall] returns; what it makes every queue do, and the state it
    leaves every queue in, are those of [run] on that queue alone: the same
    calls in the same order, every item run in the order of its deque,
    nothing left pending or outstanding.  The log of [runall] starts with,
    for every queue in turn, the runs of the maximal same-kind prefix of its
    deque, and no blocking call comes before the end of that part.  The
    prefix is maximal: what it leaves in a deque starts with an item whose
    kind differs from that of the item run last, and the next step of that
    queue blocks before it runs that item. *)
Theorem runall_refines_run (queues : list CUDAQueue) :
  Forall valid_items queues -> Forall reachable queues ->
  value (runall queues) = inl tt /\
  List.length (final (runall queues)) = List.length queues /\
  (forall i q, nth_error queues i = Some q ->
     run q =
       Result (inl tt) (final (run q))
         (project i (emitted (runall queues))) /\
     nth_error (final (runall queues)) i = Some (final (run q)) /\
     launched (project i (emitted (runall queues))) = _items q /\
     quiescent (final (run q))) /\
  exists rest,
    emitted (runall queues) = for_each_log _exec_nowait 0 queues ++ rest /\
    waits (map snd (for_each_log _exec_nowait 0 queues)) = [] /\
    forall i q, nth_error queues i = Some q ->
      let pre := maximal_same_kind_prefix (last_class q) (_items q) in
      _items q = pre ++ _items (final (_exec_nowait q)) /\
      project i (for_each_log _exec_nowait 0 queues) = runs pre /\
      nowait_cond (final (_exec_nowait q)) = false /\
      forall item' rtargs' rest',
        _items (final (_exec_nowait q)) = (item', rtargs') :: rest' ->
        (exists l,
           last (map (fun x => Some (fst x)) pre) (_last q) = Some l /\
           kclass l <> kclass item') /\
        exists calls,
          emitted (_exec_next (final (_exec_nowait q)))
          = [Wait calls; Run item' rtargs'].
Proof.
  intros Hv Hreach.
  assert (Forall Inv queues) as HI
    by (apply (Forall_impl Inv reachable_Inv); exact Hreach).
  destruct (runall_phases queues Hv) as (k & log & Hrun & Hper).
  cbv zeta in Hrun, Hper. rewrite Hrun. cbn [value final emitted].
  split; [reflexivity|]. split; [now rewrite !length_map|]. split.
  - intros i q Hi.
    assert (In q queues) as Hin by exact (nth_error_In _ _ Hi).
    rewrite Forall_forall in Hv, HI.
    destruct (exec_nowait_valid q (Hv q Hin)) as (pre & _ & Hok & _).
    pose proof (map_nth_error (fun q => final (_exec_nowait q)) _ _ Hi) as H1.
    destruct (Hper i _ H1) as (P1 & P2 & P3).
    pose proof (map_nth_error
                  (fun q => final (iterate k blocking_step q)) _ _ H1) as H2.
    pose proof (map_nth_error (fun q => final (_wait q)) _ _ H2) as H3.
    pose proof (run_split q Hok P3) as Hs. cbv zeta in Hs.
    destruct (run_valid q (Hv q Hin) (HI q Hin)) as (_ & R2 & R3).
    assert (project i
              (for_each_log _exec_nowait 0 queues ++
               log ++
               for_each_log _wait 0
                 (map (fun q => final (iterate k blocking_step q))
                    (map (fun q => final (_exec_nowait q)) queues))) =
            emitted (run q)) as Hp.
    { rewrite !project_app, P1.
      rewrite (project_for_each_log_0 _ _ _ _ Hi).
      rewrite (project_for_each_log_0 _ _ _ _ H2).
      rewrite Hs, P2. reflexivity. }
    rewrite Hp. split; [now rewrite Hs|].
    split; [|split; [exact R2|exact R3]].
    rewrite H3. f_equal. rewrite Hs, P2. reflexivity.
  - eexists. split; [reflexivity|].
    split; [now apply first_drain_no_wait|].
    intros i q Hi. rewrite Forall_forall in Hv, HI.
    pose proof (Hv q (nth_error_In _ _ Hi)) as Hvq.
    destruct (HI q (nth_error_In _ _ Hi)) as [Hlq _].
    destruct (exec_nowait_valid q Hvq) as (pre' & E1 & _ & _ & E3).
    destruct (exec_nowait_prefix (_items q) q eq_refl Hvq Hlq)
      as (_ & F2 & F3 & F4 & F5).
    cbv zeta in F2, F3, F4.
    rewrite (project_for_each_log_0 _ _ _ _ Hi).
    split; [exact F3|]. split; [exact F2|]. split; [exact E3|].
    intros item' rtargs' rest' Hi'.
    assert (is_kernel item' = true) as Hk'.
    { unfold valid_items in Hvq. rewrite F3, Hi' in Hvq.
      apply Forall_app in Hvq. destruct Hvq as [_ Hvq].
      now inversion Hvq. }
    destruct (exec_next_rule _ item' rtargs' rest' F5 Hk' Hi')
      as (S1 & S2 & _).
    assert (_at_sequence_point (final (_exec_nowait q)) item' = true) as Hs.
    { unfold nowait_cond in E3. rewrite Hi' in E3.
      now apply negb_false_iff in E3. }
    apply S1 in Hs. split.
    + rewrite <- F4. exact Hs.
    + apply S2. exact Hs.
Qed.

Lemma runall_refines_run_witness :
  value (runall [queue_CCMMC; queue_MM]) = inl tt /\
  project 0 (emitted (runall [queue_CCMMC; queue_MM])) =
    emitted (run queue_CCMMC) /\
  project 1 (emitted (runall [queue_CCMMC; queue_MM])) =
    emitted (run queue_MM) /\
  exists rest,
    emitted (runall [queue_CCMMC; queue_MM]) =
      [(0%nat, Run (comp 1) [10%Z]); (0%nat, Run (comp 2) []);
       (1%nat, Run (mpi 6 [60]) []); (1%nat, Run (mpi 7 [70; 71]) [])]
      ++ rest.
Proof.
  assert (Forall valid_items [queue_CCMMC; queue_MM]) as Hv
    by (repeat constructor).
  assert (Forall reachable [queue_CCMMC; queue_MM]) as HI
    by (repeat constructor; apply reachable_fresh).
  destruct (runall_refines_run [queue_CCMMC; queue_MM] Hv HI)
    as (H1 & _ & H2 & rest & H3 & _).
  split; [exact H1|]. split; [|split].
  - destruct (H2 0%nat queue_CCMMC eq_refl) as (E & _).
    exact (eq_sym (f_equal emitted E)).
  - destruct (H2 1%nat queue_MM eq_refl) as (E & _).
    exact (eq_sym (f_equal emitted E)).
  - exists rest. exact H3.
Defined.

End QueueSpec.

(* ===================================================================== *)
(** * Device matrices: strided copies *)
(* ===================================================================== *)

Module MatrixFacts.
Import Matrix.

(** ** Host buffers *)

Lemma firstn_plus {A} (a b : nat) (l : list A) :
  firstn (a + b) l = firstn a l ++ firstn b (skipn a l).
Proof.
  revert l. induction a as [|a IH]; intros l; [reflexivity|].
  destruct l as [|x l]; simpl; [now rewrite firstn_nil|]. now rewrite IH.
Qed.

Lemma firstn_app_exact {A} (n : nat) (a b : list A) :
  List.length a = n -> firstn n (a ++ b) = a.
Proof.
  intros <-. rewrite firstn_app, Nat.sub_diag, firstn_O, app_nil_r.
  apply firstn_all.
Qed.

Lemma skipn_app_exact {A} (n : nat) (a b : list A) :
  List.length a = n -> skipn n (a ++ b) = b.
Proof.
  intros <-. rewrite skipn_app, Nat.sub_diag, skipn_O, skipn_all.
  reflexivity.
Qed.

(** Consecutive pieces of a buffer, put back together. *)
Lemma concat_slices (src : list byte) (W n : nat) :
  List.concat (map (fun k => slice src (k * W) W) (seq 0 n)) =
  firstn (n * W) src.
Proof.
  induction n as [|n IH]; [reflexivity|].
  rewrite seq_S, map_app, concat_app, IH. simpl.
  rewrite app_nil_r. unfold slice. rewrite <- firstn_plus.
  f_equal. lia.
Qed.

(** Cutting the bytes of a sequence of numbers gives back the bytes of each
    number. *)
Lemma chunks_flat_map {A} (f : A -> list byte) (n : nat) (l : list A) :
  (forall v, In v l -> List.length (f v) = n) ->
  chunks (List.length l) n (flat_map f l) = map f l.
Proof.
  induction l as [|v l IH]; intros H; [reflexivity|]. simpl.
  pose proof (H v (or_introl eq_refl)) as Hv.
  rewrite (firstn_app_exact n _ _ Hv), (skipn_app_exact n _ _ Hv).
  rewrite IH by (intros w Hw; apply H; now right). reflexivity.
Qed.

Lemma length_flat_map_const {A} (f : A -> list byte) (n : nat) (l : list A) :
  (forall v, In v l -> List.length (f v) = n) ->
  List.length (flat_map f l) = List.length l * n.
Proof.
  induction l as [|v l IH]; intros H; [reflexivity|]. simpl.
  rewrite length_app, (H v (or_introl eq_refl)).
  rewrite IH by (intros w Hw; apply H; now right). reflexivity.
Qed.

Lemma length_read_bytes mem addr n : List.length (read_bytes mem addr n) = n.
Proof. unfold read_bytes. now rewrite length_map, length_seq. Qed.

(** A device-to-host copy into a densely packed buffer writes the rows one
    after the other. *)
Lemma copy_rows_dtoh_dense (n : nat) (dest : list byte) (src spitch : Z)
  (W : nat) (mem : memory) :
  n * W <= List.length dest ->
  copy_rows_dtoh n dest src spitch (Z.of_nat W) (Z.of_nat W) mem =
  List.concat (map (fun k => read_bytes mem (src + Z.of_nat k * spitch) W)
            (seq 0 n))
  ++ skipn (n * W) dest.
Proof.
  induction n as [|n IH]; intros Hlen; [reflexivity|].
  simpl copy_rows_dtoh. rewrite IH by lia.
  rewrite seq_S, map_app, concat_app. cbn [map List.concat Nat.add].
  rewrite app_nil_r.
  set (rows := List.concat _).
  assert (List.length rows = n * W) as Hrows.
  { subst rows. clear. induction n as [|n IH]; [reflexivity|].
    rewrite seq_S, map_app, concat_app, length_app, IH.
    cbn [map List.concat]. rewrite app_nil_r, length_read_bytes. lia. }
  unfold splice. rewrite Nat2Z.id, <- Nat2Z.inj_mul, Nat2Z.id.
  rewrite length_read_bytes.
  rewrite (firstn_app_exact (n * W) _ _ Hrows).
  replace (n * W + W) with (W + n * W) at 1 by lia.
  rewrite <- skipn_skipn, (skipn_app_exact (n * W) _ _ Hrows).
  rewrite skipn_skipn. rewrite <- app_assoc. simpl.
  do 3 f_equal; lia.
Qed.

(** ** Device memory *)

Local Open Scope Z_scope.

Lemma nth_seq_self {A} (l : list A) (d : A) :
  map (fun j => nth j l d) (seq 0 (List.length l)) = l.
Proof.
  induction l as [|x l IH]; [reflexivity|]. simpl. f_equal.
  rewrite <- seq_shift, map_map. exact IH.
Qed.

Lemma length_slice_le (src : list byte) (start n : nat) :
  (List.length (slice src start n) <= n)%nat.
Proof. unfold slice. rewrite length_firstn. lia. Qed.

(** A host-to-device copy leaves every byte outside the rows as it was. *)
Lemma copy_rows_htod_frame (n : nat) (dest : Z) (src : list byte)
  (spitch dpitch width : Z) (mem : memory) (a : Z) :
  (forall k, (k < n)%nat ->
     ~ (dest + Z.of_nat k * dpitch <= a
        < dest + Z.of_nat k * dpitch + width)) ->
  copy_rows_htod n dest src spitch dpitch width mem a = mem a.
Proof.
  induction n as [|n IH]; intros H; [reflexivity|]. simpl.
  unfold write_bytes.
  pose proof (length_slice_le src (Z.to_nat (Z.of_nat n * spitch))
                (Z.to_nat width)) as Hl.
  specialize (H n (Nat.lt_succ_diag_r n)) as Hn.
  destruct (_ && _) eqn:Hc.
  - exfalso. apply Hn. apply andb_true_iff in Hc as [H1 H2].
    apply Z.leb_le in H1. apply Z.ltb_lt in H2. lia.
  - apply IH. intros k Hk. apply H. lia.
Qed.

(** After a host-to-device copy with rows that do not overlap, every row of
    the device holds the bytes of its row of the host buffer. *)
Lemma copy_rows_htod_read (n : nat) (dest : Z) (src : list byte)
  (spitch dpitch : Z) (W : nat) (mem : memory) :
  Z.of_nat W <= dpitch ->
  (forall k, (k < n)%nat ->
     List.length (slice src (Z.to_nat (Z.of_nat k * spitch)) W) = W) ->
  forall r, (r < n)%nat ->
  read_bytes (copy_rows_htod n dest src spitch dpitch (Z.of_nat W) mem)
    (dest + Z.of_nat r * dpitch) W =
  slice src (Z.to_nat (Z.of_nat r * spitch)) W.
Proof.
  intros Hw. induction n as [|n IH]; intros Hlen r Hr; [lia|].
  simpl copy_rows_htod. rewrite Nat2Z.id.
  pose proof (Hlen n (Nat.lt_succ_diag_r n)) as Hn.
  destruct (Nat.eq_dec r n) as [->|Hne].
  - rewrite <- (nth_seq_self (slice src _ W) x00) at 2. rewrite Hn.
    unfold read_bytes. apply map_ext_in. intros j Hj.
    apply in_seq in Hj. unfold write_bytes. rewrite Hn.
    assert ((dest + Z.of_nat n * dpitch <=?
             dest + Z.of_nat n * dpitch + Z.of_nat j) = true) as ->
      by (apply Z.leb_le; lia).
    assert ((dest + Z.of_nat n * dpitch + Z.of_nat j <?
             dest + Z.of_nat n * dpitch + Z.of_nat W) = true) as ->
      by (apply Z.ltb_lt; lia).
    cbn [andb]. f_equal. lia.
  - assert (r < n)%nat as Hrn by lia.
    rewrite <- (IH (fun k Hk => Hlen k (Nat.lt_lt_succ_r _ _ Hk)) r Hrn).
    unfold read_bytes. apply map_ext_in. intros j Hj.
    apply in_seq in Hj. unfold write_bytes at 1. rewrite Hn.
    assert ((dest + Z.of_nat r * dpitch + Z.of_nat j <?
             dest + Z.of_nat n * dpitch) = true) as Hlt
      by (apply Z.ltb_lt; nia).
    destruct (_ <=? _) eqn:Hle; [|reflexivity].
    apply Z.leb_le in Hle. apply Z.ltb_lt in Hlt. lia.
Qed.

(** A device-to-host copy reads the rows only. *)
Lemma copy_rows_dtoh_reads (n : nat) (dest : list byte) (src : Z)
  (spitch dpitch : Z) (W : nat) (m1 m2 : memory) :
  (forall k j, (k < n)%nat -> (j < W)%nat ->
     m1 (src + Z.of_nat k * spitch + Z.of_nat j) =
     m2 (src + Z.of_nat k * spitch + Z.of_nat j)) ->
  copy_rows_dtoh n dest src spitch dpitch (Z.of_nat W) m1 =
  copy_rows_dtoh n dest src spitch dpitch (Z.of_nat W) m2.
Proof.
  induction n as [|n IH]; intros H; [reflexivity|]. simpl.
  rewrite IH by (intros k j Hk Hj; apply H; lia). f_equal.
  rewrite Nat2Z.id. unfold read_bytes. apply map_ext_in. intros j Hj.
  apply in_seq in Hj. apply H; lia.
Qed.

End MatrixFacts.

(* ===================================================================== *)
(** * Device matrices: the leading dimension *)
(* ===================================================================== *)

Module MatrixSpec.
Import Matrix MatrixFacts.

Local Open Scope Z_scope.

(** The padded column count is the least multiple of the alignment that is
    not below the column count. *)
Lemma leaddim_of_spec (ncol m : Z) :
  1 <= m ->
  ncol <= leaddim_of ncol m /\
  leaddim_of ncol m mod m = 0 /\
  (forall k, ncol <= k -> k mod m = 0 -> leaddim_of ncol m <= k).
Proof.
  intros Hm. unfold leaddim_of.
  pose proof (Z.mod_neg_bound ncol (- m) ltac:(lia)) as Hr.
  pose proof (Z.div_mod ncol (- m) ltac:(lia)) as Hd.
  set (r := ncol mod (- m)) in *. set (q := ncol / (- m)) in *.
  assert (ncol - r = (- q) * m) as HL by lia.
  split; [lia|]. split.
  - rewrite HL. apply Z.mod_mul. lia.
  - intros k Hk Hk0.
    apply Z.mod_divide in Hk0; [|lia]. destruct Hk0 as [k' ->].
    rewrite HL. assert (- q < k' + 1) by nia. nia.
Qed.

Section WithNumpy.
Context {numpy : Scalars}.

(** C2: a construction with at least one column and an alignment modulus
    [m >= 1] ([alignb // itemsize] with the tag ['align'], [1] without)
    succeeds and gives the least [leaddim >= ncol] with [leaddim % m == 0];
    without the tag, [leaddim] is [ncol]; 13 columns aligned to 4 give 16,
    and so do 16. *)
Theorem leaddim_least_aligned (backend : Backend) (dt : dtype)
  (ioshape : list Z) (initval : option ndarray) (extent : option string)
  (tags : list string) :
  let m := ldmod_of backend dt tags in
  let n := snd (compact_shape backend ioshape) in
  1 <= n -> 1 <= m -> ioshape <> [] ->
  (exists self req,
     __init__ backend dt ioshape initval extent tags = inl (self, req) /\
     ncol self = n /\
     leaddim self = leaddim_of n m /\
     n <= leaddim self /\
     leaddim self mod m = 0 /\
     (forall k, n <= k -> k mod m = 0 -> leaddim self <= k) /\
     (has_align tags = false -> leaddim self = n)) /\
  leaddim_of 13 4 = 16 /\ leaddim_of 16 4 = 16.
Proof.
  intros m n Hn Hm Hio. split; [|split; reflexivity].
  unfold __init__. fold (ldmod_of backend dt tags). fold m.
  destruct (compact_shape backend ioshape) as [nr nc] eqn:Hcs.
  cbn [snd] in n. subst n.
  assert ((m =? 0) = false) as -> by (apply Z.eqb_neq; lia).
  destruct (rev ioshape) as [|lsd rest] eqn:Hrev.
  - exfalso. apply Hio. rewrite <- (rev_involutive ioshape), Hrev.
    reflexivity.
  - eexists. eexists. split; [reflexivity|]. cbn [ncol leaddim].
    fold (leaddim_of nc m).
    destruct (leaddim_of_spec nc m Hm) as (H1 & H2 & H3).
    repeat split; try assumption.
    intros Ha. subst m. unfold ldmod_of. rewrite Ha.
    unfold leaddim_of.
    change (- (1)) with (-1).
    pose proof (Z.mod_neg_bound nc (-1) ltac:(lia)). lia.
Qed.

(** ** [set] and [get] *)

Lemma dtype_eqb_eq a b : dtype_eqb a b = true -> a = b.
Proof. destruct a, b; simpl; congruence. Qed.

Lemma asanyarray_dtype A dt : arr_dtype (asanyarray A dt) = dt.
Proof.
  unfold asanyarray. destruct (dtype_eqb (arr_dtype A) dt) eqn:E;
    [now apply dtype_eqb_eq|reflexivity].
Qed.

Lemma asanyarray_shape A dt : shape (asanyarray A dt) = shape A.
Proof. unfold asanyarray. now destruct (dtype_eqb (arr_dtype A) dt). Qed.

Lemma asanyarray_length A dt :
  List.length (data (asanyarray A dt)) = List.length (data A).
Proof.
  unfold asanyarray. destruct (dtype_eqb (arr_dtype A) dt);
    [reflexivity|]. cbn. apply length_map.
Qed.

Lemma representable_map dt l :
  Forall (fun v => decode dt (encode dt v) = v) l ->
  map (fun v => decode dt (encode dt v)) l = l.
Proof.
  induction 1 as [|v l Hv _ IH]; [reflexivity|]. simpl. now rewrite Hv, IH.
Qed.

Lemma asanyarray_data A dt :
  representable dt A -> data (asanyarray A dt) = data A.
Proof.
  intros H. unfold asanyarray. destruct (dtype_eqb (arr_dtype A) dt);
    [reflexivity|]. cbn. now apply representable_map.
Qed.

Lemma shape_eqb_refl s : shape_eqb s s = true.
Proof. unfold shape_eqb. now destruct (list_eq_dec Z.eq_dec s s). Qed.

Lemma shape_eqb_neq s t : s <> t -> shape_eqb s t = false.
Proof. unfold shape_eqb. now destruct (list_eq_dec Z.eq_dec s t). Qed.

Lemma size_pair a b : size [a; b] = a * b.
Proof. unfold size. simpl. lia. Qed.

(** [set] with the right shape on a placed matrix: one strided copy. *)
Lemma set_placed self A d mem :
  consistent self -> data_ self = Some d -> shape A = ioshape self ->
  set self A mem =
  (inl tt,
   copy_rows_htod (Z.to_nat (nrow self)) d (sent self A)
     (ncol self * itemsize self) (pitch self) (ncol self * itemsize self)
     mem).
Proof.
  intros (Hcs & Hr & Hc & Hsz & Hit & Hld) Hd Hs. unfold set.
  rewrite Hs, shape_eqb_refl. cbn [negb]. unfold compact_arr.
  rewrite asanyarray_shape, Hs, Hcs. unfold reshape.
  rewrite asanyarray_shape, Hs, size_pair, Hsz, Z.eqb_refl, Hd.
  unfold memcpy2d_htod, tobytes, sent. cbn [arr_dtype data].
  now rewrite asanyarray_dtype.
Qed.

Lemma np_itemsize_pos dt : 0 < np_itemsize dt.
Proof. destruct dt; reflexivity. Qed.

(** [get] on a placed matrix returns the numbers found in the rows; neither
    the padding nor the first contents of the new array matter. *)
Lemma get_placed junk self d mem :
  consistent self -> data_ self = Some d ->
  get junk self mem =
  inl {| shape := ioshape self; arr_dtype := dtype_ self;
         data := map (decode (dtype_ self))
                   (chunks (Z.to_nat (nrow self * ncol self))
                      (Z.to_nat (itemsize self)) (row_bytes self d mem)) |}.
Proof.
  intros (Hcs & Hr & Hc & Hsz & Hit & Hld) Hd. unfold get. rewrite Hd.
  pose proof (np_itemsize_pos (dtype_ self)) as Hpos.
  unfold memcpy2d_dtoh, reshape, frombytes.
  change (shape (np_empty junk [nrow self; ncol self] (dtype_ self)))
    with [nrow self; ncol self].
  change (arr_dtype (np_empty junk [nrow self; ncol self] (dtype_ self)))
    with (dtype_ self).
  cbn [shape arr_dtype data].
  rewrite size_pair, Hsz, Z.eqb_refl. rewrite <- Hsz, <- Hit.
  do 4 f_equal. unfold row_bytes.
  { set (W := Z.to_nat (ncol self * itemsize self)).
    assert (ncol self * itemsize self = Z.of_nat W) as HW
      by (subst W; rewrite Z2Nat.id; nia).
    rewrite HW. rewrite copy_rows_dtoh_dense.
    + rewrite skipn_all2; [apply app_nil_r|].
      unfold tobytes, np_empty. cbn [arr_dtype data].
      rewrite (length_flat_map_const _ (Z.to_nat (np_itemsize (dtype_ self))))
        by (intros; apply encode_length).
      rewrite length_map, length_seq, size_pair. subst W.
      rewrite Hit, !Z2Nat.inj_mul by lia. lia.
    + unfold tobytes, np_empty. cbn [arr_dtype data].
      rewrite (length_flat_map_const _ (Z.to_nat (np_itemsize (dtype_ self))))
        by (intros; apply encode_length).
      rewrite length_map, length_seq, size_pair. subst W.
      rewrite Hit, !Z2Nat.inj_mul by lia. lia. }
Qed.

(** After [set], the rows of the device hold the bytes that were sent. *)
Lemma row_bytes_after_set self A d mem :
  consistent self -> data_ self = Some d -> shape A = ioshape self ->
  well_formed A ->
  row_bytes self d (snd (set self A mem)) = sent self A.
Proof.
  intros Hcons Hd Hs Hwf. rewrite (set_placed self A d mem Hcons Hd Hs).
  destruct Hcons as (Hcs & Hr & Hc & Hsz & Hit & Hld). cbn [snd].
  pose proof (np_itemsize_pos (dtype_ self)) as Hpos.
  unfold row_bytes.
  set (W := Z.to_nat (ncol self * itemsize self)).
  set (n := Z.to_nat (nrow self)).
  assert (ncol self * itemsize self = Z.of_nat W) as HW
    by (subst W; rewrite Z2Nat.id; nia).
  assert (List.length (sent self A) = (n * W)%nat) as Hlen.
  { unfold sent.
    rewrite (length_flat_map_const _ (Z.to_nat (np_itemsize (dtype_ self))))
      by (intros; apply encode_length).
    rewrite asanyarray_length. unfold well_formed in Hwf.
    rewrite Hwf, Hs, <- Hsz. subst n W.
    rewrite Hit, !Z2Nat.inj_mul by lia. lia. }
  rewrite HW.
  assert (forall k, (k < n)%nat ->
            List.length (slice (sent self A)
                           (Z.to_nat (Z.of_nat k * Z.of_nat W)) W) = W)
    as Hrows.
  { intros k Hk. unfold slice.
    rewrite length_firstn, length_skipn, Hlen.
    rewrite <- Nat2Z.inj_mul, Nat2Z.id. nia. }
  rewrite (map_ext_in _
             (fun k => slice (sent self A) (k * W) W)).
  - rewrite concat_slices, firstn_all2 by lia. reflexivity.
  - intros k Hk. apply in_seq in Hk.
    rewrite copy_rows_htod_read; [|unfold pitch; nia|exact Hrows|lia].
    now rewrite <- Nat2Z.inj_mul, Nat2Z.id.
Qed.

(** The constructor, on a backend whose [compact_shape] keeps the number
    of elements, with an alignment of at least one element, builds a
    matrix for which [consistent] holds; [onalloc] keeps it and places the
    matrix. *)
Lemma init_consistent backend dt shp initval extent tags self req :
  __init__ backend dt shp initval extent tags = inl (self, req) ->
  1 <= ldmod_of backend dt tags ->
  0 <= fst (compact_shape backend shp) ->
  0 <= snd (compact_shape backend shp) ->
  fst (compact_shape backend shp) * snd (compact_shape backend shp)
    = size shp ->
  consistent self /\ data_ self = None /\ ioshape self = shp /\
  dtype_ self = dt.
Proof.
  unfold __init__. fold (ldmod_of backend dt tags).
  destruct (compact_shape backend shp) as [nr nc] eqn:Hcs.
  cbn [fst snd]. intros H Hm Hnr Hnc Hsz.
  assert ((ldmod_of backend dt tags =? 0) = false) as Hz
    by (apply Z.eqb_neq; lia).
  rewrite Hz in H. destruct (rev shp) as [|lsd rest]; [discriminate|].
  injection H as <- _. unfold consistent. cbn.
  destruct (leaddim_of_spec nc (ldmod_of backend dt tags) Hm) as [Hle _].
  repeat split; assumption.
Qed.

Lemma onalloc_placed self b o mem :
  consistent self ->
  consistent (fst (fst (onalloc self b o mem))) /\
  data_ (fst (fst (onalloc self b o mem))) = Some (b + o) /\
  offset (fst (fst (onalloc self b o mem))) = Some (o / itemsize self).
Proof.
  intros H. unfold onalloc. cbn [_initval with_placement].
  destruct (_initval self) as [[v|]|]; [|now split|now split].
  destruct (set _ v mem) as [[[]|e] mem']; now split.
Qed.

(** [get] after [set] returns the numbers that were set, as converted to
    the type of the matrix and read back from its bytes. *)
Lemma get_after_set_data junk self A d mem :
  consistent self -> data_ self = Some d ->
  shape A = ioshape self -> well_formed A ->
  get junk self (snd (set self A mem)) =
  inl {| shape := ioshape self; arr_dtype := dtype_ self;
         data := map (fun v => decode (dtype_ self) (encode (dtype_ self) v))
                   (data (asanyarray A (dtype_ self))) |}.
Proof.
  intros Hcons Hd Hs Hwf.
  rewrite (get_placed junk self d _ Hcons Hd).
  rewrite (row_bytes_after_set self A d mem Hcons Hd Hs Hwf).
  destruct Hcons as (Hcs & Hr & Hc & Hsz & Hit & Hld).
  unfold sent.
  replace (Z.to_nat (nrow self * ncol self))
    with (List.length (data (asanyarray A (dtype_ self))))
    by (rewrite asanyarray_length; unfold well_formed in Hwf;
        now rewrite Hwf, Hs, Hsz).
  rewrite chunks_flat_map by (intros; rewrite Hit; apply encode_length).
  now rewrite map_map.
Qed.

(** [get] after [set] returns the numbers that were set when the type of
    the matrix can hold them. *)
Lemma get_after_set junk self A d mem :
  consistent self -> data_ self = Some d ->
  shape A = ioshape self -> well_formed A ->
  representable (dtype_ self) A ->
  get junk self (snd (set self A mem)) =
  inl {| shape := ioshape self; arr_dtype := dtype_ self; data := data A |}.
Proof.
  intros Hcons Hd Hs Hwf Hrep.
  rewrite (get_after_set_data junk self A d mem Hcons Hd Hs Hwf).
  rewrite (asanyarray_data A _ Hrep).
  now rewrite (representable_map _ _ Hrep).
Qed.

(** What the constructor leaves in the object. *)
Lemma init_fields backend dt shp initval extent tags self req :
  __init__ backend dt shp initval extent tags = inl (self, req) ->
  _initval self = Some initval /\ data_ self = None /\ offset self = None /\
  dtype_ self = dt /\ ioshape self = shp /\ Matrix.backend self = backend /\
  req = (nrow self * pitch self, extent).
Proof.
  unfold __init__. destruct (compact_shape backend shp) as [nr nc].
  destruct (_ =? 0); [discriminate|].
  destruct (rev shp) as [|lsd rest]; [discriminate|].
  intros [= <- <-]. unfold pitch. cbn. repeat split. f_equal. lia.
Qed.

(** [onalloc] on a matrix that the constructor has built with an initial
    value of the logical shape: the matrix is placed, the value is written,
    and [_initval] is deleted. *)
Lemma onalloc_with_initval backend dt shp A extent tags self0 req b o mem :
  __init__ backend dt shp (Some A) extent tags = inl (self0, req) ->
  1 <= ldmod_of backend dt tags ->
  0 <= fst (compact_shape backend shp) ->
  0 <= snd (compact_shape backend shp) ->
  fst (compact_shape backend shp) * snd (compact_shape backend shp)
    = size shp ->
  shape A = shp ->
  exists self,
    onalloc self0 b o mem = (self, inl tt, snd (set self A mem)) /\
    consistent self /\ data_ self = Some (b + o) /\
    basedata self = Some b /\ offset self = Some (o / np_itemsize dt) /\
    _initval self = None /\ ioshape self = shp /\ dtype_ self = dt /\
    (well_formed A ->
     row_bytes self (b + o) (snd (set self A mem)) = sent self A /\
     forall junk,
       get junk self (snd (set self A mem)) =
       inl {| shape := shp; arr_dtype := dt;
              data := map (fun v => decode dt (encode dt v))
                        (data (asanyarray A dt)) |}).
Proof.
  intros Hinit Hm Hnr Hnc Hsz Hs.
  destruct (init_consistent _ _ _ _ _ _ _ _ Hinit Hm Hnr Hnc Hsz)
    as (Hcons & _).
  destruct (init_fields _ _ _ _ _ _ _ _ Hinit)
    as (Hiv & _ & _ & Hdt & Hio & _ & _).
  assert (itemsize self0 = np_itemsize dt) as Hit
    by (destruct Hcons as (_ & _ & _ & _ & H & _); now rewrite H, Hdt).
  set (s1 := with_placement self0 b (b + o) (o / itemsize self0)).
  assert (consistent (del_initval s1)) as Hc1 by exact Hcons.
  assert (shape A = ioshape (del_initval s1)) as Hs1
    by (cbn; now rewrite Hio).
  exists (del_initval s1).
  pose proof (set_placed (del_initval s1) A (b + o) mem Hc1 eq_refl Hs1)
    as Hset.
  split.
  - unfold onalloc. fold s1. change (_initval s1) with (_initval self0).
    rewrite Hiv.
    change (set s1 A mem) with (set (del_initval s1) A mem).
    destruct (set (del_initval s1) A mem) as [[[]|e] mem'];
      [reflexivity|discriminate Hset].
  - split; [exact Hc1|]. split; [reflexivity|]. split; [reflexivity|].
    split; [rewrite <- Hit; reflexivity|]. split; [reflexivity|].
    split; [exact Hio|]. split; [exact Hdt|].
    intros Hwf. split.
    + exact (row_bytes_after_set _ A (b + o) mem Hc1 eq_refl Hs1 Hwf).
    + intros junk.
      rewrite (get_after_set_data junk _ A (b + o) mem Hc1 eq_refl Hs1 Hwf).
      rewrite <- Hio, <- Hdt. reflexivity.
Qed.

(** C4: on a placed matrix, for a host array of the logical shape whose
    numbers are representable in the type of the matrix, [set] returns, and
    [get] after it returns an array of the logical shape with the numbers of
    the array that was set.  [set] writes no byte outside the first
    [ncol*itemsize] bytes of the rows, and [get] returns the same for two
    memories that agree there: the padding is neither written nor read. *)
Theorem set_get_round_trip (self : CUDAMatrixBase) (A : ndarray) (d : Z)
  (mem : memory) :
  consistent self -> data_ self = Some d ->
  shape A = ioshape self -> well_formed A ->
  representable (dtype_ self) A ->
  fst (set self A mem) = inl tt /\
  (forall junk, exists B,
     get junk self (snd (set self A mem)) = inl B /\
     shape B = ioshape self /\ array_equal B A) /\
  (forall a, ~ in_rows self d a -> snd (set self A mem) a = mem a) /\
  (forall junk junk' m1 m2,
     (forall a, in_rows self d a -> m1 a = m2 a) ->
     get junk self m1 = get junk' self m2).
Proof.
  intros Hcons Hd Hs Hwf Hrep.
  pose proof (np_itemsize_pos (dtype_ self)) as Hpos.
  split; [|split; [|split]].
  - now rewrite (set_placed self A d mem Hcons Hd Hs).
  - intros junk. eexists. split; [apply (get_placed _ _ d); assumption|].
    split; [reflexivity|]. split; [now rewrite Hs|]. cbn [data].
    rewrite (row_bytes_after_set self A d mem Hcons Hd Hs Hwf).
    destruct Hcons as (Hcs & Hr & Hc & Hsz & Hit & Hld).
    unfold sent. rewrite (asanyarray_data A _ Hrep).
    replace (Z.to_nat (nrow self * ncol self)) with (List.length (data A))
      by (unfold well_formed in Hwf; now rewrite Hwf, Hs, Hsz).
    rewrite chunks_flat_map by (intros; rewrite Hit; apply encode_length).
    rewrite map_map. now apply representable_map.
  - intros a Ha. rewrite (set_placed self A d mem Hcons Hd Hs). cbn [snd].
    apply copy_rows_htod_frame. intros k Hk Hin. apply Ha.
    destruct Hcons as (Hcs & Hr & Hc & Hsz & Hit & Hld).
    exists (Z.of_nat k), (a - (d + Z.of_nat k * pitch self)).
    repeat split; lia.
  - intros junk junk' m1 m2 Hagree.
    rewrite (get_placed junk self d m1 Hcons Hd).
    rewrite (get_placed junk' self d m2 Hcons Hd).
    do 4 f_equal. unfold row_bytes. f_equal.
    apply map_ext_in. intros k Hk. apply in_seq in Hk.
    unfold read_bytes. apply map_ext_in. intros j Hj. apply in_seq in Hj.
    apply Hagree. exists (Z.of_nat k), (Z.of_nat j).
    destruct Hcons as (Hcs & Hr & Hc & Hsz & Hit & Hld).
    repeat split; lia.
Qed.

(** C8: [set] with an array whose shape is not the logical shape raises
    [ValueError] at once and leaves the device memory as it is, on every
    matrix; on a placed matrix, [set] with an array of the logical shape
    does not raise. *)
Theorem set_shape_mismatch (self : CUDAMatrixBase) (A : ndarray)
  (mem : memory) :
  (shape A <> ioshape self ->
   set self A mem = (inr (ValueError "Invalid matrix shape"), mem)) /\
  (forall d, consistent self -> data_ self = Some d ->
             shape A = ioshape self -> fst (set self A mem) = inl tt).
Proof.
  split.
  - intros H. unfold set. now rewrite (shape_eqb_neq _ _ H).
  - intros d Hcons Hd Hs. now rewrite (set_placed self A d mem Hcons Hd Hs).
Qed.

End WithNumpy.

Lemma sample_matrix_consistent : consistent sample_matrix.
Proof. repeat split; cbn; lia. Qed.

(** [sample_matrix] is what the constructor and [onalloc] build. *)
Lemma sample_matrix_constructed :
  exists self,
    __init__ (numpy := numbers) sample_backend int32 [2; 3] None None
      ["align"%string] = inl (self, (32, None)) /\
    onalloc self 4096 64 sample_memory =
      (sample_matrix, inl tt, sample_memory).
Proof. eexists. split; reflexivity. Qed.

Lemma leaddim_least_aligned_witness :
  exists self req,
    __init__ (numpy := numbers) sample_backend int32 [2; 13] None None
      ["align"%string] = inl (self, req) /\
    leaddim self = 16.
Proof.
  destruct (leaddim_least_aligned (numpy := numbers) sample_backend int32
              [2; 13] None None ["align"%string])
    as [(self & req & H & _ & Hl & _) _];
    [cbn; lia|cbn; lia|discriminate|].
  exists self, req. split; [exact H|exact Hl].
Defined.

Lemma set_get_round_trip_witness :
  @get numbers (fun _ => Int 0) sample_matrix
    (snd (set sample_matrix sample_array sample_memory)) = inl sample_array.
Proof.
  destruct (set_get_round_trip sample_matrix sample_array 4160 sample_memory
              sample_matrix_consistent eq_refl eq_refl eq_refl)
    as (_ & H & _).
  - repeat constructor.
  - destruct (H (fun _ : nat => Int 0)) as (B & HB & _ & Hs & Hd).
    rewrite HB.
    assert (arr_dtype B = int32) as Hdt.
    { apply (f_equal (fun x => match x with
                               | inl b => arr_dtype b
                               | inr _ => int32
                               end)) in HB.
      symmetry. exact HB. }
    destruct B as [sh dt da]. cbn in Hs, Hd, Hdt. subst. reflexivity.
Defined.

Lemma set_shape_mismatch_witness :
  set sample_matrix wrong_shape_array sample_memory =
  (inr (ValueError "Invalid matrix shape"), sample_memory).
Proof.
  apply (set_shape_mismatch sample_matrix wrong_shape_array sample_memory).
  discriminate.
Defined.

End MatrixSpec.

(* ===================================================================== *)
(** * Indexed views: the offsets *)
(* ===================================================================== *)

Module ViewSpec.
Import Matrix View MatrixSpec.

Local Open Scope Z_scope.

Lemma wrap32_small z : - 2 ^ 31 <= z < 2 ^ 31 -> wrap32 z = z.
Proof. intros H. unfold wrap32. rewrite Z.mod_small; lia. Qed.

Lemma wrap32_add_l a b : wrap32 (wrap32 a + b) = wrap32 (a + b).
Proof.
  unfold wrap32. f_equal.
  replace (((a + 2 ^ 31) mod 2 ^ 32 - 2 ^ 31) + b + 2 ^ 31)
    with ((a + 2 ^ 31) mod 2 ^ 32 + b) by lia.
  rewrite Z.add_mod_idemp_l by lia. f_equal. lia.
Qed.

Lemma positions_In items m i :
  In i (positions items m) <-> nth_error items i = Some m.
Proof.
  unfold positions. rewrite filter_In, in_seq. split.
  - intros [_ H]. destruct (nth_error items i) as [m'|]; [|discriminate].
    apply Nat.eqb_eq in H. now subst.
  - intros H. split.
    + assert (nth_error items i <> None) as Hn by congruence.
      apply nth_error_Some in Hn. lia.
    + rewrite H. apply Nat.eqb_refl.
Qed.

Lemma positions_lt items m i :
  In i (positions items m) -> (i < List.length items)%nat.
Proof.
  intros H. apply positions_In in H. apply nth_error_Some. congruence.
Qed.

Lemma size_cons n shp : size (n :: shp) = n * size shp.
Proof. reflexivity. Qed.

Lemma size_nonneg shp : Forall (fun n => 0 <= n) shp -> 0 <= size shp.
Proof.
  induction 1 as [|n shp Hn _ IH]; [cbn; lia|]. rewrite size_cons. nia.
Qed.

(** In an array of the shape that the indices were taken from, the indices
    of the element at position [p] select that element. *)
Lemma select_unravel shp :
  Forall (fun n => 0 <= n) shp ->
  forall p, 0 <= p < size shp -> select shp (unravel shp p) = Some (p, 1).
Proof.
  induction 1 as [|n shp Hn Hshp IH]; intros p Hp.
  - cbn in *. f_equal. f_equal. lia.
  - rewrite size_cons in Hp. pose proof (size_nonneg shp Hshp) as Hs.
    assert (0 < size shp) as Hpos by nia.
    cbn [unravel select].
    assert (0 <= p / size shp) as H1 by (apply Z.div_pos; lia).
    assert (p / size shp < n) as H2
      by (apply Z.div_lt_upper_bound; lia).
    assert ((0 <=? p / size shp) && (p / size shp <? n) = true) as ->
      by (apply andb_true_intro; split;
          [now apply Z.leb_le|now apply Z.ltb_lt]).
    rewrite (IH (p mod size shp)) by (apply Z.mod_pos_bound; lia).
    f_equal. f_equal.
    pose proof (Z.div_mod p (size shp) ltac:(lia)). lia.
Qed.

Lemma selected_positions shp (ps : list nat) :
  Forall (fun n => 0 <= n) shp ->
  (forall p, In p ps -> Z.of_nat p < size shp) ->
  selected shp (map (fun p => unravel shp (Z.of_nat p)) ps) = inl ps.
Proof.
  intros Hshp. induction ps as [|p ps IH]; intros Hb; [reflexivity|].
  cbn [map selected].
  rewrite (select_unravel shp Hshp (Z.of_nat p))
    by (split; [lia|apply Hb; now left]).
  rewrite IH by (intros q Hq; apply Hb; now right).
  rewrite Nat2Z.id. reflexivity.
Qed.

(** When the array of matrices and the array that is indexed have the same
    shape, [offmap[np.where(matmap == m)]] selects the elements of [offmap]
    at the positions of [m] in [matmap]. *)
Lemma getitem_where matmap shp m :
  oshape matmap = shp -> shp <> [] -> Forall (fun n => 0 <= n) shp ->
  Z.of_nat (List.length (oitems matmap)) = size shp ->
  getitem shp (List.length (where_shape matmap)) (where_eq matmap m)
  = inl (positions (oitems matmap) m).
Proof.
  intros Ho Hne Hshp Hlen. unfold getitem, where_eq, where_shape.
  rewrite Ho. destruct shp as [|n shp']; [contradiction|].
  rewrite Nat.ltb_irrefl. apply selected_positions; [exact Hshp|].
  intros p Hp. apply positions_lt in Hp. lia.
Qed.

Lemma nth_error_combine_seq {A} (l : list A) : forall start j x,
  nth_error l j = Some x ->
  nth_error (combine (seq start (List.length l)) l) j = Some ((start + j)%nat, x).
Proof.
  induction l as [|a l IH]; intros start [|j] x H; cbn in *;
    try discriminate.
  - injection H as ->. now rewrite Nat.add_0_r.
  - rewrite (IH (S start) j x H). f_equal. f_equal. lia.
Qed.

Lemma length_add_at ps off ld r offmap :
  List.length (add_at ps off ld r offmap) = List.length offmap.
Proof.
  unfold add_at. rewrite length_map, length_combine, length_seq. lia.
Qed.

(** The in-place addition: the selected elements get the sum, the others
    stay. *)
Lemma nth_error_add_at ps off ld r offmap j oj :
  nth_error offmap j = Some oj ->
  nth_error (add_at ps off ld r offmap) j =
  Some (if existsb (Nat.eqb j) ps
        then wrap32 (oj + (off + nth j r 0 * ld)) else oj).
Proof.
  intros H. unfold add_at. rewrite nth_error_map.
  rewrite (nth_error_combine_seq offmap 0 j oj H). reflexivity.
Qed.

Lemma existsb_eqb_In j ps : existsb (Nat.eqb j) ps = true <-> In j ps.
Proof.
  rewrite existsb_exists. split.
  - intros (x & Hx & E). apply Nat.eqb_eq in E. now subst.
  - intros H. exists j. split; [exact H|apply Nat.eqb_refl].
Qed.

Section WithHeap.
Context {numpy : Scalars}.
Variable heap : objref -> CUDAMatrixBase.
Variable base_init : objarray -> view_base + exn.

(** The loop over the matrices adds, at every position, the offset of the
    matrix at that position, once. *)
Lemma offsets_loop_spec matmap shp r :
  oshape matmap = shp -> shp <> [] -> Forall (fun n => 0 <= n) shp ->
  Z.of_nat (List.length (oitems matmap)) = size shp ->
  forall mats offmap,
  NoDup mats ->
  (forall m, In m mats -> offset (heap m) <> None) ->
  List.length offmap = List.length (oitems matmap) ->
  exists offmap',
    offsets_loop heap mats matmap shp r offmap = inl offmap' /\
    List.length offmap' = List.length (oitems matmap) /\
    forall i m ri oi,
      nth_error (oitems matmap) i = Some m -> nth_error r i = Some ri ->
      nth_error offmap i = Some oi ->
      (In m mats -> forall off, offset (heap m) = Some off ->
         nth_error offmap' i =
         Some (wrap32 (oi + (off + ri * leaddim (heap m))))) /\
      (~ In m mats -> nth_error offmap' i = Some oi).
Proof.
  intros Hsh Hne Hshp Hlen. subst shp.
  induction mats as [|m0 rest IH]; intros offmap Hnd Hpl Ho.
  - exists offmap. split; [reflexivity|]. split; [exact Ho|].
    intros i m ri oi _ _ Hoi. split; [intros []|now intros _].
  - inversion Hnd as [|? ? Hni Hnd']; subst. cbn [offsets_loop].
    rewrite (getitem_where matmap _ m0 eq_refl Hne Hshp Hlen).
    destruct (offset (heap m0)) as [off0|] eqn:Eoff;
      [|exfalso; now apply (Hpl m0 (or_introl eq_refl))].
    set (offmap1 := add_at (positions (oitems matmap) m0) off0
                      (leaddim (heap m0)) r offmap).
    destruct (IH offmap1 Hnd') as (offmap' & E & L & H).
    { intros m Hm. apply Hpl. now right. }
    { unfold offmap1. now rewrite length_add_at. }
    exists offmap'. split; [exact E|]. split; [exact L|].
    intros i m ri oi Hm Hri Hoi.
    pose proof (nth_error_add_at (positions (oitems matmap) m0) off0
                  (leaddim (heap m0)) r offmap i oi Hoi) as H1.
    fold offmap1 in H1.
    rewrite (nth_error_nth r i 0 Hri) in H1.
    destruct (Nat.eq_dec m m0) as [->|Hneq].
    + assert (existsb (Nat.eqb i) (positions (oitems matmap) m0) = true)
        as Hex by (apply existsb_eqb_In, positions_In; exact Hm).
      rewrite Hex in H1.
      destruct (H i m0 ri _ Hm Hri H1) as [_ Hkeep]. split.
      * intros _ off Hoff. rewrite (Hkeep Hni). congruence.
      * intros Hn. exfalso. apply Hn. now left.
    + assert (existsb (Nat.eqb i) (positions (oitems matmap) m0) = false)
        as Hex.
      { destruct (existsb _ _) eqn:Hex; [|reflexivity].
        apply existsb_eqb_In, positions_In in Hex. congruence. }
      rewrite Hex in H1.
      destruct (H i m ri oi Hm Hri H1) as [Hadd Hkeep]. split.
      * intros [->|Hm'] off Hoff; [congruence|]. now apply Hadd.
      * intros Hn. apply Hkeep. intros Hm'. apply Hn. now right.
Qed.

(** With arrays of one shape, the loop stops at the first matrix that has
    no offset. *)
Lemma offsets_loop_unplaced matmap shp r :
  oshape matmap = shp -> shp <> [] -> Forall (fun n => 0 <= n) shp ->
  Z.of_nat (List.length (oitems matmap)) = size shp ->
  forall mats offmap,
  (exists m, In m mats /\ offset (heap m) = None) ->
  offsets_loop heap mats matmap shp r offmap
  = inr (AttributeError "offset").
Proof.
  intros Hsh Hne Hshp Hlen. subst shp.
  induction mats as [|m0 rest IH]; intros offmap (m & Hin & Hm).
  - destruct Hin.
  - cbn [offsets_loop].
    rewrite (getitem_where matmap _ m0 eq_refl Hne Hshp Hlen).
    destruct (offset (heap m0)) as [off0|] eqn:E0; [|reflexivity].
    apply IH. exists m. split; [|exact Hm].
    destruct Hin as [<-|Hin]; [congruence|exact Hin].
Qed.

Lemma matrix_init_ok backend dt nr nc initval extent tags :
  ldmod_of backend dt tags <> 0 ->
  exists self req,
    Matrix.__init__ backend dt [nr; nc] initval extent tags
      = inl (self, req) /\
    ioshape self = [nr; nc] /\ dtype_ self = dt /\
    _initval self = Some initval.
Proof.
  intros Hm. unfold Matrix.__init__. fold (ldmod_of backend dt tags).
  destruct (compact_shape backend [nr; nc]) as [n c].
  apply Z.eqb_neq in Hm. rewrite Hm. cbn [rev app].
  eexists. eexists. split; [reflexivity|]. now cbn.
Qed.

(** The constructor of a view over arrays of the shape of the view: it
    returns, and the offsets are the sums, cut to 32 bits. *)
Lemma view_init_ok (backend : Backend) (matmap : objarray)
  (rcmap : rcarray) (stridemap : ndarray) (vl : Z) (tags : list string)
  (nr nc : Z) (mats : list objref) :
  base_init matmap = inl (nr, nc, mats) ->
  NoDup mats -> (forall m, In m (oitems matmap) -> In m mats) ->
  (forall m, In m mats -> offset (heap m) <> None) ->
  oshape matmap = [nr; nc] -> rcshape rcmap = [nr; nc] ->
  0 <= nr -> 0 <= nc ->
  List.length (oitems matmap) = Z.to_nat (nr * nc) ->
  List.length (rc rcmap) = Z.to_nat (nr * nc) ->
  ldmod_of backend int32 tags <> 0 ->
  exists mp rq1 st rq2 offmap,
    Matrix.__init__ backend int32 [nr; nc]
      (Some (int32_array [nr; nc] offmap)) None tags = inl (mp, rq1) /\
    Matrix.__init__ backend int32 [nr; nc] (Some stridemap) None tags
      = inl (st, rq2) /\
    __init__ heap base_init backend matmap rcmap stridemap vl tags
      = inl ({| view_nrow := nr; view_ncol := nc; vlen := vl;
                _mats := mats; mapping := mp; strides := st |},
             [rq1; rq2]) /\
    List.length offmap = List.length (oitems matmap) /\
    forall i m off r c,
      nth_error (oitems matmap) i = Some m ->
      nth_error (rc rcmap) i = Some (r, c) ->
      offset (heap m) = Some off ->
      nth_error offmap i = Some (wrap32 (off + r * leaddim (heap m) + c)).
Proof.
  intros Hbase Hnd Hcover Hpl Hos Hrs Hnr Hnc Hlo Hlr Hm.
  assert (Z.of_nat (List.length (oitems matmap)) = size [nr; nc]) as Hsz
    by (rewrite Hlo, size_pair, Z2Nat.id; nia).
  destruct (offsets_loop_spec matmap [nr; nc] (map fst (rc rcmap)) Hos
              ltac:(discriminate) ltac:(repeat constructor; assumption) Hsz
              mats (map wrap32 (map snd (rc rcmap))) Hnd Hpl)
    as (offmap & E & L & H).
  { rewrite !length_map. lia. }
  destruct (matrix_init_ok backend int32 nr nc
              (Some (int32_array [nr; nc] offmap)) None tags Hm)
    as (mp & rq1 & E1 & _).
  destruct (matrix_init_ok backend int32 nr nc (Some stridemap) None tags Hm)
    as (st & rq2 & E2 & _).
  exists mp, rq1, st, rq2, offmap.
  split; [exact E1|]. split; [exact E2|]. split.
  - unfold __init__. rewrite Hbase, Hrs, E, E1, E2. reflexivity.
  - split; [exact L|]. intros i m off r c Hi Hrc Hoff.
    destruct (H i m r (wrap32 c) Hi) as [Hadd _].
    + rewrite nth_error_map, Hrc. reflexivity.
    + rewrite !nth_error_map, Hrc. reflexivity.
    + rewrite (Hadd (Hcover m (nth_error_In _ _ Hi)) off Hoff).
      rewrite wrap32_add_l. do 2 f_equal. lia.
Qed.

(** C7, amended: for a matrix map and a row/column map of the shape of the
    view, over placed matrices, with offsets, leading dimensions, rows and
    columns in the range of 64-bit integers, the constructor of a view
    returns.  Its two buffers are [np.int32] buffers of
    the shape of the view.  The compiled offset at every position is
    [m.offset + row*m.leaddim + col] for the matrix [m] at that position,
    reduced to its low 32 bits in two's complement, which is that number
    itself whenever it fits in 32 bits.  Once placed, the mapping buffer
    holds the compiled offsets and, for a stride map of the shape of the
    view, the stride buffer holds the stride map that was given, converted
    to [np.int32]: these are the bytes of their rows, and what [get] reads
    back. *)
Theorem view_offsets (backend : Backend) (matmap : objarray)
  (rcmap : rcarray) (stridemap : ndarray) (vl : Z) (tags : list string)
  (nr nc : Z) (mats : list objref) :
  base_init matmap = inl (nr, nc, mats) ->
  NoDup mats -> (forall m, In m (oitems matmap) -> In m mats) ->
  (forall m, In m mats ->
     int64_range (leaddim (heap m)) /\
     exists off, offset (heap m) = Some off /\ int64_range off) ->
  (forall r c, In (r, c) (rc rcmap) -> int64_range r /\ int64_range c) ->
  oshape matmap = [nr; nc] -> rcshape rcmap = [nr; nc] ->
  0 <= nr -> 0 <= nc ->
  List.length (oitems matmap) = Z.to_nat (nr * nc) ->
  List.length (rc rcmap) = Z.to_nat (nr * nc) ->
  1 <= ldmod_of backend int32 tags ->
  0 <= fst (compact_shape backend [nr; nc]) ->
  0 <= snd (compact_shape backend [nr; nc]) ->
  fst (compact_shape backend [nr; nc]) * snd (compact_shape backend [nr; nc])
    = nr * nc ->
  exists v reqs offmap,
    __init__ heap base_init backend matmap rcmap stridemap vl tags
      = inl (v, reqs) /\
    ioshape (mapping v) = [nr; nc] /\ dtype_ (mapping v) = int32 /\
    ioshape (strides v) = [nr; nc] /\ dtype_ (strides v) = int32 /\
    List.length offmap = List.length (oitems matmap) /\
    (forall i m off r c,
       nth_error (oitems matmap) i = Some m ->
       nth_error (rc rcmap) i = Some (r, c) ->
       offset (heap m) = Some off ->
       nth_error offmap i = Some (wrap32 (off + r * leaddim (heap m) + c)) /\
       (- 2 ^ 31 <= off + r * leaddim (heap m) + c < 2 ^ 31 ->
        nth_error offmap i = Some (off + r * leaddim (heap m) + c))) /\
    (forall b o mem, exists self mem',
       onalloc (mapping v) b o mem = (self, inl tt, mem') /\
       data_ self = Some (b + o) /\
       row_bytes self (b + o) mem'
       = flat_map (encode int32) (map int offmap) /\
       forall junk,
         get junk self mem' =
         inl {| shape := [nr; nc]; arr_dtype := int32;
                data := map (fun z => decode int32 (encode int32 (int z)))
                          offmap |}) /\
    (shape stridemap = [nr; nc] -> well_formed stridemap ->
     forall b o mem, exists self mem',
       onalloc (strides v) b o mem = (self, inl tt, mem') /\
       data_ self = Some (b + o) /\
       row_bytes self (b + o) mem'
       = flat_map (encode int32) (data (asanyarray stridemap int32)) /\
       forall junk, exists B,
         get junk self mem' = inl B /\
         shape B = [nr; nc] /\ arr_dtype B = int32 /\
         data B = map (fun v => decode int32 (encode int32 v))
                    (data (asanyarray stridemap int32)) /\
         (representable int32 stridemap -> array_equal B stridemap)).
Proof.
  intros Hbase Hnd Hcover Hpl _ Hos Hrs Hnr Hnc Hlo Hlr Hm Hc1 Hc2 Hc3'.
  assert (fst (compact_shape backend [nr; nc])
          * snd (compact_shape backend [nr; nc]) = size [nr; nc]) as Hc3
    by (rewrite size_pair; exact Hc3').
  assert (ldmod_of backend int32 tags <> 0) as Hm' by lia.
  assert (forall m, In m mats -> offset (heap m) <> None) as Hpl'.
  { intros m Hin. destruct (Hpl m Hin) as (_ & off & -> & _). discriminate. }
  destruct (view_init_ok backend matmap rcmap stridemap vl tags nr nc mats
              Hbase Hnd Hcover Hpl' Hos Hrs Hnr Hnc Hlo Hlr Hm')
    as (mp & rq1 & st & rq2 & offmap & E1 & E2 & E & L & H).
  destruct (init_fields _ _ _ _ _ _ _ _ E1) as (_ & _ & _ & M2 & M1 & _).
  destruct (init_fields _ _ _ _ _ _ _ _ E2) as (_ & _ & _ & S2 & S1 & _).
  eexists. eexists. exists offmap. split; [exact E|]. cbn [mapping strides].
  split; [exact M1|]. split; [exact M2|]. split; [exact S1|].
  split; [exact S2|]. split; [exact L|]. split; [|split].
  - intros i m off r c Hi Hrc Hoff.
    pose proof (H i m off r c Hi Hrc Hoff) as Hv.
    split; [exact Hv|]. intros Hfit. rewrite Hv. f_equal.
    now apply wrap32_small.
  - intros b o mem.
    destruct (onalloc_with_initval backend int32 [nr; nc]
                (int32_array [nr; nc] offmap) None tags mp rq1 b o mem
                E1 Hm Hc1 Hc2 Hc3 eq_refl)
      as (self & Eo & _ & Hd & _ & _ & _ & _ & Hdt & Hst).
    destruct Hst as [Hrow Hget].
    { unfold well_formed, int32_array. cbn [data shape].
      rewrite length_map, L, Hlo, size_pair. reflexivity. }
    exists self, (snd (set self (int32_array [nr; nc] offmap) mem)).
    split; [exact Eo|]. split; [exact Hd|]. split.
    + rewrite Hrow. unfold sent. rewrite Hdt. reflexivity.
    + intros junk. rewrite (Hget junk). cbn [asanyarray int32_array].
      unfold asanyarray. cbn. now rewrite map_map.
  - intros Hss Hwf b o mem.
    destruct (onalloc_with_initval backend int32 [nr; nc] stridemap None
                tags st rq2 b o mem E2 Hm Hc1 Hc2 Hc3 Hss)
      as (self & Eo & _ & Hd & _ & _ & _ & _ & Hdt & Hst).
    destruct (Hst Hwf) as [Hrow Hget].
    exists self, (snd (set self stridemap mem)).
    split; [exact Eo|]. split; [exact Hd|]. split.
    + rewrite Hrow. unfold sent. now rewrite Hdt.
    + intros junk. eexists. split; [apply Hget|]. cbn [shape arr_dtype data].
      split; [reflexivity|]. split; [reflexivity|]. split; [reflexivity|].
      intros Hrep. split; [cbn; now rewrite Hss|]. cbn [data].
      rewrite (asanyarray_data stridemap _ Hrep).
      now apply representable_map.
Qed.

End WithHeap.

(** C7, as stated, fails: in the view over [sample_heap], the element that
    refers to [far_matrix], at row 0 and column 0, is compiled to
    [-2147483648], not to [m.offset + row*m.leaddim + col = 2147483648];
    that is the number that the mapping buffer holds once placed. *)
Lemma view_offset_wraps :
  exists v reqs,
    __init__ sample_heap base_View__init__ sample_backend sample_matmap
      sample_rcmap sample_strides 1 [] = inl (v, reqs) /\
    _initval (mapping v) =
      Some (Some (@int32_array numbers [1; 2] [22; -2147483648])) /\
    (let '(self, _, mem) := onalloc (mapping v) 4096 256 sample_memory in
     @get numbers (fun _ => Int 0) self mem) =
      inl (@int32_array numbers [1; 2] [22; -2147483648]) /\
    nth_error (oitems sample_matmap) 1 = Some 1%nat /\
    nth_error (rc sample_rcmap) 1 = Some (0, 0) /\
    offset (sample_heap 1%nat) = Some 2147483648 /\
    -2147483648 <> 2147483648 + 0 * leaddim (sample_heap 1%nat) + 0.
Proof.
  eexists. eexists. split; [reflexivity|].
  repeat split. cbn. discriminate.
Qed.

Lemma view_offsets_witness :
  exists v reqs offmap,
    __init__ sample_heap base_View__init__ sample_backend sample_matmap
      sample_rcmap sample_strides 1 [] = inl (v, reqs) /\
    nth_error offmap 0 = Some 22 /\
    exists self mem',
      onalloc (mapping v) 4096 256 sample_memory = (self, inl tt, mem') /\
      @get numbers (fun _ => Int 0) self mem' =
      inl {| shape := [1; 2]; arr_dtype := int32;
             data := map (fun z => @decode numbers int32
                                     (@encode numbers int32 (Int z)))
                       offmap |}.
Proof.
  destruct (view_offsets sample_heap base_View__init__ sample_backend
              sample_matmap sample_rcmap sample_strides 1 [] 1 2
              [0%nat; 1%nat] eq_refl)
    as (v & reqs & offmap & E & _ & _ & _ & _ & _ & H & Hmap & _).
  - repeat constructor; cbn; intuition discriminate.
  - intros m Hin. exact Hin.
  - intros m [<-|[<-|[]]]; (split; [unfold int64_range; cbn; lia|]);
      eexists; (split; [reflexivity|unfold int64_range; lia]).
  - intros r c [[= <- <-]|[[= <- <-]|[]]]; unfold int64_range; lia.
  - reflexivity.
  - reflexivity.
  - lia.
  - lia.
  - reflexivity.
  - reflexivity.
  - cbn; lia.
  - cbn; lia.
  - cbn; lia.
  - reflexivity.
  - exists v, reqs, offmap. split; [exact E|]. split.
    + destruct (H 0%nat 0%nat 16 1 2 eq_refl eq_refl eq_refl) as [_ Hfit].
      apply Hfit. cbn. lia.
    + destruct (Hmap 4096 256 sample_memory) as (self & mem' & Eo & _ & _ & Hg).
      exists self, mem'. split; [exact Eo|apply Hg].
Defined.

End ViewSpec.


(* ===================================================================== *)
(** * The queue: further properties *)
(* ===================================================================== *)

Module QueueExtra.
Import Queue EffFacts QueueFacts.

(** One turn of the loop of [run] on a kernel. *)
Lemma steps_cons q item rtargs rest :
  _items q = (item, rtargs) :: rest ->
  is_kernel item = true -> last_is_kernel q ->
  steps q =
  Result (value (steps (next_state q item rest)))
         (final (steps (next_state q item rest)))
         (next_events q item rtargs
          ++ emitted (steps (next_state q item rest))).
Proof.
  intros Hi Hk Hl.
  rewrite steps_unfold by (unfold __nonzero__; now rewrite Hi).
  rewrite (bind_ok _exec_next (fun _ => steps) q tt)
    by now rewrite (exec_next_full q _ _ _ Hi Hk Hl).
  now rewrite (exec_next_full q _ _ _ Hi Hk Hl).
Qed.

Lemma synced_app prev evs evs' :
  synced prev (evs ++ evs') = synced prev evs && synced (track prev evs) evs'.
Proof.
  revert prev. induction evs as [|[item rtargs|calls] evs IH]; intros prev;
    simpl; [reflexivity| |apply IH].
  rewrite IH. apply andb_assoc.
Qed.

Lemma track_app prev evs evs' :
  track prev (evs ++ evs') = track (track prev evs) evs'.
Proof.
  revert prev. induction evs as [|[item rtargs|calls] evs IH]; intros prev;
    simpl; [reflexivity|apply IH|apply IH].
Qed.

Lemma waited_app evs evs' : waited (evs ++ evs') = waited evs ++ waited evs'.
Proof.
  induction evs as [|[item rtargs|calls] evs IH]; simpl;
    [reflexivity|exact IH|]. now rewrite IH, app_assoc.
Qed.

(** What one turn of the loop of [run] adds to the observations. *)
Lemma next_facts q item rtargs rest :
  last_is_kernel q -> is_kernel item = true ->
  (List.length (waits (next_events q item rtargs))
   + kind_changes (Some (kclass item)) rest
   = kind_changes (last_class q) ((item, rtargs) :: rest))%nat /\
  synced (last_class q) (next_events q item rtargs) = true /\
  track (last_class q) (next_events q item rtargs) = Some (kclass item) /\
  waited (next_events q item rtargs) ++ _mpireqs (next_state q item rest)
  = _mpireqs q ++ posted [(item, rtargs)].
Proof.
  unfold last_is_kernel, last_class, next_events, next_state.
  destruct q as [[l|] reqs items]; cbn [_last _mpireqs _items option_map].
  - destruct l as [il [] pl], item as [ii [] pi]; cbn; intros;
      try discriminate; rewrite ?app_nil_r; repeat split; reflexivity.
  - destruct item as [ii [] pi]; cbn; intros; try discriminate;
      rewrite ?app_nil_r; repeat split; reflexivity.
Qed.

Lemma posted_cons x rest : posted (x :: rest) = posted [x] ++ posted rest.
Proof. unfold posted. simpl. now rewrite app_nil_r. Qed.

(** The loop of [run] on kernels: the number of waits, the pairing of runs
    and waits, and the requests waited for. *)
Lemma steps_kernels items : forall q,
  _items q = items -> valid_items q -> last_is_kernel q ->
  value (steps q) = inl tt /\
  _items (final (steps q)) = [] /\
  last_is_kernel (final (steps q)) /\
  List.length (waits (emitted (steps q)))
    = kind_changes (last_class q) items /\
  synced (last_class q) (emitted (steps q)) = true /\
  track (last_class q) (emitted (steps q)) = last_class (final (steps q)) /\
  waited (emitted (steps q)) ++ _mpireqs (final (steps q))
    = _mpireqs q ++ posted items /\
  _last (final (steps q)) = last (map (fun x => Some (fst x)) items) (_last q).
Proof.
  induction items as [|[item rtargs] rest IH]; intros q Hi Hv Hl.
  - rewrite steps_done by (unfold __nonzero__; now rewrite Hi).
    cbn. rewrite app_nil_r. repeat split; [exact Hi|exact Hl].
  - destruct (valid_items_cons q _ _ Hi Hv) as [Hk Hrest]. cbn in Hk.
    rewrite (steps_cons q _ _ _ Hi Hk Hl). cbn [value final emitted].
    destruct (IH (next_state q item rest) eq_refl Hrest Hk)
      as (I1 & I2 & I3 & I4 & I5 & I6 & I7 & I8).
    destruct (next_facts q item rtargs rest Hl Hk) as (F1 & F2 & F3 & F4).
    change (last_class (next_state q item rest)) with (Some (kclass item))
      in I4, I5, I6.
    repeat split; [exact I1|exact I2|exact I3| | | | |].
    + rewrite waits_app, length_app, I4. exact F1.
    + now rewrite synced_app, F2, F3, I5.
    + now rewrite track_app, F3.
    + rewrite waited_app, <- app_assoc, I7, app_assoc, F4, <- app_assoc.
      now rewrite <- posted_cons.
    + rewrite I8. cbn [_last next_state map fst]. symmetry. apply last_cons.
Qed.

(** The wait that ends [run], in a state of the invariant. *)
Lemma wait_facts s :
  Inv s ->
  _wait s =
    Result (inl tt) {| _last := None; _mpireqs := []; _items := _items s |}
      (emitted (_wait s)) /\
  List.length (waits (emitted (_wait s)))
    = match _last s with Some _ => 1 | None => 0 end /\
  (forall prev, synced prev (emitted (_wait s)) = true) /\
  track (last_class s) (emitted (_wait s)) = None /\
  waited (emitted (_wait s)) = _mpireqs s.
Proof.
  intros [Hl Hr]. unfold last_is_kernel, requests_tracked, last_class in *.
  assert (ismpikernel (_last s) = false -> _mpireqs s = []) as Hnil.
  { intros E. destruct (_mpireqs s); [reflexivity|].
    rewrite E in Hr. discriminate Hr. discriminate. }
  destruct s as [[l|] reqs items]; cbn [_last _mpireqs _items] in *.
  - destruct l as [il [] pl]; cbn in *; try discriminate.
    + rewrite (Hnil eq_refl). repeat split.
    + repeat split; rewrite ?app_nil_r; reflexivity.
  - rewrite (Hnil eq_refl). repeat split.
Qed.

(** [run] on kernels, from the observations of its loop. *)
Lemma run_kernels q :
  valid_items q -> Inv q ->
  run q =
    Result (inl tt) __init__
      (emitted (steps q) ++ emitted (_wait (final (steps q)))) /\
  Inv (final (steps q)).
Proof.
  intros Hv HI.
  destruct (steps_kernels (_items q) q eq_refl Hv (proj1 HI))
    as (S1 & S2 & _).
  pose proof (Inv_steps q HI) as HI'.
  destruct (wait_facts _ HI') as (W & _). split; [|exact HI'].
  rewrite run_steps, (bind_ok steps (fun _ => _wait) q tt S1).
  rewrite W. cbn [value final emitted]. now rewrite S2.
Qed.

(** X1: [run] on a reachable queue of kernels returns, has called [run] on
    every pending item exactly once, in the order of the deque, and leaves
    the queue in the state of a new queue; a second [run] right after it
    does nothing. *)
Theorem run_runs_all_in_order (q : CUDAQueue) :
  reachable q -> valid_items q ->
  value (run q) = inl tt /\
  launched (emitted (run q)) = _items q /\
  final (run q) = __init__ /\
  run (final (run q)) = Result (inl tt) __init__ [].
Proof.
  intros Hr Hv. pose proof (reachable_Inv q Hr) as HI.
  destruct (run_kernels q Hv HI) as [E _].
  destruct (run_valid q Hv HI) as (_ & Hl & _).
  split; [now rewrite E|]. split; [exact Hl|]. rewrite E. now split.
Qed.

Lemma run_runs_all_in_order_witness :
  launched (emitted (run queue_CCMMC)) = _items queue_CCMMC /\
  final (run queue_CCMMC) = __init__.
Proof.
  destruct (run_runs_all_in_order queue_CCMMC (reachable_fresh _))
    as (_ & H1 & H2 & _); [repeat constructor|].
  split; [exact H1|exact H2].
Defined.

(** X2: the number of blocking waits of [run] on a reachable queue of
    kernels is the number of pending items whose kind differs from that of
    the item before them (for the first one, from that of [_last]), plus one
    for the wait at the end unless there is neither a pending nor a last
    item. *)
Theorem run_wait_count (q : CUDAQueue) :
  reachable q -> valid_items q ->
  List.length (waits (emitted (run q))) =
  kind_changes (last_class q) (_items q)
  + match _last q with
    | Some _ => 1
    | None => if __nonzero__ q then 1 else 0
    end.
Proof.
  intros Hr Hv. pose proof (reachable_Inv q Hr) as HI.
  destruct (run_kernels q Hv HI) as [E HI'].
  destruct (steps_kernels (_items q) q eq_refl Hv (proj1 HI))
    as (_ & _ & _ & S4 & _ & _ & _ & S8).
  destruct (wait_facts _ HI') as (_ & W2 & _).
  rewrite E. cbn [emitted]. rewrite waits_app, length_app, S4, W2, S8.
  f_equal. unfold __nonzero__.
  destruct (_items q) as [|x rest]; [reflexivity|].
  cbn [map]. rewrite last_cons.
  assert (forall (l : list (kernel * list rtarg)) d,
            exists k, last (map (fun x => Some (fst x)) l) (Some d) = Some k)
    as Hsome.
  { induction l as [|y l IHl]; intros d; [now exists d|].
    cbn [map]. rewrite last_cons. apply IHl. }
  destruct (Hsome rest (fst x)) as [k ->]. now destruct (_last q).
Qed.

Lemma run_wait_count_witness :
  List.length (waits (emitted (run queue_after_mpi))) = 2.
Proof.
  assert (reachable queue_after_mpi) as Hr
    by (unfold queue_after_mpi; apply reach_exec_next, reachable_fresh).
  rewrite (run_wait_count queue_after_mpi Hr); [reflexivity|].
  repeat constructor.
Defined.

(** X3: in the log of [run] on a reachable queue of kernels, no item is run
    after an item of the other kind without a wait between the two, and
    nothing is outstanding at the end. *)
Theorem run_synced (q : CUDAQueue) :
  reachable q -> valid_items q ->
  synced (last_class q) (emitted (run q)) = true /\
  track (last_class q) (emitted (run q)) = None.
Proof.
  intros Hr Hv. pose proof (reachable_Inv q Hr) as HI.
  destruct (run_kernels q Hv HI) as [E HI'].
  destruct (steps_kernels (_items q) q eq_refl Hv (proj1 HI))
    as (_ & _ & _ & _ & S5 & S6 & _).
  destruct (wait_facts _ HI') as (_ & _ & W3 & W4 & _).
  rewrite E. cbn [emitted]. rewrite synced_app, track_app, S5, S6, W3.
  split; [reflexivity|exact W4].
Qed.

Lemma run_synced_witness :
  synced None (emitted (run queue_CCMMC)) = true.
Proof.
  destruct (run_synced queue_CCMMC (reachable_fresh _)) as [H _];
    [repeat constructor|exact H].
Defined.

(** X4: [run] on a reachable queue of kernels waits for every request
    exactly once and in order: the requests that were outstanding when it
    started, then those that its MPI items post. *)
Theorem run_waits_for_every_request (q : CUDAQueue) :
  reachable q -> valid_items q ->
  waited (emitted (run q)) = _mpireqs q ++ posted (_items q).
Proof.
  intros Hr Hv. pose proof (reachable_Inv q Hr) as HI.
  destruct (run_kernels q Hv HI) as [E HI'].
  destruct (steps_kernels (_items q) q eq_refl Hv (proj1 HI))
    as (_ & _ & _ & _ & _ & _ & S7 & _).
  destruct (wait_facts _ HI') as (_ & _ & _ & _ & W5).
  rewrite E. cbn [emitted]. now rewrite waited_app, W5.
Qed.

Lemma run_waits_for_every_request_witness :
  waited (emitted (run queue_after_mpi)) = [30; 31].
Proof.
  assert (reachable queue_after_mpi) as Hr
    by (unfold queue_after_mpi; apply reach_exec_next, reachable_fresh).
  rewrite (run_waits_for_every_request queue_after_mpi Hr); [reflexivity|].
  repeat constructor.
Defined.

(** [_exec_next] on an object that is no kernel, in a state of the
    invariant. *)
Lemma exec_next_stray q item rtargs rest :
  _items q = (item, rtargs) :: rest -> is_kernel item = false -> Inv q ->
  value (_exec_next q) = inr (ValueError "Non compute/MPI kernel in queue")
  /\ final (_exec_next q)
     = {| _last := None; _mpireqs := []; _items := rest |} /\
  launched (emitted (_exec_next q)) = [].
Proof.
  intros Hi Hk [Hl Hr]. rewrite (exec_next_cons q _ _ _ Hi).
  unfold last_is_kernel, requests_tracked in *.
  assert (ismpikernel (_last q) = false -> _mpireqs q = []) as Hnil.
  { intros E. destruct (_mpireqs q); [reflexivity|].
    rewrite E in Hr. discriminate Hr. discriminate. }
  destruct q as [[l|] reqs items]; cbn [_last _mpireqs _items] in *.
  - destruct l as [il [] pl], item as [ii [] pi]; cbn in *;
      try discriminate; rewrite ?(Hnil eq_refl); repeat split.
  - destruct item as [ii [] pi]; cbn in *; try discriminate.
    rewrite (Hnil eq_refl). repeat split.
Qed.

Lemma steps_stray pre : forall q item rtargs post,
  _items q = pre ++ (item, rtargs) :: post ->
  Forall (fun x => is_kernel (fst x) = true) pre ->
  is_kernel item = false -> Inv q ->
  value (steps q) = inr (ValueError "Non compute/MPI kernel in queue") /\
  final (steps q) = {| _last := None; _mpireqs := []; _items := post |} /\
  launched (emitted (steps q)) = pre.
Proof.
  induction pre as [|[k a] pre IH]; intros q item rtargs post Hi Hpre Hk HI.
  - destruct (exec_next_stray q _ _ _ Hi Hk HI) as (E1 & E2 & E3).
    rewrite steps_unfold by (unfold __nonzero__; now rewrite Hi).
    rewrite (bind_raise _exec_next (fun _ => steps) q _ E1).
    cbn [value final emitted]. now split.
  - inversion Hpre as [|? ? Hk0 Hpre']; subst. cbn in Hk0.
    change (((k, a) :: pre) ++ (item, rtargs) :: post)
      with ((k, a) :: (pre ++ (item, rtargs) :: post)) in Hi.
    rewrite (steps_cons q k a _ Hi Hk0 (proj1 HI)). cbn [value final emitted].
    assert (Inv (next_state q k (pre ++ (item, rtargs) :: post))) as HI'.
    { pose proof (Inv_exec_next q HI) as H.
      now rewrite (exec_next_full q _ _ _ Hi Hk0 (proj1 HI)) in H. }
    destruct (IH (next_state q k (pre ++ (item, rtargs) :: post))
                item rtargs post eq_refl Hpre' Hk HI') as (I1 & I2 & I3).
    repeat split; [exact I1|exact I2|].
    rewrite launched_app, I3. f_equal.
    unfold next_events. rewrite launched_app.
    now destruct (_at_sequence_point q k).
Qed.

(** X5: when the deque of a reachable queue holds kernels up to an object
    that is no kernel, [run] raises [ValueError] at that object.  The
    kernels before it have been run in order and waited for; the object is
    gone from the deque, which keeps the items after it; no work and no
    request is left outstanding. *)
Theorem run_stops_at_stray (q : CUDAQueue) pre item rtargs post :
  reachable q ->
  _items q = pre ++ (item, rtargs) :: post ->
  Forall (fun x => is_kernel (fst x) = true) pre ->
  is_kernel item = false ->
  value (run q) = inr (ValueError "Non compute/MPI kernel in queue") /\
  launched (emitted (run q)) = pre /\
  final (run q) = {| _last := None; _mpireqs := []; _items := post |} /\
  track (last_class q) (emitted (run q)) = None.
Proof.
  intros Hr Hi Hpre Hk. pose proof (reachable_Inv q Hr) as HI.
  destruct (steps_stray pre q item rtargs post Hi Hpre Hk HI)
    as (S1 & S2 & S3).
  rewrite run_steps, (bind_raise steps (fun _ => _wait) q _ S1).
  cbn [value final emitted]. repeat split; [exact S3|exact S2|].
  clear S1 S2 S3. revert q Hr Hi HI.
  induction pre as [|[k a] pre IH]; intros q Hr Hi HI.
  - rewrite steps_unfold by (unfold __nonzero__; now rewrite Hi).
    destruct (exec_next_stray q _ _ _ Hi Hk HI) as (E1 & _).
    rewrite (bind_raise _exec_next (fun _ => steps) q _ E1).
    cbn [emitted]. rewrite (exec_next_cons q _ _ _ Hi).
    destruct HI as [Hl Ht]. unfold last_is_kernel, last_class in *.
    destruct q as [[l|] reqs items]; cbn [_last _mpireqs _items] in *.
    + destruct l as [il [] pl], item as [ii [] pi]; cbn in *;
        try discriminate; reflexivity.
    + destruct item as [ii [] pi]; cbn in *; try discriminate; reflexivity.
  - inversion Hpre as [|? ? Hk0 Hpre']; subst. cbn in Hk0.
    change (((k, a) :: pre) ++ (item, rtargs) :: post)
      with ((k, a) :: (pre ++ (item, rtargs) :: post)) in Hi.
    rewrite (steps_cons q k a _ Hi Hk0 (proj1 HI)). cbn [emitted].
    destruct (next_facts q k a (pre ++ (item, rtargs) :: post)
                (proj1 HI) Hk0) as (_ & _ & F3 & _).
    rewrite track_app, F3.
    assert (final (_exec_next q)
            = next_state q k (pre ++ (item, rtargs) :: post)) as Hf
      by now rewrite (exec_next_full q _ _ _ Hi Hk0 (proj1 HI)).
    apply (IH Hpre' (next_state q k (pre ++ (item, rtargs) :: post))).
    + rewrite <- Hf. now apply reach_exec_next.
    + reflexivity.
    + rewrite <- Hf. now apply Inv_exec_next.
Qed.

Lemma run_stops_at_stray_witness :
  value (run (fresh [(comp 1, []); (stray 9, []); (mpi 3 [30], [])])) =
    inr (ValueError "Non compute/MPI kernel in queue") /\
  _items (final (run (fresh [(comp 1, []); (stray 9, []); (mpi 3 [30], [])])))
    = [(mpi 3 [30], [])].
Proof.
  destruct (run_stops_at_stray
              (fresh [(comp 1, []); (stray 9, []); (mpi 3 [30], [])])
              [(comp 1, [])] (stray 9) [] [(mpi 3 [30], [])]
              (reachable_fresh _) eq_refl)
    as (H1 & _ & H3 & _); [repeat constructor|reflexivity|].
  split; [exact H1|now rewrite H3].
Defined.

(** X6: on a queue as the public interface leaves it, [q % items] with
    kernels is a full run of what is pending, followed by a full run of
    [items] on a new queue: the new items start only after the wait that
    ends the first run, all items are run in order, and the queue is left
    as new. *)
Theorem mod_is_run_then_run (q : CUDAQueue) items :
  between_calls q -> Forall (fun x => is_kernel (fst x) = true) items ->
  __mod__ items q =
    Result (inl tt) __init__
      (emitted (run q) ++ emitted (run (fresh items))) /\
  launched (emitted (__mod__ items q)) = _items q ++ items.
Proof.
  intros Hq Hitems.
  destruct (between_calls_rest q Hq) as (Hv & _).
  pose proof (reachable_Inv q (between_calls_reachable q Hq)) as HI.
  destruct (run_kernels q Hv HI) as [E _].
  destruct (run_valid q Hv HI) as (_ & L1 & _).
  assert (valid_items (fresh items)) as Hv2 by exact Hitems.
  pose proof (reachable_Inv _ (reachable_fresh items)) as HI2.
  destruct (run_kernels (fresh items) Hv2 HI2) as [E2 _].
  destruct (run_valid (fresh items) Hv2 HI2) as (_ & L2 & _).
  assert (__mod__ items q =
          Result (inl tt) __init__
            (emitted (run q) ++ emitted (run (fresh items)))) as Hm.
  { unfold __mod__. rewrite (bind_ok run _ q tt) by now rewrite E.
    replace (final (run q)) with __init__ by now rewrite E.
    rewrite (bind_ok (__lshift__ items) (fun _ => run) __init__ tt eq_refl).
    fold (fresh items). cbn [emitted value final __lshift__ modify].
    rewrite app_nil_l. now rewrite E2. }
  split; [exact Hm|]. rewrite Hm. cbn [emitted].
  now rewrite launched_app, L1, L2.
Qed.

Lemma mod_is_run_then_run_witness :
  launched (emitted (__mod__ (_items queue_MM) queue_CCC))
  = _items queue_CCC ++ _items queue_MM.
Proof.
  destruct (mod_is_run_then_run queue_CCC (_items queue_MM)) as [_ H].
  - apply between_calls_fresh. repeat constructor.
  - repeat constructor.
  - exact H.
Defined.

(** What every turn of a loop emits, the loop emits. *)
Lemma while_emitted {St Ev : Type} (P : list Ev -> Prop)
  (cond : St -> bool) (body : M St Ev unit) :
  P [] -> (forall a b, P a -> P b -> P (a ++ b)) ->
  (forall s, cond s = true -> P (emitted (body s))) ->
  forall n s, P (emitted (while n cond body s)).
Proof.
  intros Hnil Happ Hbody n.
  induction n as [|n IH]; intros s; simpl; [exact Hnil|].
  destruct (cond s) eqn:Hc; [|exact Hnil].
  specialize (Hbody s Hc). unfold bind.
  destruct (body s) as [[[]|e] s1 ev1]; simpl in *; [|exact Hbody].
  specialize (IH s1). destruct (while n cond body s1) as [r s2 ev2].
  simpl in *. now apply Happ.
Qed.

Lemma exec_item_cases item rtargs q :
  waits (emitted (_exec_item item rtargs q)) = [] /\
  exists more,
    _mpireqs (final (_exec_item item rtargs q)) = _mpireqs q ++ more.
Proof.
  destruct (is_kernel item) eqn:Hk.
  - rewrite exec_item_kernel by exact Hk. split; [reflexivity|].
    cbn [final]. destruct (ismpikernel (Some item)); cbn.
    + now exists (kposts item).
    + exists []. now rewrite app_nil_r.
  - rewrite exec_item_other by exact Hk. split; [reflexivity|].
    exists []. cbn. now rewrite app_nil_r.
Qed.

(** X7: [_exec_nowait] never blocks, whatever the queue holds: its log has
    no wait.  It takes items from the front of the deque only, and it only
    adds to the list of outstanding requests. *)
Theorem exec_nowait_never_blocks (q : CUDAQueue) :
  waits (emitted (_exec_nowait q)) = [] /\
  (exists pre, _items q = pre ++ _items (final (_exec_nowait q))) /\
  (exists more, _mpireqs (final (_exec_nowait q)) = _mpireqs q ++ more).
Proof.
  unfold _exec_nowait. split; [|split].
  - apply (while_emitted (fun evs => waits evs = [])); [reflexivity| |].
    + intros a b Ha Hb. now rewrite waits_app, Ha, Hb.
    + intros s Hc. unfold nowait_cond in Hc.
      destruct (_items s) as [|[item rtargs] rest] eqn:Hi; [discriminate|].
      rewrite (nowait_body_cons s _ _ _ Hi). apply exec_item_cases.
  - apply (while_preserves (fun s => exists pre, _items q = pre ++ _items s)).
    + intros s [pre Hs] Hc. unfold nowait_cond in Hc.
      destruct (_items s) as [|[item rtargs] rest] eqn:Hi; [discriminate|].
      rewrite (nowait_body_items s _ _ _ Hi).
      exists (pre ++ [(item, rtargs)]). now rewrite <- app_assoc.
    + now exists [].
  - apply (while_preserves
             (fun s => exists more, _mpireqs s = _mpireqs q ++ more)).
    + intros s [more Hs] Hc. unfold nowait_cond in Hc.
      destruct (_items s) as [|[item rtargs] rest] eqn:Hi; [discriminate|].
      rewrite (nowait_body_cons s _ _ _ Hi).
      destruct (exec_item_cases item rtargs (set_items rest s))
        as [_ [more' Hm]].
      exists (more ++ more'). rewrite Hm. cbn. now rewrite Hs, app_assoc.
    + exists []. now rewrite app_nil_r.
Qed.

(** X8: on an empty deque, [_exec_next] raises [IndexError] and leaves the
    queue as it is; [_exec_nowait] returns at once; [run] is the wait for
    the last item alone. *)
Theorem empty_deque (q : CUDAQueue) :
  _items q = [] ->
  _exec_next q = Result (inr (IndexError "pop from an empty deque")) q [] /\
  _exec_nowait q = Result (inl tt) q [] /\
  run q = _wait q.
Proof.
  intros Hi. split; [now apply exec_next_empty|]. split.
  - apply exec_nowait_done. unfold nowait_cond. now rewrite Hi.
  - rewrite run_steps.
    rewrite (bind_congr steps (ret tt) (fun _ => _wait) q)
      by (apply steps_done; unfold __nonzero__; now rewrite Hi).
    exact (bind_ret_l tt (fun _ => _wait) q).
Qed.

Lemma empty_deque_witness :
  value (_exec_next __init__) = inr (IndexError "pop from an empty deque").
Proof.
  destruct (empty_deque __init__ eq_refl) as [H _]. now rewrite H.
Defined.

(** Out of the log of [runall] on kernels, the part of a queue is the log
    of [run] on that queue. *)
Lemma runall_project queues i q :
  Forall valid_items queues -> nth_error queues i = Some q ->
  project i (emitted (runall queues)) = emitted (run q).
Proof.
  intros Hv Hi.
  destruct (runall_phases queues Hv) as (k & log & Hrun & Hper).
  cbv zeta in Hrun, Hper. rewrite Hrun. cbn [emitted].
  assert (In q queues) as Hin by exact (nth_error_In _ _ Hi).
  rewrite Forall_forall in Hv.
  destruct (exec_nowait_valid q (Hv q Hin)) as (pre & _ & Hok & _).
  pose proof (map_nth_error (fun q => final (_exec_nowait q)) _ _ Hi) as H1.
  destruct (Hper i _ H1) as (P1 & P2 & P3).
  pose proof (map_nth_error
                (fun q => final (iterate k blocking_step q)) _ _ H1) as H2.
  pose proof (run_split q Hok P3) as Hs. cbv zeta in Hs.
  rewrite !project_app, P1.
  rewrite (project_for_each_log_0 _ _ _ _ Hi).
  rewrite (project_for_each_log_0 _ _ _ _ H2).
  rewrite Hs, P2. reflexivity.
Qed.

(** X9: in the log of [runall] on reachable queues of kernels, the part of
    every queue keeps the discipline of [run]: no item is run after an item
    of the other kind of the same queue without a wait of that queue
    between them, nothing is outstanding at the end, and every request of
    the queue is waited for exactly once, in order. *)
Theorem runall_keeps_queues_synced (queues : list CUDAQueue) i q :
  Forall valid_items queues -> Forall reachable queues ->
  nth_error queues i = Some q ->
  synced (last_class q) (project i (emitted (runall queues))) = true /\
  track (last_class q) (project i (emitted (runall queues))) = None /\
  waited (project i (emitted (runall queues)))
    = _mpireqs q ++ posted (_items q).
Proof.
  intros Hv Hr Hi. rewrite (runall_project queues i q Hv Hi).
  assert (In q queues) as Hin by exact (nth_error_In _ _ Hi).
  rewrite Forall_forall in Hv, Hr.
  pose proof (reachable_Inv q (Hr q Hin)) as HI.
  destruct (run_kernels q (Hv q Hin) HI) as [E HI'].
  destruct (steps_kernels (_items q) q eq_refl (Hv q Hin) (proj1 HI))
    as (_ & _ & _ & _ & S5 & S6 & S7 & _).
  destruct (wait_facts _ HI') as (_ & _ & W3 & W4 & W5).
  rewrite E. cbn [emitted].
  rewrite synced_app, track_app, waited_app, S5, S6, W3, W5.
  repeat split; [exact W4|exact S7].
Qed.

Lemma runall_keeps_queues_synced_witness :
  synced None (project 0 (emitted (runall [queue_CCMMC; queue_MM]))) = true
  /\ waited (project 1 (emitted (runall [queue_CCMMC; queue_MM])))
     = [60; 70; 71].
Proof.
  assert (Forall valid_items [queue_CCMMC; queue_MM]) as Hv
    by (repeat constructor).
  assert (Forall reachable [queue_CCMMC; queue_MM]) as Hr
    by (repeat constructor; apply reachable_fresh).
  split.
  - exact (proj1 (runall_keeps_queues_synced _ 0 queue_CCMMC Hv Hr eq_refl)).
  - exact (proj2 (proj2 (runall_keeps_queues_synced _ 1 queue_MM Hv Hr
                           eq_refl))).
Defined.

End QueueExtra.

(* ===================================================================== *)
(** * Device matrices: further properties *)
(* ===================================================================== *)

Module MatrixExtra.
Import Matrix MatrixFacts MatrixSpec.

Local Open Scope Z_scope.

Section WithNumpy.
Context {numpy : Scalars}.

(** The rows of a matrix lie in the block of [nrow*pitch] bytes at its
    address. *)
Lemma in_rows_block self d a :
  consistent self -> in_rows self d a ->
  d <= a < d + nrow self * pitch self.
Proof.
  intros (Hcs & Hr & Hc & Hsz & Hit & Hld) (r & j & Hr' & Hj & ->).
  pose proof (np_itemsize_pos (dtype_ self)) as Hpos. unfold pitch in *.
  rewrite Hit in *.
  set (P := leaddim self * np_itemsize (dtype_ self)) in *.
  assert (ncol self * np_itemsize (dtype_ self) <= P) by (subst P; nia).
  assert (0 <= r * P) by nia.
  assert (r * P + P <= nrow self * P) by nia.
  lia.
Qed.

(** [set] writes in the rows only, whatever the array. *)
Lemma set_frame self A d mem a :
  consistent self -> data_ self = Some d -> ~ in_rows self d a ->
  snd (set self A mem) a = mem a.
Proof.
  intros Hcons Hd Ha.
  destruct (list_eq_dec Z.eq_dec (shape A) (ioshape self)) as [Hs|Hs].
  - rewrite (set_placed self A d mem Hcons Hd Hs). cbn [snd].
    apply copy_rows_htod_frame. intros k Hk Hin. apply Ha.
    destruct Hcons as (Hcs & Hr & Hc & Hsz & Hit & Hld).
    exists (Z.of_nat k), (a - (d + Z.of_nat k * pitch self)).
    repeat split; lia.
  - unfold set. now rewrite (shape_eqb_neq _ _ Hs).
Qed.

(** [get] reads in the rows only. *)
Lemma get_reads junk self d m1 m2 :
  consistent self -> data_ self = Some d ->
  (forall a, in_rows self d a -> m1 a = m2 a) ->
  get junk self m1 = get junk self m2.
Proof.
  intros Hcons Hd Hagree.
  rewrite (get_placed junk self d m1 Hcons Hd).
  rewrite (get_placed junk self d m2 Hcons Hd).
  do 4 f_equal. unfold row_bytes. f_equal.
  apply map_ext_in. intros k Hk. apply in_seq in Hk.
  unfold read_bytes. apply map_ext_in. intros j Hj. apply in_seq in Hj.
  apply Hagree. exists (Z.of_nat k), (Z.of_nat j).
  destruct Hcons as (Hcs & Hr & Hc & Hsz & Hit & Hld).
  pose proof (np_itemsize_pos (dtype_ self)).
  repeat split; lia.
Qed.

(** X10: with the tag ['align'] on a backend whose alignment is smaller
    than an item, the alignment in elements is zero and the constructor
    raises [ZeroDivisionError], whatever the shape. *)
Theorem init_alignment_below_itemsize (backend : Backend) (dt : dtype)
  (shp : list Z) (initval : option ndarray) (extent : option string)
  (tags : list string) :
  has_align tags = true -> 0 <= alignb backend < np_itemsize dt ->
  __init__ backend dt shp initval extent tags =
  inr (ZeroDivisionError "integer division or modulo by zero").
Proof.
  intros Ha Hb. unfold __init__. rewrite Ha.
  rewrite (Z.div_small _ _ Hb).
  now destruct (compact_shape backend shp).
Qed.

(** X11: the block of [nrow*leaddim*itemsize] bytes that the constructor
    asks [backend.malloc] for holds every byte that the matrix ever writes:
    neither [onalloc], which writes the initial value, nor any later [set]
    changes a byte outside the block at the address of the matrix. *)
Theorem writes_stay_in_allocation (backend : Backend) (dt : dtype)
  (shp : list Z) (initval : option ndarray) (extent : option string)
  (tags : list string) (self0 : CUDAMatrixBase) (nbytes : Z)
  (ext : option string) (b o : Z) (mem0 : memory) :
  __init__ backend dt shp initval extent tags = inl (self0, (nbytes, ext)) ->
  1 <= ldmod_of backend dt tags ->
  0 <= fst (compact_shape backend shp) ->
  0 <= snd (compact_shape backend shp) ->
  fst (compact_shape backend shp) * snd (compact_shape backend shp)
    = size shp ->
  nbytes = nrow self0 * leaddim self0 * itemsize self0 /\
  (forall a, ~ (b + o <= a < b + o + nbytes) ->
     snd (onalloc self0 b o mem0) a = mem0 a) /\
  (forall A mem a, ~ (b + o <= a < b + o + nbytes) ->
     snd (set (fst (fst (onalloc self0 b o mem0))) A mem) a = mem a).
Proof.
  intros Hinit Hm Hnr Hnc Hsz.
  destruct (init_consistent _ _ _ _ _ _ _ _ Hinit Hm Hnr Hnc Hsz)
    as (Hcons & _).
  destruct (init_fields _ _ _ _ _ _ _ _ Hinit) as (_ & _ & _ & _ & _ & _ & Hq).
  injection Hq as Hn _. unfold pitch in Hn.
  assert (nbytes = nrow self0 * pitch self0) as Hn'
    by (unfold pitch; lia).
  set (s1 := with_placement self0 b (b + o) (o / itemsize self0)).
  assert (consistent s1) as Hc1 by exact Hcons.
  assert (forall A mem a, ~ (b + o <= a < b + o + nbytes) ->
            snd (set s1 A mem) a = mem a) as Hset.
  { intros A mem a Ha. apply (set_frame s1 A (b + o)); [exact Hc1|reflexivity|].
    intros Hin. apply Ha. apply (in_rows_block s1 _ _ Hc1) in Hin.
    rewrite Hn'. exact Hin. }
  split; [lia|]. split.
  - intros a Ha. unfold onalloc. fold s1.
    change (_initval s1) with (_initval self0).
    destruct (_initval self0) as [[v|]|]; [|reflexivity|reflexivity].
    specialize (Hset v mem0 a Ha).
    destruct (set s1 v mem0) as [[[]|e] mem']; exact Hset.
  - intros A mem a Ha.
    assert (forall s, set (del_initval s) A mem = set s A mem) as Hdel
      by reflexivity.
    unfold onalloc. fold s1. change (_initval s1) with (_initval self0).
    destruct (_initval self0) as [[v|]|].
    + destruct (set s1 v mem0) as [[[]|e] mem']; cbn [fst];
        rewrite ?Hdel; now apply Hset.
    + cbn [fst]. rewrite Hdel. now apply Hset.
    + cbn [fst]. now apply Hset.
Qed.

(** X12: two placed matrices whose blocks do not overlap do not interfere:
    a [set] on one, with any array, does not change what [get] returns for
    the other. *)
Theorem sets_do_not_interfere (m1 m2 : CUDAMatrixBase) (d1 d2 : Z)
  (A : ndarray) (junk : nat -> scalar) (mem : memory) :
  consistent m1 -> data_ m1 = Some d1 ->
  consistent m2 -> data_ m2 = Some d2 ->
  d1 + nrow m1 * pitch m1 <= d2 \/ d2 + nrow m2 * pitch m2 <= d1 ->
  get junk m2 (snd (set m1 A mem)) = get junk m2 mem.
Proof.
  intros Hc1 Hd1 Hc2 Hd2 Hdisj.
  apply (get_reads junk m2 d2 _ _ Hc2 Hd2). intros a Ha.
  apply (set_frame m1 A d1 mem a Hc1 Hd1). intros Hin.
  apply (in_rows_block m1 _ _ Hc1) in Hin.
  apply (in_rows_block m2 _ _ Hc2) in Ha. lia.
Qed.

(** X13: [onalloc] records the placement, [data = basedata + offset] and
    [offset // itemsize] elements.  With an initial value of the logical
    shape it returns, has written the value and has deleted [_initval]:
    [get] then returns the numbers of the initial value as converted to the
    type of the matrix and stored, which are the numbers themselves when the
    type can hold them.  With an initial value of another shape it raises
    [ValueError] with the memory as it was; the matrix is placed, and the
    initial value is still there. *)
Theorem onalloc_writes_initval (backend : Backend) (dt : dtype)
  (shp : list Z) (A : ndarray) (extent : option string)
  (tags : list string) (self0 : CUDAMatrixBase) (req : malloc_request)
  (b o : Z) (mem : memory) :
  __init__ backend dt shp (Some A) extent tags = inl (self0, req) ->
  1 <= ldmod_of backend dt tags ->
  0 <= fst (compact_shape backend shp) ->
  0 <= snd (compact_shape backend shp) ->
  fst (compact_shape backend shp) * snd (compact_shape backend shp)
    = size shp ->
  exists self r mem',
    onalloc self0 b o mem = (self, r, mem') /\
    data_ self = Some (b + o) /\ basedata self = Some b /\
    offset self = Some (o / np_itemsize dt) /\
    (shape A = shp ->
       r = inl tt /\ _initval self = None /\
       (well_formed A ->
        forall junk, exists B,
          get junk self mem' = inl B /\ shape B = shp /\ arr_dtype B = dt /\
          data B = map (fun v => decode dt (encode dt v))
                     (data (asanyarray A dt)) /\
          (representable dt A -> array_equal B A))) /\
    (shape A <> shp ->
       r = inr (ValueError "Invalid matrix shape") /\ mem' = mem /\
       _initval self = Some (Some A)).
Proof.
  intros Hinit Hm Hnr Hnc Hsz.
  destruct (list_eq_dec Z.eq_dec (shape A) shp) as [Hs|Hs].
  - destruct (onalloc_with_initval backend dt shp A extent tags self0 req
                b o mem Hinit Hm Hnr Hnc Hsz Hs)
      as (self & Eo & _ & Hd & Hb & Ho & Hiv & _ & _ & Hst).
    exists self, (inl tt), (snd (set self A mem)).
    split; [exact Eo|]. split; [exact Hd|]. split; [exact Hb|].
    split; [exact Ho|]. split; [|intros Hne; contradiction].
    intros _. split; [reflexivity|]. split; [exact Hiv|].
    intros Hwf junk. destruct (Hst Hwf) as [_ Hget].
    eexists. split; [apply Hget|]. cbn [shape arr_dtype data].
    split; [reflexivity|]. split; [reflexivity|]. split; [reflexivity|].
    intros Hrep. split; [cbn; now rewrite Hs|]. cbn [data].
    rewrite (asanyarray_data A _ Hrep). now apply representable_map.
  - destruct (init_consistent _ _ _ _ _ _ _ _ Hinit Hm Hnr Hnc Hsz)
      as (Hcons & _).
    destruct (init_fields _ _ _ _ _ _ _ _ Hinit)
      as (Hiv & _ & _ & Hdt & Hio & _ & _).
    assert (itemsize self0 = np_itemsize dt) as Hit
      by (destruct Hcons as (_ & _ & _ & _ & H & _); now rewrite H, Hdt).
    set (s1 := with_placement self0 b (b + o) (o / itemsize self0)).
    unfold onalloc. fold s1. change (_initval s1) with (_initval self0).
    rewrite Hiv.
    assert (set s1 A mem = (inr (ValueError "Invalid matrix shape"), mem))
      as E.
    { unfold set. rewrite shape_eqb_neq; [reflexivity|].
      cbn. now rewrite Hio. }
    rewrite E. exists s1, (inr (ValueError "Invalid matrix shape")), mem.
    split; [reflexivity|].
    split; [reflexivity|]. split; [reflexivity|].
    split; [rewrite <- Hit; reflexivity|].
    split; [intros Heq; contradiction|].
    intros _. split; [reflexivity|]. split; [reflexivity|exact Hiv].
Qed.

(** X14: a constant matrix takes its logical shape from its initial value
    and its type from the backend, so its [onalloc] never fails on the
    shape: it returns, and [get] then returns the numbers of the initial
    value as converted to [backend.fpdtype] and stored.  They are the
    numbers of the initial value when every one of them comes back unchanged
    from that conversion. *)
Theorem const_matrix_holds_initval (backend : Backend) (A : ndarray)
  (extent : option string) (tags : list string) (self0 : CUDAMatrixBase)
  (req : malloc_request) (b o : Z) (mem : memory) :
  CUDAConstMatrix__init__ backend A extent tags = inl (self0, req) ->
  1 <= ldmod_of backend (fpdtype backend) tags ->
  0 <= fst (compact_shape backend (shape A)) ->
  0 <= snd (compact_shape backend (shape A)) ->
  fst (compact_shape backend (shape A))
  * snd (compact_shape backend (shape A)) = size (shape A) ->
  well_formed A ->
  exists self mem',
    onalloc self0 b o mem = (self, inl tt, mem') /\
    dtype_ self = fpdtype backend /\ ioshape self = shape A /\
    forall junk, exists B,
      get junk self mem' = inl B /\
      shape B = shape A /\ arr_dtype B = fpdtype backend /\
      data B = map (fun v => decode (fpdtype backend)
                               (encode (fpdtype backend) v))
                 (data (asanyarray A (fpdtype backend))) /\
      (representable (fpdtype backend) A -> array_equal B A).
Proof.
  unfold CUDAConstMatrix__init__. intros Hinit Hm Hnr Hnc Hsz Hwf.
  destruct (onalloc_with_initval backend (fpdtype backend) (shape A) A
              extent tags self0 req b o mem Hinit Hm Hnr Hnc Hsz eq_refl)
    as (self & Eo & _ & _ & _ & _ & _ & Hio & Hdt & Hst).
  destruct (Hst Hwf) as [_ Hget].
  exists self, (snd (set self A mem)). split; [exact Eo|].
  split; [exact Hdt|]. split; [exact Hio|].
  intros junk. eexists. split; [apply Hget|]. cbn [shape arr_dtype data].
  split; [reflexivity|]. split; [reflexivity|]. split; [reflexivity|].
  intros Hrep. split; [reflexivity|]. cbn [data].
  rewrite (asanyarray_data A _ Hrep). now apply representable_map.
Qed.

(** X20: [onalloc] deletes [_initval], so it works once: after the
    constructor and an [onalloc] that returned, a second [onalloc] raises
    [AttributeError] and leaves the device memory as it is; the address and
    the offset that it was given have been recorded all the same. *)
Theorem onalloc_only_once (backend : Backend) (dt : dtype) (shp : list Z)
  (initval : option ndarray) (extent : option string) (tags : list string)
  (self0 : CUDAMatrixBase) (req : malloc_request) (b o b' o' : Z)
  (mem mem2 : memory) :
  __init__ backend dt shp initval extent tags = inl (self0, req) ->
  snd (fst (onalloc self0 b o mem)) = inl tt ->
  exists self2,
    onalloc (fst (fst (onalloc self0 b o mem))) b' o' mem2
    = (self2, inr (AttributeError "_initval"), mem2) /\
    basedata self2 = Some b' /\ data_ self2 = Some (b' + o') /\
    offset self2 = Some (o' / np_itemsize dt).
Proof.
  intros Hinit Hok.
  destruct (init_fields _ _ _ _ _ _ _ _ Hinit)
    as (Hiv & _ & _ & Hdt & _ & _ & _).
  assert (itemsize self0 = np_itemsize dt) as Hit.
  { revert Hinit. unfold __init__.
    destruct (compact_shape backend shp) as [nr nc].
    destruct (_ =? 0); [discriminate|].
    destruct (rev shp) as [|lsd rest]; [discriminate|].
    now intros [= <- _]. }
  set (s1 := with_placement self0 b (b + o) (o / itemsize self0)).
  assert (exists mem1,
            onalloc self0 b o mem = (del_initval s1, inl tt, mem1)) as (mem1 & E).
  { revert Hok. unfold onalloc. fold s1.
    change (_initval s1) with (_initval self0). rewrite Hiv.
    destruct initval as [A|].
    - destruct (set s1 A mem) as [[[]|e] mem1]; cbn [fst snd].
      + intros _. now exists mem1.
      + discriminate.
    - intros _. now exists mem. }
  rewrite E. cbn [fst]. eexists. split; [reflexivity|].
  cbn. rewrite Hit. repeat split.
Qed.

(** X15: a matrix that the constructor has built and that has not been
    placed has no address: [get] raises [AttributeError], [set] raises as
    well, for every array, and the device memory is not touched. *)
Theorem unplaced_matrix_has_no_address (backend : Backend) (dt : dtype)
  (shp : list Z) (initval : option ndarray) (extent : option string)
  (tags : list string) (self0 : CUDAMatrixBase) (req : malloc_request) :
  __init__ backend dt shp initval extent tags = inl (self0, req) ->
  _as_parameter_ self0 = inr (AttributeError "data") /\
  (forall junk mem, get junk self0 mem = inr (AttributeError "data")) /\
  (forall A mem,
     snd (set self0 A mem) = mem /\
     exists e, fst (set self0 A mem) = inr e).
Proof.
  intros Hinit.
  destruct (init_fields _ _ _ _ _ _ _ _ Hinit) as (_ & Hd & _).
  split; [unfold _as_parameter_; now rewrite Hd|]. split.
  - intros junk mem. unfold get. now rewrite Hd.
  - intros A mem. unfold set.
    destruct (negb _); [split; [reflexivity|eexists; reflexivity]|].
    destruct (compact_arr _ _) as [nary|e];
      [|split; [reflexivity|eexists; reflexivity]].
    rewrite Hd. split; [reflexivity|eexists; reflexivity].
Qed.

(** X16: the address of a slice of rows [p, q) of a placed matrix is the
    address of row [p] of the matrix, and row [k] of the slice is row
    [p + k] of the matrix: its element bytes are element bytes of the
    matrix, and after a [set] on the matrix they hold the bytes of row
    [p + k] of what was set. *)
Theorem rslice_rows_are_parent_rows (mat : CUDAMatrixBase) (d p q : Z)
  (A : ndarray) (mem : memory) :
  consistent mat -> data_ mat = Some d ->
  0 <= p -> p < q -> q <= nrow mat ->
  shape A = ioshape mat -> well_formed A ->
  RSlice_as_parameter_ (RSlice__init__ mat p q) = inl (d + p * pitch mat) /\
  forall k, 0 <= k < q - p ->
    (forall j, 0 <= j < ncol mat * itemsize mat ->
       in_rows mat d (d + p * pitch mat + k * pitch mat + j)) /\
    read_bytes (snd (set mat A mem)) (d + p * pitch mat + k * pitch mat)
      (Z.to_nat (ncol mat * itemsize mat))
    = slice (sent mat A)
        (Z.to_nat ((p + k) * (ncol mat * itemsize mat)))
        (Z.to_nat (ncol mat * itemsize mat)).
Proof.
  intros Hcons Hd Hp Hpq Hq Hs Hwf.
  split; [unfold RSlice_as_parameter_, RSlice__init__; cbn; now rewrite Hd|].
  intros k Hk. split.
  - intros j Hj. exists (p + k), j. repeat split; lia.
  - rewrite (set_placed mat A d mem Hcons Hd Hs). cbn [snd].
    destruct Hcons as (Hcs & Hr & Hc & Hsz & Hit & Hld).
    pose proof (np_itemsize_pos (dtype_ mat)) as Hpos.
    set (W := Z.to_nat (ncol mat * itemsize mat)).
    set (n := Z.to_nat (nrow mat)).
    assert (ncol mat * itemsize mat = Z.of_nat W) as HW
      by (subst W; rewrite Z2Nat.id; nia).
    assert (List.length (sent mat A) = (n * W)%nat) as Hlen.
    { unfold sent.
      rewrite (length_flat_map_const _ (Z.to_nat (np_itemsize (dtype_ mat))))
        by (intros; apply encode_length).
      rewrite asanyarray_length. unfold well_formed in Hwf.
      rewrite Hwf, Hs, <- Hsz. subst n W.
      rewrite Hit, !Z2Nat.inj_mul by lia. lia. }
    rewrite HW.
    replace (d + p * pitch mat + k * pitch mat)
      with (d + Z.of_nat (Z.to_nat (p + k)) * pitch mat)
      by (rewrite Z2Nat.id; lia).
    replace ((p + k) * Z.of_nat W)
      with (Z.of_nat (Z.to_nat (p + k)) * Z.of_nat W)
      by (rewrite Z2Nat.id; lia).
    apply copy_rows_htod_read.
    + unfold pitch. nia.
    + intros i Hi. unfold slice.
      rewrite length_firstn, length_skipn, Hlen.
      rewrite <- Nat2Z.inj_mul, Nat2Z.id. nia.
    + subst n. lia.
Qed.

(** X17: with the tag ['align'], on a backend whose alignment is a whole
    number of items, the byte stride between the rows of a matrix is a
    multiple of the alignment: every row starts a whole number of alignment
    units after the first. *)
Theorem pitch_is_aligned (backend : Backend) (dt : dtype) (shp : list Z)
  (initval : option ndarray) (extent : option string) (tags : list string)
  (self0 : CUDAMatrixBase) (req : malloc_request) :
  __init__ backend dt shp initval extent tags = inl (self0, req) ->
  has_align tags = true ->
  0 < alignb backend -> alignb backend mod np_itemsize dt = 0 ->
  pitch self0 mod alignb backend = 0 /\
  forall r, (r * pitch self0) mod alignb backend = 0.
Proof.
  intros Hinit Ha Hb Hdiv.
  pose proof (np_itemsize_pos dt) as Hpos.
  assert (pitch self0 mod alignb backend = 0) as Hp.
  { revert Hinit. unfold __init__. rewrite Ha.
    destruct (compact_shape backend shp) as [nr nc].
    apply Z.mod_divide in Hdiv; [|lia]. destruct Hdiv as [c Hc].
    assert (alignb backend / np_itemsize dt = c) as Hq
      by (rewrite Hc; apply Z.div_mul; lia).
    rewrite Hq. assert (1 <= c) as Hc1 by nia.
    assert ((c =? 0) = false) as -> by (apply Z.eqb_neq; lia).
    destruct (rev shp) as [|lsd rest]; [discriminate|].
    intros [= <- _]. unfold pitch. cbn.
    destruct (leaddim_of_spec nc c Hc1) as (_ & Hmod & _).
    unfold leaddim_of in Hmod.
    apply Z.mod_divide in Hmod; [|lia]. destruct Hmod as [t Ht].
    rewrite Ht, Hc. replace (t * c * np_itemsize dt)
      with (t * (c * np_itemsize dt)) by lia.
    apply Z.mod_mul. nia. }
  split; [exact Hp|]. intros r.
  apply Z.mod_divide in Hp; [|lia]. destruct Hp as [t Ht].
  rewrite Ht. replace (r * (t * alignb backend))
    with (r * t * alignb backend) by lia.
  apply Z.mod_mul. lia.
Qed.

End WithNumpy.

Lemma init_alignment_below_itemsize_witness :
  __init__ (numpy := numbers) narrow_backend float32 [2; 3] None None
    ["align"%string]
  = inr (ZeroDivisionError "integer division or modulo by zero").
Proof.
  apply (init_alignment_below_itemsize (numpy := numbers));
    [reflexivity|cbn; lia].
Defined.

Lemma writes_stay_in_allocation_witness :
  snd (set (fst (fst (onalloc sample_unplaced 4096 64 sample_memory)))
         sample_array sample_memory) 4192
  = sample_memory 4192.
Proof.
  destruct (writes_stay_in_allocation (numpy := numbers) sample_backend
              int32 [2; 3] None None ["align"%string] sample_unplaced 32
              None 4096 64 sample_memory eq_refl)
    as (_ & _ & H); [cbn; lia|cbn; lia|cbn; lia|reflexivity|].
  apply H. lia.
Defined.

Lemma sets_do_not_interfere_witness :
  @get numbers (fun _ => Int 0) second_matrix
    (snd (set sample_matrix sample_array sample_memory))
  = @get numbers (fun _ => Int 0) second_matrix sample_memory.
Proof.
  apply (sets_do_not_interfere sample_matrix second_matrix 4160 4192);
    [exact sample_matrix_consistent|reflexivity| |reflexivity|].
  - repeat split; cbn; lia.
  - left. cbn. lia.
Defined.

Lemma onalloc_writes_initval_witness :
  exists self0 req self mem',
    __init__ (numpy := numbers) sample_backend int32 [2; 3]
      (Some sample_array) None ["align"%string] = inl (self0, req) /\
    onalloc self0 4096 64 sample_memory = (self, inl tt, mem') /\
    exists B,
      @get numbers (fun _ => Int 0) self mem' = inl B /\
      array_equal B sample_array.
Proof.
  eexists. eexists.
  destruct (onalloc_writes_initval (numpy := numbers) sample_backend int32
              [2; 3] sample_array None ["align"%string] _ _ 4096 64
              sample_memory eq_refl)
    as (self & r & mem' & E & _ & _ & _ & Hok & _);
    [cbn; lia|cbn; lia|cbn; lia|reflexivity|].
  destruct (Hok eq_refl) as (-> & _ & Hget).
  destruct (Hget eq_refl (fun _ => Int 0)) as (B & HB & _ & _ & _ & Heq).
  exists self, mem'. split; [reflexivity|]. split; [exact E|].
  exists B. split; [exact HB|]. apply Heq. repeat constructor.
Defined.

Lemma const_matrix_holds_initval_witness :
  exists self0 req self mem',
    CUDAConstMatrix__init__ (numpy := numbers) sample_backend sample_floats
      None [] = inl (self0, req) /\
    onalloc self0 4096 64 sample_memory = (self, inl tt, mem') /\
    exists B,
      @get numbers (fun _ => Int 0) self mem' = inl B /\
      array_equal B sample_floats.
Proof.
  eexists. eexists.
  destruct (const_matrix_holds_initval (numpy := numbers) sample_backend
              sample_floats None [] _ _ 4096 64 sample_memory eq_refl)
    as (self & mem' & E & _ & _ & Hget);
    [cbn; lia|cbn; lia|cbn; lia|reflexivity|reflexivity|].
  destruct (Hget (fun _ => Int 0)) as (B & HB & _ & _ & _ & Heq).
  exists self, mem'. split; [reflexivity|]. split; [exact E|].
  exists B. split; [exact HB|]. apply Heq. repeat constructor.
Defined.

Lemma onalloc_only_once_witness :
  snd (fst (onalloc (fst (fst (onalloc sample_unplaced 4096 64
                                 sample_memory)))
              8192 0 sample_memory))
  = inr (AttributeError "_initval").
Proof.
  destruct (onalloc_only_once (numpy := numbers) sample_backend int32 [2; 3]
              None None ["align"%string] sample_unplaced (32, None)
              4096 64 8192 0 sample_memory sample_memory eq_refl eq_refl)
    as (self2 & E & _).
  now rewrite E.
Defined.

Lemma unplaced_matrix_has_no_address_witness :
  @get numbers (fun _ => Int 0) sample_unplaced sample_memory
  = inr (AttributeError "data").
Proof.
  destruct (unplaced_matrix_has_no_address (numpy := numbers)
              sample_backend int32 [2; 3] None None ["align"%string]
              sample_unplaced (32, None) eq_refl) as (_ & H & _).
  apply H.
Defined.

Lemma rslice_rows_are_parent_rows_witness :
  RSlice_as_parameter_ (RSlice__init__ sample_matrix 1 2) = inl 4176.
Proof.
  destruct (rslice_rows_are_parent_rows sample_matrix 4160 1 2 sample_array
              sample_memory sample_matrix_consistent eq_refl)
    as [H _]; [lia|lia|cbn; lia|reflexivity|reflexivity|].
  exact H.
Defined.

Lemma pitch_is_aligned_witness :
  pitch sample_unplaced mod 16 = 0.
Proof.
  destruct (pitch_is_aligned (numpy := numbers) sample_backend int32 [2; 3]
              None None ["align"%string] sample_unplaced (32, None) eq_refl)
    as [H _]; [reflexivity|cbn; lia|reflexivity|].
  exact H.
Defined.

End MatrixExtra.

(* ===================================================================== *)
(** * Indexed views: further properties *)
(* ===================================================================== *)

Module ViewExtra.
Import Matrix View MatrixSpec ViewSpec.

Local Open Scope Z_scope.

Lemma selected_out_of_bounds shp idx : forall ix,
  In idx ix -> select shp idx = None ->
  selected shp ix = inr (IndexError "index out of bounds").
Proof.
  induction ix as [|i0 ix IH]; intros Hin Hsel; [destruct Hin|].
  cbn [selected]. destruct (select shp i0) as [[start count]|] eqn:E0;
    [|reflexivity].
  destruct Hin as [->|Hin]; [congruence|]. now rewrite (IH Hin Hsel).
Qed.

(** The indices of a position of an array of two axes. *)
Lemma unravel_pair a b i j :
  0 <= j < b -> unravel [a; b] (i * b + j) = [i; j].
Proof.
  intros Hj. cbn [unravel]. change (size [b]) with (b * 1).
  change (size []) with 1. rewrite Z.mul_1_r, Z.div_1_r.
  assert ((i * b + j) / b = i) as ->
    by (rewrite Z.div_add_l, Z.div_small by lia; lia).
  assert ((i * b + j) mod b = j) as ->
    by (rewrite Z.add_comm, Z.mod_add, Z.mod_small by lia; reflexivity).
  reflexivity.
Qed.

Lemma select_pair_out a' b' i j :
  a' <= i \/ b' <= j -> select [a'; b'] [i; j] = None.
Proof.
  intros H. cbn [select].
  destruct ((0 <=? i) && (i <? a')) eqn:Ei; [|reflexivity].
  apply andb_true_iff in Ei. destruct Ei as [_ Ei]. apply Z.ltb_lt in Ei.
  destruct ((0 <=? j) && (j <? b')) eqn:Ej; [|reflexivity].
  apply andb_true_iff in Ej. destruct Ej as [_ Ej]. apply Z.ltb_lt in Ej.
  lia.
Qed.

Section WithHeap.
Context {numpy : Scalars}.
Variable heap : objref -> CUDAMatrixBase.
Variable base_init : objarray -> view_base + exn.

(** X18: when the matrix map and the row/column map have the shape of the
    view and one of the matrices of the view has not been placed, the
    constructor of the view raises [AttributeError]: the matrix has no
    offset yet. *)
Theorem view_of_unplaced_matrix_raises (backend : Backend)
  (matmap : objarray) (rcmap : rcarray) (stridemap : ndarray) (vl : Z)
  (tags : list string) (nr nc : Z) (mats : list objref) :
  base_init matmap = inl (nr, nc, mats) ->
  oshape matmap = [nr; nc] -> rcshape rcmap = [nr; nc] ->
  0 <= nr -> 0 <= nc ->
  List.length (oitems matmap) = Z.to_nat (nr * nc) ->
  (exists m, In m mats /\ offset (heap m) = None) ->
  __init__ heap base_init backend matmap rcmap stridemap vl tags
  = inr (AttributeError "offset").
Proof.
  intros Hbase Hos Hrs Hnr Hnc Hlo Hun. unfold __init__.
  rewrite Hbase, Hrs.
  rewrite (offsets_loop_unplaced heap matmap [nr; nc] (map fst (rc rcmap))
             Hos ltac:(discriminate) ltac:(repeat constructor; assumption));
    [reflexivity| |exact Hun].
  rewrite Hlo, size_pair, Z2Nat.id; nia.
Qed.

(** X19: the compiled offsets address the cells they name.  When the
    matrices of a view lie in one allocation at address [b], each at the
    element offset that [onalloc] recorded, and a position of the view
    names a cell of its matrix whose offset fits in 32 bits, then [b] plus
    the compiled offset times the item size is the address of the first
    byte of that cell, a byte among the rows of the matrix. *)
Theorem view_offsets_address_cells (backend : Backend) (matmap : objarray)
  (rcmap : rcarray) (stridemap : ndarray) (vl : Z) (tags : list string)
  (nr nc : Z) (mats : list objref) (b : Z) :
  base_init matmap = inl (nr, nc, mats) ->
  NoDup mats -> (forall m, In m (oitems matmap) -> In m mats) ->
  (forall m, In m mats ->
     0 < itemsize (heap m) /\ int64_range (leaddim (heap m)) /\
     exists off, offset (heap m) = Some off /\ int64_range off /\
                 data_ (heap m) = Some (b + off * itemsize (heap m))) ->
  (forall r c, In (r, c) (rc rcmap) -> int64_range r /\ int64_range c) ->
  oshape matmap = [nr; nc] -> rcshape rcmap = [nr; nc] ->
  0 <= nr -> 0 <= nc ->
  List.length (oitems matmap) = Z.to_nat (nr * nc) ->
  List.length (rc rcmap) = Z.to_nat (nr * nc) ->
  ldmod_of backend int32 tags <> 0 ->
  exists v reqs offmap,
    __init__ heap base_init backend matmap rcmap stridemap vl tags
      = inl (v, reqs) /\
    _initval (mapping v) = Some (Some (int32_array [nr; nc] offmap)) /\
    forall i m r c off,
      nth_error (oitems matmap) i = Some m ->
      nth_error (rc rcmap) i = Some (r, c) ->
      offset (heap m) = Some off ->
      0 <= r < nrow (heap m) -> 0 <= c < ncol (heap m) ->
      - 2 ^ 31 <= off + r * leaddim (heap m) + c < 2 ^ 31 ->
      exists e d,
        nth_error offmap i = Some e /\ data_ (heap m) = Some d /\
        b + e * itemsize (heap m)
          = d + r * pitch (heap m) + c * itemsize (heap m) /\
        in_rows (heap m) d (b + e * itemsize (heap m)).
Proof.
  intros Hbase Hnd Hcover Hpl _ Hos Hrs Hnr Hnc Hlo Hlr Hm.
  assert (forall m, In m mats -> offset (heap m) <> None) as Hpl'.
  { intros m Hin. destruct (Hpl m Hin) as (_ & _ & off & -> & _).
    discriminate. }
  destruct (view_init_ok heap base_init backend matmap rcmap stridemap vl
              tags nr nc mats Hbase Hnd Hcover Hpl' Hos Hrs Hnr Hnc Hlo Hlr
              Hm)
    as (mp & rq1 & st & rq2 & offmap & E1 & E2 & E & L & H).
  destruct (init_fields _ _ _ _ _ _ _ _ E1) as (M3 & _).
  eexists. eexists. exists offmap.
  split; [exact E|]. cbn [mapping]. split; [exact M3|].
  intros i m r c off Hi Hrc Hoff Hr Hc Hfit.
  pose proof (Hcover m (nth_error_In _ _ Hi)) as Hin.
  destruct (Hpl m Hin) as (Hpos & _ & off' & Hoff' & _ & Hd).
  assert (off' = off) as -> by congruence.
  exists (off + r * leaddim (heap m) + c), (b + off * itemsize (heap m)).
  assert (b + (off + r * leaddim (heap m) + c) * itemsize (heap m)
          = b + off * itemsize (heap m) + r * pitch (heap m)
            + c * itemsize (heap m)) as Haddr by (unfold pitch; lia).
  split; [|split; [exact Hd|split; [exact Haddr|]]].
  - rewrite (H i m off r c Hi Hrc Hoff). f_equal. now apply wrap32_small.
  - rewrite Haddr. exists r, (c * itemsize (heap m)).
    repeat split; try lia; nia.
Qed.

(** The loop raises [IndexError] at a matrix with an element of the matrix
    map outside the array of offsets, when the matrices before it have been
    placed. *)
Lemma offsets_loop_out_of_bounds matmap shp r m idx : forall pre post offmap,
  (forall m', In m' pre -> offset (heap m') <> None) ->
  In idx (where_eq matmap m) -> select shp idx = None ->
  exists msg,
    offsets_loop heap (pre ++ m :: post) matmap shp r offmap
    = inr (IndexError msg).
Proof.
  induction pre as [|m0 pre IH]; intros post offmap Hpl Hin Hsel.
  - cbn [app offsets_loop]. unfold getitem.
    destruct (_ <? _)%nat; [eexists; reflexivity|].
    rewrite (selected_out_of_bounds shp idx _ Hin Hsel).
    eexists; reflexivity.
  - cbn [app offsets_loop]. unfold getitem.
    destruct (_ <? _)%nat; [eexists; reflexivity|].
    destruct (selected shp (where_eq matmap m0)) as [ps|e] eqn:E0.
    + destruct (offset (heap m0)) as [off0|] eqn:Eoff;
        [|exfalso; now apply (Hpl m0 (or_introl eq_refl))].
      apply IH; [|exact Hin|exact Hsel].
      intros m' Hm'. apply Hpl. now right.
    + clear - E0. revert e E0.
      induction (where_eq matmap m0) as [|i0 ix IHix]; intros e E0;
        [discriminate|].
      cbn [selected] in E0.
      destruct (select shp i0) as [[start count]|];
        [|injection E0 as <-; eexists; reflexivity].
      destruct (selected shp ix) as [ps|e'];
        [discriminate|]. injection E0 as <-. now apply (IHix e').
Qed.

(** X21: when an element of the matrix map lies outside the shape of the
    row/column map, the constructor of the view raises [IndexError] at the
    matrix of that element, provided the matrices that the loop takes
    before it have been placed.  The matrix itself need not be: its
    elements of the array of offsets are looked up before its offset is. *)
Theorem view_shape_mismatch_raises (backend : Backend) (matmap : objarray)
  (rcmap : rcarray) (stridemap : ndarray) (vl : Z) (tags : list string)
  (nr nc : Z) (pre post : list objref) (m : objref) (a b a' b' i j : Z) :
  base_init matmap = inl (nr, nc, pre ++ m :: post) ->
  (forall m', In m' pre -> offset (heap m') <> None) ->
  oshape matmap = [a; b] -> rcshape rcmap = [a'; b'] ->
  0 <= i -> 0 <= j < b ->
  nth_error (oitems matmap) (Z.to_nat (i * b + j)) = Some m ->
  a' <= i \/ b' <= j ->
  exists msg,
    __init__ heap base_init backend matmap rcmap stridemap vl tags
    = inr (IndexError msg).
Proof.
  intros Hbase Hpl Hos Hrs Hi Hj Hm Hout. unfold __init__.
  rewrite Hbase, Hrs.
  destruct (offsets_loop_out_of_bounds matmap [a'; b']
              (map fst (rc rcmap)) m [i; j] pre post
              (map wrap32 (map snd (rc rcmap))) Hpl)
    as (msg & E).
  - unfold where_eq, where_shape. rewrite Hos.
    rewrite <- (unravel_pair a b i j Hj).
    replace (i * b + j) with (Z.of_nat (Z.to_nat (i * b + j)))
      by (rewrite Z2Nat.id; nia).
    apply (in_map (fun p => unravel [a; b] (Z.of_nat p))).
    now apply positions_In.
  - now apply select_pair_out.
  - rewrite E. exists msg. reflexivity.
Qed.

End WithHeap.

Lemma view_of_unplaced_matrix_raises_witness :
  __init__ unplaced_heap base_View__init__ sample_backend sample_matmap
    sample_rcmap sample_strides 1 []
  = inr (AttributeError "offset").
Proof.
  apply (view_of_unplaced_matrix_raises unplaced_heap base_View__init__
           sample_backend sample_matmap sample_rcmap sample_strides 1 []
           1 2 [0%nat; 1%nat] eq_refl eq_refl eq_refl);
    [lia|lia|reflexivity|].
  exists 0%nat. split; [now left|reflexivity].
Defined.

Lemma view_offsets_address_cells_witness :
  exists e d,
    data_ (shared_heap 0%nat) = Some d /\
    4096 + e * itemsize (shared_heap 0%nat)
    = d + 1 * pitch (shared_heap 0%nat) + 2 * itemsize (shared_heap 0%nat) /\
    in_rows (shared_heap 0%nat) d (4096 + e * itemsize (shared_heap 0%nat)).
Proof.
  destruct (view_offsets_address_cells shared_heap base_View__init__
              sample_backend sample_matmap sample_rcmap sample_strides 1 []
              1 2 [0%nat; 1%nat] 4096 eq_refl)
    as (v & reqs & offmap & _ & _ & H).
  - repeat constructor; cbn; intuition discriminate.
  - intros m Hin. exact Hin.
  - intros m [<-|[<-|[]]]; (split; [reflexivity|]);
      (split; [unfold int64_range; cbn; lia|]);
      eexists; (split; [reflexivity|]);
      (split; [unfold int64_range; lia|reflexivity]).
  - intros r c [[= <- <-]|[[= <- <-]|[]]]; unfold int64_range; lia.
  - reflexivity.
  - reflexivity.
  - lia.
  - lia.
  - reflexivity.
  - reflexivity.
  - discriminate.
  - destruct (H 0%nat 0%nat 1 2 16 eq_refl eq_refl eq_refl)
      as (e & d & _ & Hd & Ha & Hr); [cbn; lia|cbn; lia|cbn; lia|].
    exists e, d. split; [exact Hd|]. split; [exact Ha|exact Hr].
Defined.

Lemma view_shape_mismatch_raises_witness :
  exists msg,
    __init__ half_placed_heap base_View__init__ sample_backend tall_matmap
      sample_rcmap sample_strides 1 [] = inr (IndexError msg).
Proof.
  apply (view_shape_mismatch_raises half_placed_heap base_View__init__
           sample_backend tall_matmap sample_rcmap sample_strides 1 []
           2 1 [0%nat] [] 1%nat 2 1 1 2 1 0 eq_refl);
    [|reflexivity|reflexivity|lia|lia|reflexivity|left; lia].
  intros m' [<-|[]]. discriminate.
Defined.

End ViewExtra.
